(** * animera: the animation-and-camera engine of the travel map

    A shallow embedding of the [MapContent] component (path pre-processing,
    per-frame interpolation, trail management, camera zoom, frame driver).

    Numbers.  A TypeScript [number] is embedded as an exact rational [Q]:
    comparisons are the ordinary order, arithmetic is exact, and results are
    compared with [==].  Rounding of IEEE doubles is outside this model.

    Faults.  Reading a property of [undefined] raises a [TypeError]; a
    division by zero yields [NaN] or an infinity.  Both are made visible as a
    [fault] so that their absence can be stated.

    Leaflet.  [distanceTo] and the view chosen by [fitBounds] are parameters.
    A marker is its position and icon, a polyline its points and colour.
    The map is the view last requested of it: the centre and zoom handed to
    [setView], or the view chosen by [fitBounds].  What Leaflet then
    renders (the zoom snapped to [zoomSnap], the centre moved by whole
    pixels) is outside this model, so a statement about [mapView] is a
    statement about what the code asks the map for.  The background preview
    polylines, which only change opacity with [isPlaying], are left out. *)

From Stdlib Require Import String QArith Qabs Qminmax Lqa ZArith List Bool Lia.
From Stdlib Require Import Permutation.
Import ListNotations.

Local Open Scope Q_scope.

(** ** Results of fallible steps *)

Inductive fault : Type :=
| UndefinedAccess
| DivisionByZero.

Definition result (A : Type) : Type := (fault + A)%type.

Definition ret {A} (a : A) : result A := inr a.
Definition raise {A} (f : fault) : result A := inl f.
Definition bind {A B} (m : result A) (k : A -> result B) : result B :=
  match m with
  | inl f => inl f
  | inr a => k a
  end.

Notation "x <- m ;; k" := (bind m (fun x => k))
  (at level 61, m at next level, right associativity).

(** ** Numbers *)

(** [a < b] on numbers, as a test. *)
Definition Qltb (a b : Q) : bool := negb (Qle_bool b a).

(** [a / b], flagged when the divisor is zero. *)
Definition checked_div (a b : Q) : result Q :=
  if Qeq_bool b 0 then raise DivisionByZero else ret (a / b).

(** ** JavaScript arrays *)

Module JsArray.

(** [Array.prototype.findIndex]: the first index whose element passes the
    test, [-1] when there is none. *)
Fixpoint findIndexFrom {A} (f : A -> bool) (l : list A) (i : Z) : Z :=
  match l with
  | [] => (-1)%Z
  | x :: rest => if f x then i else findIndexFrom f rest (i + 1)%Z
  end.

Definition findIndex {A} (f : A -> bool) (l : list A) : Z :=
  findIndexFrom f l 0%Z.

(** [arr[i]] followed by a property read: out of range is [undefined],
    and reading a property of it raises. *)
Definition at_ {A} (l : list A) (i : Z) : result A :=
  if (i <? 0)%Z then raise UndefinedAccess
  else match nth_error l (Z.to_nat i) with
       | Some x => ret x
       | None => raise UndefinedAccess
       end.

(** [arr[arr.length - 1]] *)
Definition lastOpt {A} (l : list A) : option A :=
  match l with
  | [] => None
  | _ => nth_error l (length l - 1)
  end.

End JsArray.

(** ** types.ts *)

Inductive TransportMode : Type := CAR | TRAIN | BUS.

Definition TransportMode_eqb (a b : TransportMode) : bool :=
  match a, b with
  | CAR, CAR | TRAIN, TRAIN | BUS, BUS => true
  | _, _ => false
  end.

Record Coordinates : Type := mkCoordinates {
  lat : Q;
  lng : Q
}.

Record RouteLeg : Type := mkRouteLeg {
  coordinates : list Coordinates;
  mode : TransportMode;
  distance : Q;
  duration : Q
}.

Record RouteData : Type := mkRouteData {
  legs : list RouteLeg;
  totalDistance : Q;
  totalDuration : Q;
  boundingBox : Coordinates * Coordinates
}.

(** ** Configuration *)

Definition COLORS (m : TransportMode) : string :=
  match m with
  | CAR => "#0099ff"
  | TRAIN => "#22c55e"
  | BUS => "#ec4899"
  end.

Definition ANIMATION_DURATION_SECONDS : Q := 90.
Definition FOLLOW_ZOOM_LEVEL : Q := 10.

(** ** Processed path data *)

Record PathPoint : Type := mkPathPoint {
  pp_lat : Q;
  pp_lng : Q;
  pp_mode : TransportMode;
  cumulativeDistance : Q
}.

(** [L.LatLng] *)
Definition LatLng : Type := Coordinates.
Definition latLng (la lo : Q) : LatLng := mkCoordinates la lo.

(** Two coordinates name different places. *)
Definition distinct_place (a b : LatLng) : Prop :=
  ~ (lat a == lat b /\ lng a == lng b).

(** ** Pre-processing of the route (the path builder) *)

Section PathBuilder.

(** [from.distanceTo(to)] of Leaflet. *)
Variable distanceTo : LatLng -> LatLng -> Q.

(** The body of the inner [forEach]: one coordinate [c] of a leg of mode
    [m], with the accumulator [(points, currentDist)]. *)
Definition pushCoordinate (m : TransportMode)
    (acc : list PathPoint * Q) (c : Coordinates) : list PathPoint * Q :=
  let '(points, currentDist) := acc in
  let dist :=
    match JsArray.lastOpt points with
    | Some prev =>
        let from := latLng (pp_lat prev) (pp_lng prev) in
        let to := latLng (lat c) (lng c) in
        distanceTo from to
    | None => 0
    end in
  let currentDist := currentDist + dist in
  (points ++ [mkPathPoint (lat c) (lng c) m currentDist], currentDist).

(** The body of the outer [forEach]. *)
Definition pushLeg (acc : list PathPoint * Q) (leg : RouteLeg)
    : list PathPoint * Q :=
  fold_left (pushCoordinate (mode leg)) (coordinates leg) acc.

(** [points] and [currentDist] after both loops. *)
Definition buildPath (ls : list RouteLeg) : list PathPoint * Q :=
  fold_left pushLeg ls ([], 0).

End PathBuilder.

(** ** Interpolation (the segment search and blend inside [animate]) *)

Record Interpolated : Type := mkInterpolated {
  nextIdx : Z;
  p1 : PathPoint;
  p2 : PathPoint;
  ratio : Q;
  i_lat : Q;
  i_lng : Q;
  isFlipped : bool;
  i_mode : TransportMode
}.

(** "Find current segment": the index of the segment's end point. *)
Definition findSegment (pathData : list PathPoint) (targetDist : Q) : Z :=
  let nextIdx :=
    JsArray.findIndex
      (fun p => Qle_bool targetDist (cumulativeDistance p)) pathData in
  let nextIdx :=
    if (nextIdx =? -1)%Z then (Z.of_nat (length pathData) - 1)%Z
    else nextIdx in
  if (nextIdx =? 0)%Z then 1%Z else nextIdx.

Definition interpolate (pathData : list PathPoint) (targetDist : Q)
    : result Interpolated :=
  let nextIdx := findSegment pathData targetDist in
  p1 <- JsArray.at_ pathData (nextIdx - 1)%Z ;;
  p2 <- JsArray.at_ pathData nextIdx ;;
  let segmentDist := cumulativeDistance p2 - cumulativeDistance p1 in
  let distInSegment := targetDist - cumulativeDistance p1 in
  ratio <- (if Qltb 0 segmentDist
            then checked_div distInSegment segmentDist
            else ret 0) ;;
  let lat := pp_lat p1 + (pp_lat p2 - pp_lat p1) * ratio in
  let lng := pp_lng p1 + (pp_lng p2 - pp_lng p1) * ratio in
  let isFlipped := Qltb (pp_lng p2) (pp_lng p1) in
  let mode := pp_mode p1 in
  ret (mkInterpolated nextIdx p1 p2 ratio lat lng isFlipped mode).

(** ** Leaflet objects, as far as the component touches them *)

(** The [divIcon] built by [createLeafletIcon]: its HTML is determined by
    the mode (shape and colour) and by the mirror flag. *)
Record Icon : Type := mkIcon {
  icon_mode : TransportMode;
  icon_flipped : bool
}.

Definition createLeafletIcon (m : TransportMode) (flipped : bool) : Icon :=
  mkIcon m flipped.

Record Marker : Type := mkMarker {
  marker_latLng : LatLng;
  marker_icon : Icon
}.

Record Polyline : Type := mkPolyline {
  poly_latLngs : list LatLng;
  poly_color : string
}.

(** The camera of the map, as last requested: Leaflet's snapping of the
    zoom and rounding of the centre are not applied. *)
Record View : Type := mkView {
  center : LatLng;
  zoom : Q
}.

(** ** The refs of [MapContent] and the host state they act on *)

Record MapState : Type := mkMapState {
  vehicleMarkerRef : option Marker;
  finishedSegmentsLayerRef : option (list Polyline);
  currentSegmentPolylineRef : option Polyline;
  currentSegmentPointsRef : list LatLng;
  pathDataRef : list PathPoint;
  totalDistanceRef : Q;
  animationFrameRef : Z;
  startTimeRef : Q;
  isAnimatingRef : bool;
  startZoomRef : Q;
  prevModeRef : TransportMode;
  prevFlippedRef : bool;
  (* the map, the frame queue of the browser, the parent's callback *)
  mapView : View;
  pendingFrames : list Z;
  nextFrameId : Z;
  completions : nat
}.

Definition set_vehicleMarker v (s : MapState) : MapState :=
  mkMapState v (finishedSegmentsLayerRef s) (currentSegmentPolylineRef s)
    (currentSegmentPointsRef s) (pathDataRef s) (totalDistanceRef s)
    (animationFrameRef s) (startTimeRef s) (isAnimatingRef s) (startZoomRef s)
    (prevModeRef s) (prevFlippedRef s) (mapView s) (pendingFrames s)
    (nextFrameId s) (completions s).

Definition set_finishedSegmentsLayer v (s : MapState) : MapState :=
  mkMapState (vehicleMarkerRef s) v (currentSegmentPolylineRef s)
    (currentSegmentPointsRef s) (pathDataRef s) (totalDistanceRef s)
    (animationFrameRef s) (startTimeRef s) (isAnimatingRef s) (startZoomRef s)
    (prevModeRef s) (prevFlippedRef s) (mapView s) (pendingFrames s)
    (nextFrameId s) (completions s).

Definition set_currentSegmentPolyline v (s : MapState) : MapState :=
  mkMapState (vehicleMarkerRef s) (finishedSegmentsLayerRef s) v
    (currentSegmentPointsRef s) (pathDataRef s) (totalDistanceRef s)
    (animationFrameRef s) (startTimeRef s) (isAnimatingRef s) (startZoomRef s)
    (prevModeRef s) (prevFlippedRef s) (mapView s) (pendingFrames s)
    (nextFrameId s) (completions s).

Definition set_currentSegmentPoints v (s : MapState) : MapState :=
  mkMapState (vehicleMarkerRef s) (finishedSegmentsLayerRef s)
    (currentSegmentPolylineRef s) v (pathDataRef s) (totalDistanceRef s)
    (animationFrameRef s) (startTimeRef s) (isAnimatingRef s) (startZoomRef s)
    (prevModeRef s) (prevFlippedRef s) (mapView s) (pendingFrames s)
    (nextFrameId s) (completions s).

Definition set_pathData v (s : MapState) : MapState :=
  mkMapState (vehicleMarkerRef s) (finishedSegmentsLayerRef s)
    (currentSegmentPolylineRef s) (currentSegmentPointsRef s) v
    (totalDistanceRef s) (animationFrameRef s) (startTimeRef s)
    (isAnimatingRef s) (startZoomRef s) (prevModeRef s) (prevFlippedRef s)
    (mapView s) (pendingFrames s) (nextFrameId s) (completions s).

Definition set_totalDistance v (s : MapState) : MapState :=
  mkMapState (vehicleMarkerRef s) (finishedSegmentsLayerRef s)
    (currentSegmentPolylineRef s) (currentSegmentPointsRef s) (pathDataRef s)
    v (animationFrameRef s) (startTimeRef s) (isAnimatingRef s)
    (startZoomRef s) (prevModeRef s) (prevFlippedRef s) (mapView s)
    (pendingFrames s) (nextFrameId s) (completions s).

Definition set_animationFrame v (s : MapState) : MapState :=
  mkMapState (vehicleMarkerRef s) (finishedSegmentsLayerRef s)
    (currentSegmentPolylineRef s) (currentSegmentPointsRef s) (pathDataRef s)
    (totalDistanceRef s) v (startTimeRef s) (isAnimatingRef s)
    (startZoomRef s) (prevModeRef s) (prevFlippedRef s) (mapView s)
    (pendingFrames s) (nextFrameId s) (completions s).

Definition set_startTime v (s : MapState) : MapState :=
  mkMapState (vehicleMarkerRef s) (finishedSegmentsLayerRef s)
    (currentSegmentPolylineRef s) (currentSegmentPointsRef s) (pathDataRef s)
    (totalDistanceRef s) (animationFrameRef s) v (isAnimatingRef s)
    (startZoomRef s) (prevModeRef s) (prevFlippedRef s) (mapView s)
    (pendingFrames s) (nextFrameId s) (completions s).

Definition set_isAnimating v (s : MapState) : MapState :=
  mkMapState (vehicleMarkerRef s) (finishedSegmentsLayerRef s)
    (currentSegmentPolylineRef s) (currentSegmentPointsRef s) (pathDataRef s)
    (totalDistanceRef s) (animationFrameRef s) (startTimeRef s) v
    (startZoomRef s) (prevModeRef s) (prevFlippedRef s) (mapView s)
    (pendingFrames s) (nextFrameId s) (completions s).

Definition set_startZoom v (s : MapState) : MapState :=
  mkMapState (vehicleMarkerRef s) (finishedSegmentsLayerRef s)
    (currentSegmentPolylineRef s) (currentSegmentPointsRef s) (pathDataRef s)
    (totalDistanceRef s) (animationFrameRef s) (startTimeRef s)
    (isAnimatingRef s) v (prevModeRef s) (prevFlippedRef s) (mapView s)
    (pendingFrames s) (nextFrameId s) (completions s).

Definition set_prevMode v (s : MapState) : MapState :=
  mkMapState (vehicleMarkerRef s) (finishedSegmentsLayerRef s)
    (currentSegmentPolylineRef s) (currentSegmentPointsRef s) (pathDataRef s)
    (totalDistanceRef s) (animationFrameRef s) (startTimeRef s)
    (isAnimatingRef s) (startZoomRef s) v (prevFlippedRef s) (mapView s)
    (pendingFrames s) (nextFrameId s) (completions s).

Definition set_prevFlipped v (s : MapState) : MapState :=
  mkMapState (vehicleMarkerRef s) (finishedSegmentsLayerRef s)
    (currentSegmentPolylineRef s) (currentSegmentPointsRef s) (pathDataRef s)
    (totalDistanceRef s) (animationFrameRef s) (startTimeRef s)
    (isAnimatingRef s) (startZoomRef s) (prevModeRef s) v (mapView s)
    (pendingFrames s) (nextFrameId s) (completions s).

Definition set_mapView v (s : MapState) : MapState :=
  mkMapState (vehicleMarkerRef s) (finishedSegmentsLayerRef s)
    (currentSegmentPolylineRef s) (currentSegmentPointsRef s) (pathDataRef s)
    (totalDistanceRef s) (animationFrameRef s) (startTimeRef s)
    (isAnimatingRef s) (startZoomRef s) (prevModeRef s) (prevFlippedRef s) v
    (pendingFrames s) (nextFrameId s) (completions s).

Definition set_pendingFrames v (s : MapState) : MapState :=
  mkMapState (vehicleMarkerRef s) (finishedSegmentsLayerRef s)
    (currentSegmentPolylineRef s) (currentSegmentPointsRef s) (pathDataRef s)
    (totalDistanceRef s) (animationFrameRef s) (startTimeRef s)
    (isAnimatingRef s) (startZoomRef s) (prevModeRef s) (prevFlippedRef s)
    (mapView s) v (nextFrameId s) (completions s).

Definition set_nextFrameId v (s : MapState) : MapState :=
  mkMapState (vehicleMarkerRef s) (finishedSegmentsLayerRef s)
    (currentSegmentPolylineRef s) (currentSegmentPointsRef s) (pathDataRef s)
    (totalDistanceRef s) (animationFrameRef s) (startTimeRef s)
    (isAnimatingRef s) (startZoomRef s) (prevModeRef s) (prevFlippedRef s)
    (mapView s) (pendingFrames s) v (completions s).

Definition set_completions v (s : MapState) : MapState :=
  mkMapState (vehicleMarkerRef s) (finishedSegmentsLayerRef s)
    (currentSegmentPolylineRef s) (currentSegmentPointsRef s) (pathDataRef s)
    (totalDistanceRef s) (animationFrameRef s) (startTimeRef s)
    (isAnimatingRef s) (startZoomRef s) (prevModeRef s) (prevFlippedRef s)
    (mapView s) (pendingFrames s) (nextFrameId s) v.

(** The refs as [useRef] initialises them, on a map showing [view]. *)
Definition initialState (view : View) : MapState :=
  mkMapState None None None [] [] 0 0%Z 0 false 0 CAR false view [] 1%Z 0%nat.

(** *** Host primitives *)

(** [requestAnimationFrame(animate)]: queues the callback for the next
    frame and returns its handle (handles are positive and never reused). *)
Definition requestAnimationFrame (s : MapState) : Z * MapState :=
  let id := nextFrameId s in
  (id, set_nextFrameId (id + 1)%Z
         (set_pendingFrames (pendingFrames s ++ [id]) s)).

(** [cancelAnimationFrame(id)]: unknown handles are ignored. *)
Definition cancelAnimationFrame (id : Z) (s : MapState) : MapState :=
  set_pendingFrames
    (filter (fun j => negb (j =? id)%Z) (pendingFrames s)) s.

(** [if (animationFrameRef.current) cancelAnimationFrame(...)] *)
Definition cancelPendingFrame (s : MapState) : MapState :=
  if (animationFrameRef s =? 0)%Z then s
  else cancelAnimationFrame (animationFrameRef s) s.

(** [onAnimationComplete()]: the parent is notified; calls are counted. *)
Definition onAnimationComplete (s : MapState) : MapState :=
  set_completions (S (completions s)) s.

(** *** Methods of the Leaflet objects held in the refs *)

Definition marker_setLatLng (pos : LatLng) (s : MapState) : MapState :=
  match vehicleMarkerRef s with
  | Some m => set_vehicleMarker (Some (mkMarker pos (marker_icon m))) s
  | None => s
  end.

Definition marker_setIcon (icon : Icon) (s : MapState) : MapState :=
  match vehicleMarkerRef s with
  | Some m => set_vehicleMarker (Some (mkMarker (marker_latLng m) icon)) s
  | None => s
  end.

Definition polyline_setLatLngs (pts : list LatLng) (s : MapState) : MapState :=
  match currentSegmentPolylineRef s with
  | Some p =>
      set_currentSegmentPolyline (Some (mkPolyline pts (poly_color p))) s
  | None => s
  end.

Definition polyline_setStyle (c : string) (s : MapState) : MapState :=
  match currentSegmentPolylineRef s with
  | Some p =>
      set_currentSegmentPolyline (Some (mkPolyline (poly_latLngs p) c)) s
  | None => s
  end.

(** [L.polyline(pts, {color}).addTo(finishedSegmentsLayerRef.current)] *)
Definition layer_addPolyline (pts : list LatLng) (c : string) (s : MapState)
    : MapState :=
  match finishedSegmentsLayerRef s with
  | Some layer =>
      set_finishedSegmentsLayer (Some (layer ++ [mkPolyline pts c])) s
  | None => s
  end.

Definition layer_clearLayers (s : MapState) : MapState :=
  match finishedSegmentsLayerRef s with
  | Some _ => set_finishedSegmentsLayer (Some []) s
  | None => s
  end.

(** [map.setView(pos, zoom, { animate: false })]: records the requested
    centre and zoom as they are passed. *)
Definition map_setView (pos : LatLng) (z : Q) (s : MapState) : MapState :=
  set_mapView (mkView pos z) s.

(** ** [updateMapState]: marker, trail and camera for one frame *)

Definition updateMapState (point : PathPoint) (isFinal isFlipped : bool)
    (interpolatedPos : LatLng) (currentZoom : Q) (s : MapState) : MapState :=
  match vehicleMarkerRef s, currentSegmentPolylineRef s,
        finishedSegmentsLayerRef s with
  | Some _, Some _, Some _ =>
      (* 1. Move Vehicle *)
      let s := marker_setLatLng interpolatedPos s in
      (* 2. Update Mode / Trail Color logic *)
      let s :=
        if negb (TransportMode_eqb (pp_mode point) (prevModeRef s)) then
          (* MODE CHANGED: Freeze current segment *)
          let s :=
            if (0 <? length (currentSegmentPointsRef s))%nat
            then layer_addPolyline (currentSegmentPointsRef s)
                   (COLORS (prevModeRef s)) s
            else s in
          (* Reset current segment *)
          let s := set_currentSegmentPoints [interpolatedPos] s in
          let s := polyline_setLatLngs (currentSegmentPointsRef s) s in
          let s := polyline_setStyle (COLORS (pp_mode point)) s in
          (* Update Icon *)
          let s :=
            marker_setIcon (createLeafletIcon (pp_mode point) isFlipped) s in
          set_prevMode (pp_mode point) s
        else s in
      (* Update Flipped state *)
      let s :=
        if negb (Bool.eqb isFlipped (prevFlippedRef s)) then
          let s :=
            marker_setIcon (createLeafletIcon (pp_mode point) isFlipped) s in
          set_prevFlipped isFlipped s
        else s in
      (* 3. Grow Current Trail *)
      let s :=
        set_currentSegmentPoints
          (currentSegmentPointsRef s ++ [interpolatedPos]) s in
      let s := polyline_setLatLngs (currentSegmentPointsRef s) s in
      (* 4. Follow Camera with Zoom *)
      if negb isFinal then map_setView interpolatedPos currentZoom s else s
  | _, _, _ => s
  end.

(** ** The clock and the camera zoom of one frame *)

Definition durationMs : Q := ANIMATION_DURATION_SECONDS * 1000.

(** [Math.min(elapsed / durationMs, 1)] *)
Definition rawProgress (elapsed : Q) : Q := Qmin (elapsed / durationMs) 1.

Definition zoomDuration : Q := 3000.

(** [currentZoom] of a frame, from the captured start zoom. *)
Definition currentZoom (startZoom elapsed : Q) : Q :=
  if Qltb elapsed zoomDuration then
    let zoomProgress := elapsed / zoomDuration in
    let ease := 1 - (1 - zoomProgress) ^ 3 in
    startZoom + (FOLLOW_ZOOM_LEVEL - startZoom) * ease
  else FOLLOW_ZOOM_LEVEL.

(** ** The frame callback [animate] *)

Definition animate (time : Q) (s : MapState) : result MapState :=
  let elapsed := time - startTimeRef s in
  let rawProgress := rawProgress elapsed in
  (* LINEAR MOVEMENT (Constant Speed) *)
  let easedProgress := rawProgress in
  let targetDist := totalDistanceRef s * easedProgress in
  let currentZoom := currentZoom (startZoomRef s) elapsed in
  if Qle_bool 1 rawProgress then
    last <- JsArray.at_ (pathDataRef s)
              (Z.of_nat (length (pathDataRef s)) - 1)%Z ;;
    let s :=
      updateMapState last true false (latLng (pp_lat last) (pp_lng last))
        FOLLOW_ZOOM_LEVEL s in
    let s := onAnimationComplete s in
    ret (set_isAnimating false s)
  else
    r <- interpolate (pathDataRef s) targetDist ;;
    let s :=
      updateMapState
        (mkPathPoint (i_lat r) (i_lng r) (i_mode r) targetDist)
        false (isFlipped r) (latLng (i_lat r) (i_lng r)) currentZoom s in
    let '(id, s) := requestAnimationFrame s in
    ret (set_animationFrame id s).

(** One display frame at timestamp [time]: the browser runs the callbacks
    that were pending when the frame began; [animate] is the only callback
    the component ever registers. *)
Definition runFrame (time : Q) (s : MapState) : result MapState :=
  fold_left (fun acc _ => s' <- acc ;; animate time s')
    (pendingFrames s) (ret (set_pendingFrames [] s)).

Fixpoint runFrames (times : list Q) (s : MapState) : result MapState :=
  match times with
  | [] => ret s
  | t :: rest => s' <- runFrame t s ;; runFrames rest s'
  end.

(** ** The effects of [MapContent] *)

Section Effects.

(** [from.distanceTo(to)] of Leaflet. *)
Variable distanceTo : LatLng -> LatLng -> Q.

(** The view [map.fitBounds] moves the camera to, for bounds [sw], [ne]. *)
Variable fitBoundsView : Coordinates -> Coordinates -> View -> View.

(** Effect 1: set up map and data when [routeData] changes. *)
Definition setupRoute (routeData : option RouteData) (s : MapState)
    : MapState :=
  let s := cancelPendingFrame s in
  let s := set_isAnimating false s in
  let s := set_vehicleMarker None s in
  let s := set_finishedSegmentsLayer None s in
  let s := set_currentSegmentPolyline None s in
  let s := set_pathData [] s in
  let s := set_currentSegmentPoints [] s in
  match routeData with
  | None => s
  | Some routeData =>
      (* Pre-process Data *)
      let '(points, currentDist) := buildPath distanceTo (legs routeData) in
      let s := set_pathData points s in
      let s := set_totalDistance currentDist s in
      match points with
      | [] => s
      | startPoint :: _ =>
          (* Initialize Layers *)
          let s := set_finishedSegmentsLayer (Some []) s in
          let s :=
            set_currentSegmentPolyline
              (Some (mkPolyline [] (COLORS (pp_mode startPoint)))) s in
          let s :=
            set_vehicleMarker
              (Some (mkMarker
                       (latLng (pp_lat startPoint) (pp_lng startPoint))
                       (createLeafletIcon (pp_mode startPoint) false))) s in
          let s := set_prevMode (pp_mode startPoint) s in
          let s := set_prevFlipped false s in
          (* FIT BOUNDS (Overview) *)
          let '(sw, ne) := boundingBox routeData in
          if negb (Qeq_bool (lat sw) 0) && negb (Qeq_bool (lat ne) 0)
          then set_mapView (fitBoundsView sw ne (mapView s)) s
          else s
      end
  end.

End Effects.

(** Effect 2: the animation loop, run when [isPlaying] changes; [now] is
    [performance.now()]. *)
Definition animationEffect (isPlaying : bool) (now : Q) (s : MapState)
    : MapState :=
  if negb isPlaying || (length (pathDataRef s) <? 2)%nat then
    let s := cancelPendingFrame s in
    set_isAnimating false s
  else
    let s :=
      if negb (isAnimatingRef s) then
        let s := set_isAnimating true s in
        let s := set_startTime now s in
        (* Capture start zoom for the zoom-in effect *)
        let s := set_startZoom (zoom (mapView s)) s in
        (* Reset trails *)
        let s := layer_clearLayers s in
        let s := set_currentSegmentPoints [] s in
        polyline_setLatLngs [] s
      else s in
    let '(id, s) := requestAnimationFrame s in
    set_animationFrame id s.

(** The cleanup of effect 2. *)
Definition animationCleanup (s : MapState) : MapState :=
  cancelPendingFrame s.

(** ** Predicates used in the statements *)

(** The ratio [interpolate] uses on the segment from [a] to [b]. *)
Definition segmentRatio (a b : PathPoint) (targetDist : Q) : Q :=
  if Qltb 0 (cumulativeDistance b - cumulativeDistance a)
  then (targetDist - cumulativeDistance a)
       / (cumulativeDistance b - cumulativeDistance a)
  else 0.

(** Each point's cumulative distance is its predecessor's plus the
    distance between the two. *)
Definition chained (distanceTo : LatLng -> LatLng -> Q)
    (points : list PathPoint) : Prop :=
  forall i p q,
    nth_error points i = Some p -> nth_error points (S i) = Some q ->
    cumulativeDistance q ==
      cumulativeDistance p
      + distanceTo (latLng (pp_lat p) (pp_lng p))
          (latLng (pp_lat q) (pp_lng q)).

(** The loop invariant of the pre-processing. *)
Definition builder_inv (distanceTo : LatLng -> LatLng -> Q)
    (acc : list PathPoint * Q) : Prop :=
  chained distanceTo (fst acc)
  /\ (forall p, nth_error (fst acc) 0 = Some p -> cumulativeDistance p == 0)
  /\ match JsArray.lastOpt (fst acc) with
     | Some l => cumulativeDistance l == snd acc
     | None => snd acc == 0
     end.

(** Cumulative distances never decrease along the path. *)
Definition nondecreasing (path : list PathPoint) : Prop :=
  forall i j p q,
    (i <= j)%nat ->
    nth_error path i = Some p -> nth_error path j = Some q ->
    cumulativeDistance p <= cumulativeDistance q.

(** Points [k] and [k + 1] are the duplicated boundary point between two
    legs of different modes: same place, same cumulative distance, [a] the
    last point of the outgoing leg and [b] the first of the incoming one. *)
Definition mode_boundary (path : list PathPoint) (k : nat)
    (a b : PathPoint) : Prop :=
  nth_error path k = Some a /\ nth_error path (S k) = Some b
  /\ pp_mode a <> pp_mode b
  /\ pp_lat a == pp_lat b /\ pp_lng a == pp_lng b
  /\ cumulativeDistance a == cumulativeDistance b.

(** The three Leaflet objects [updateMapState] needs are in place. *)
Definition layersReady (s : MapState) : bool :=
  match vehicleMarkerRef s, currentSegmentPolylineRef s,
        finishedSegmentsLayerRef s with
  | Some _, Some _, Some _ => true
  | _, _, _ => false
  end.

(** The component keeps the handle of every frame it has pending. *)
Definition framesTracked (s : MapState) : Prop :=
  (0 < nextFrameId s)%Z
  /\ (pendingFrames s = []
      \/ (pendingFrames s = [animationFrameRef s]
          /\ animationFrameRef s <> 0%Z)).

(** A playback run is under way: layers in place, a path that can be
    animated, and exactly one frame pending. *)
Definition playing (s : MapState) : Prop :=
  layersReady s = true
  /\ (2 <= length (pathDataRef s))%nat
  /\ (0 < nextFrameId s)%Z
  /\ pendingFrames s = [animationFrameRef s]
  /\ animationFrameRef s <> 0%Z.

(** The state a frame starts its callback in. *)
Definition frameStart (s : MapState) : MapState := set_pendingFrames [] s.

(** ** A planar stand-in for [distanceTo], and a sample route

    Used to run the definitions on concrete data. *)

Definition gridDistance (a b : LatLng) : Q :=
  Qabs (lat b - lat a) + Qabs (lng b - lng a).

Definition at_grid (la lo : Z) : Coordinates :=
  mkCoordinates (inject_Z la) (inject_Z lo).

(** A car leg and a train leg that meet at (0, 1). *)
Definition sampleLegs : list RouteLeg :=
  [ mkRouteLeg [at_grid 0 0; at_grid 0 1] CAR 0 0;
    mkRouteLeg [at_grid 0 1; at_grid 0 2] TRAIN 0 0 ].

Definition sampleRoute : RouteData :=
  mkRouteData sampleLegs 0 0 (at_grid 0 0, at_grid 0 2).

Definition samplePath : list PathPoint :=
  fst (buildPath gridDistance sampleLegs).

(** [fitBounds] stand-in: the camera stays where it is. *)
Definition keepView (_ _ : Coordinates) (v : View) : View := v.

(** The sample route loaded on a fresh map at zoom 5, then played at
    [performance.now() = 1000]. *)
Definition sampleLoaded : MapState :=
  setupRoute gridDistance keepView (Some sampleRoute)
    (initialState (mkView (at_grid 5 5) 5)).

Definition samplePlaying : MapState := animationEffect true 1000 sampleLoaded.

(** The sample run after its first frame, in the car leg. *)
Definition sampleAfterFirstFrame : MapState :=
  match runFrame 23500 samplePlaying with
  | inr s => s
  | inl _ => samplePlaying
  end.

(** A route whose only leg has a single coordinate. *)
Definition singlePointRoute : RouteData :=
  mkRouteData [mkRouteLeg [at_grid 0 0] CAR 0 0] 0 0 (at_grid 0 0, at_grid 0 0).

Definition singlePointLoaded : MapState :=
  setupRoute gridDistance keepView (Some singlePointRoute)
    (initialState (mkView (at_grid 5 5) 5)).

(** ** services/routeService.ts: [getMultiStopRoute]

    The OSRM request is a parameter: [osrm i from to] is what the request
    for segment [i] gives, [Some route] when the answer has code "Ok" and a
    first route, [None] for any other answer and for a request that throws
    (both end in the same straight-line fallback leg).  The service rejects
    in two ways: with its own error on fewer than two waypoints, and with
    the [RangeError] of [Math.min(...lats)] when the legs hold more
    coordinates than one call accepts as arguments. *)

Record Waypoint : Type := mkWaypoint {
  wp_id : string;
  wp_name : string;
  coords : Coordinates;
  modeToNext : TransportMode
}.

(** [json.routes[0]]: its GeoJSON geometry, a list of [lng, lat] pairs, with
    its distance and duration. *)
Record OsrmRoute : Type := mkOsrmRoute {
  geometry : list (Q * Q);
  osrm_distance : Q;
  osrm_duration : Q
}.

(** The two ways the service rejects: its own [Error] for fewer than two
    waypoints, and the [RangeError] of a call spread over more arguments
    than the engine accepts. *)
Inductive routeError : Type :=
| TooFewWaypoints
| TooManyArguments.

(** [c => ({ lat: c[1], lng: c[0] })] *)
Definition fromGeoJson (c : Q * Q) : Coordinates :=
  mkCoordinates (snd c) (fst c).

(** The smallest and the largest of a non-empty argument list:
    [Math.min(...(x :: xs))], [Math.max(...(x :: xs))]. *)
Definition minOf (x : Q) (xs : list Q) : Q := fold_left Qmin xs x.
Definition maxOf (x : Q) (xs : list Q) : Q := fold_left Qmax xs x.

(** Approx 5km padding minimum *)
Definition minDiff : Q := 5 # 100.

(** "Add reasonable padding": a range narrower than [minDiff] is replaced
    by one of half-width [minDiff] around its centre. *)
Definition padRange (lo hi : Q) : Q * Q :=
  if Qltb (hi - lo) minDiff then
    let center := (hi + lo) / 2 in
    (center - minDiff, center + minDiff)
  else (lo, hi).

(** Default bounds (Sweden-ish) if no data *)
Definition defaultBounds : Coordinates * Coordinates :=
  (mkCoordinates (553 # 10) 11, mkCoordinates 69 24).

(** "Calculate bounding box" (every number of the model is finite). *)
Definition boundingBoxOf (allCoords : list Coordinates)
    : Coordinates * Coordinates :=
  match map lat allCoords, map lng allCoords with
  | la :: lats, lo :: lngs =>
      let '(minLat, maxLat) := padRange (minOf la lats) (maxOf la lats) in
      let '(minLng, maxLng) := padRange (minOf lo lngs) (maxOf lo lngs) in
      (mkCoordinates minLat minLng, mkCoordinates maxLat maxLng)
  | _, _ => defaultBounds
  end.

Section RouteService.

Variable osrm : nat -> Coordinates -> Coordinates -> option OsrmRoute.

(** The largest number of arguments the engine accepts in one call:
    [Math.min(...lats)] and its three siblings pass one argument per
    coordinate and throw a [RangeError] beyond it.  They stand after the
    loop, outside its [try], so the error is not caught. *)
Variable argumentLimit : nat.

(** One turn of the loop, for segment [i] from [start] to [end_], on the
    accumulators [(legs, totalDistance, totalDuration)]. *)
Definition routeSegment (i : nat) (start end_ : Waypoint)
    (acc : list RouteLeg * Q * Q) : list RouteLeg * Q * Q :=
  let '(legs, totalDistance, totalDuration) := acc in
  let mode := modeToNext start in
  match osrm i (coords start) (coords end_) with
  | Some route =>
      let coordinates := map fromGeoJson (geometry route) in
      (legs ++ [mkRouteLeg coordinates mode
                  (osrm_distance route) (osrm_duration route)],
       totalDistance + osrm_distance route,
       totalDuration + osrm_duration route)
  | None =>
      (* Fallback to straight line if OSRM fails *)
      (legs ++ [mkRouteLeg [coords start; coords end_] mode 0 0],
       totalDistance, totalDuration)
  end.

(** "Process the route segment by segment": the loop from index [i] on,
    over the waypoints from that index. *)
Fixpoint routeSegments (i : nat) (waypoints : list Waypoint)
    (acc : list RouteLeg * Q * Q) : list RouteLeg * Q * Q :=
  match waypoints with
  | start :: ((end_ :: _) as rest) =>
      routeSegments (S i) rest (routeSegment i start end_ acc)
  | _ => acc
  end.

Definition getMultiStopRoute (waypoints : list Waypoint)
    : routeError + RouteData :=
  if (length waypoints <? 2)%nat then inl TooFewWaypoints
  else
    let '(legs, totalDistance, totalDuration) :=
      routeSegments 0 waypoints ([], 0, 0) in
    let allCoords := flat_map coordinates legs in
    if (0 <? length allCoords)%nat && (argumentLimit <? length allCoords)%nat
    then inl TooManyArguments
    else
      inr (mkRouteData legs totalDistance totalDuration
             (boundingBoxOf allCoords)).

(** The leg [getMultiStopRoute] emits for segment [i] from [start] to
    [end_]: the OSRM geometry, or the straight line between the two. *)
Definition legFor (i : nat) (start end_ : Waypoint) : RouteLeg :=
  match osrm i (coords start) (coords end_) with
  | Some route =>
      mkRouteLeg (map fromGeoJson (geometry route)) (modeToNext start)
        (osrm_distance route) (osrm_duration route)
  | None => mkRouteLeg [coords start; coords end_] (modeToNext start) 0 0
  end.

(** The legs for the consecutive pairs of [waypoints], the first pair being
    segment [i]. *)
Fixpoint legsFor (i : nat) (waypoints : list Waypoint) : list RouteLeg :=
  match waypoints with
  | start :: ((end_ :: _) as rest) =>
      legFor i start end_ :: legsFor (S i) rest
  | _ => []
  end.

End RouteService.

(** ** components/ControlPanel.tsx: the waypoint list

    Indices come from [waypoints.map((point, index) => ...)], so they are
    natural numbers. *)

(** [arr.splice(start, deleteCount, ...items)] for a start that is not
    negative: the array after the call. *)
Definition splice {A} (l : list A) (start deleteCount : nat)
    (items : list A) : list A :=
  let actualStart := Nat.min start (length l) in
  let actualDeleteCount := Nat.min deleteCount (length l - actualStart) in
  firstn actualStart l ++ items
  ++ skipn (actualStart + actualDeleteCount) l.

(** The waypoint [addWaypoint] creates; [newId] is the random id. *)
Definition newPoint (newId : string) : Waypoint :=
  mkWaypoint newId "" (mkCoordinates 0 0) CAR.

(** "Insert before the last point".  On an empty list JavaScript's start
    [-1] is clamped to 0, as is the truncated [length - 1] here. *)
Definition addWaypoint (newId : string) (waypoints : list Waypoint)
    : list Waypoint :=
  splice waypoints (length waypoints - 1) 0 [newPoint newId].

Definition removeWaypoint (index : nat) (waypoints : list Waypoint)
    : list Waypoint :=
  if (length waypoints <=? 2)%nat then waypoints
  else splice waypoints index 1 [].

(** [handleDragEnd], on the two refs [dragItem] and [dragOverItem]: the new
    waypoint list.  [None] when [newList[start]] is [undefined], which would
    put an entry that is no waypoint into the list. *)
Definition handleDragEnd (dragItem dragOverItem : option nat)
    (waypoints : list Waypoint) : option (list Waypoint) :=
  match dragItem, dragOverItem with
  | Some start, Some end_ =>
      if negb (start =? end_)%nat then
        match nth_error waypoints start with
        | Some item =>
            let newList := splice waypoints start 1 [] in
            Some (splice newList end_ 0 [item])
        | None => None
        end
      else Some waypoints
  | _, _ => Some waypoints
  end.

(** The guard of the live route generation: every waypoint has a latitude
    other than 0, and nothing is playing. *)
Definition routeGenerationDue (waypoints : list Waypoint) (isPlaying : bool)
    : bool :=
  let valid :=
    forallb (fun w => negb (Qeq_bool (lat (coords w)) 0)) waypoints in
  negb (negb valid || isPlaying).

(** One edit of the waypoint list through the panel. *)
Inductive waypointEdit : list Waypoint -> list Waypoint -> Prop :=
| edit_add (newId : string) (wps : list Waypoint) :
    waypointEdit wps (addWaypoint newId wps)
| edit_remove (index : nat) (wps : list Waypoint) :
    waypointEdit wps (removeWaypoint index wps)
| edit_drag (dragItem dragOverItem : option nat) (wps wps' : list Waypoint) :
    handleDragEnd dragItem dragOverItem wps = Some wps' ->
    waypointEdit wps wps'.

(** Any number of edits. *)
Inductive waypointEdits : list Waypoint -> list Waypoint -> Prop :=
| edits_none (wps : list Waypoint) : waypointEdits wps wps
| edits_step (wps wps' wps'' : list Waypoint) :
    waypointEdits wps wps' -> waypointEdit wps' wps'' ->
    waypointEdits wps wps''.

(** ** More predicates used in the statements *)

(** What is on screen agrees with what the refs record: the vehicle icon is
    the one for the recorded mode and direction, the live polyline has the
    recorded mode's colour and shows exactly the live points. *)
Definition displayConsistent (s : MapState) : Prop :=
  exists m poly,
    vehicleMarkerRef s = Some m
    /\ currentSegmentPolylineRef s = Some poly
    /\ marker_icon m = createLeafletIcon (prevModeRef s) (prevFlippedRef s)
    /\ poly_color poly = COLORS (prevModeRef s)
    /\ poly_latLngs poly = currentSegmentPointsRef s.

(** No finished trail segment is empty. *)
Definition finishedNonEmpty (s : MapState) : Prop :=
  exists layer,
    finishedSegmentsLayerRef s = Some layer
    /\ Forall (fun pl => poly_latLngs pl <> []) layer.

(** A route that can be animated is loaded; a run is under way (one tracked
    frame pending) or not (none pending). *)
Definition loadedState (s : MapState) : Prop :=
  layersReady s = true
  /\ (2 <= length (pathDataRef s))%nat
  /\ (0 < nextFrameId s)%Z
  /\ (pendingFrames s = []
      \/ (pendingFrames s = [animationFrameRef s]
          /\ animationFrameRef s <> 0%Z)).

(** What a path point carries over from the route: place and mode. *)
Definition placeAndMode (p : PathPoint) : Q * Q * TransportMode :=
  (pp_lat p, pp_lng p, pp_mode p).

Definition legPlacesAndModes (leg : RouteLeg) : list (Q * Q * TransportMode) :=
  map (fun c => (lat c, lng c, mode leg)) (coordinates leg).

(** The sum of a list of numbers. *)
Definition Qsum (l : list Q) : Q := fold_right Qplus 0 l.

(** Every OSRM request fails. *)
Definition offline (_ : nat) (_ _ : Coordinates) : option OsrmRoute := None.

(** The first request succeeds with a three-point geometry, every other
    request fails. *)
Definition sampleOsrm (i : nat) (_ _ : Coordinates) : option OsrmRoute :=
  match i with
  | O => Some (mkOsrmRoute [(14, 63); (16, 61); (18, 59)] 500 300)
  | S _ => None
  end.

(** The default waypoints of the control panel, on a whole-number grid. *)
Definition sampleWaypoints : list Waypoint :=
  [ mkWaypoint "start" "A" (at_grid 63 14) CAR;
    mkWaypoint "stop1" "B" (at_grid 59 18) TRAIN;
    mkWaypoint "end" "C" (at_grid 55 13) CAR ].

(** * Properties *)

(** ** Numbers *)

Lemma Qltb_true_iff (a b : Q) : Qltb a b = true <-> a < b.
Proof.
  unfold Qltb. rewrite negb_true_iff.
  split; intro H.
  - apply Qnot_le_lt. intro Hle. apply Qle_bool_iff in Hle. congruence.
  - destruct (Qle_bool b a) eqn:E; [|reflexivity].
    apply Qle_bool_iff in E. exfalso. apply (Qlt_not_le _ _ H E).
Qed.

Lemma Qltb_false_iff (a b : Q) : Qltb a b = false <-> b <= a.
Proof.
  unfold Qltb. rewrite negb_false_iff. apply Qle_bool_iff.
Qed.

Lemma Qle_bool_false_iff (a b : Q) : Qle_bool a b = false <-> b < a.
Proof.
  rewrite <- Qltb_true_iff. unfold Qltb. now rewrite negb_true_iff.
Qed.

Lemma checked_div_pos (a b : Q) : 0 < b -> checked_div a b = inr (a / b).
Proof.
  intro Hb. unfold checked_div.
  destruct (Qeq_bool b 0) eqn:E; [|reflexivity].
  apply Qeq_bool_iff in E. rewrite E in Hb. exfalso. apply (Qlt_irrefl 0 Hb).
Qed.

(** ** Arrays *)

Lemma findIndexFrom_cases {A} (f : A -> bool) (l : list A) (i : Z) :
  (JsArray.findIndexFrom f l i = (-1)%Z /\ Forall (fun x => f x = false) l)
  \/ (exists n x,
        JsArray.findIndexFrom f l i = (i + Z.of_nat n)%Z
        /\ nth_error l n = Some x /\ f x = true
        /\ forall m y, (m < n)%nat -> nth_error l m = Some y -> f y = false).
Proof.
  revert i. induction l as [|a l IH]; intro i; simpl.
  - left. split; [reflexivity | constructor].
  - destruct (f a) eqn:Fa.
    + right. exists 0%nat, a. repeat split; auto.
      * lia.
      * intros m y Hm. lia.
    + destruct (IH (i + 1)%Z) as [[E Hall] | (n & x & E & Hn & Fx & Hbefore)].
      * left. split; [exact E | constructor; assumption].
      * right. exists (S n), x. repeat split; auto.
        -- rewrite E. lia.
        -- intros [|m] y Hm Hy; simpl in Hy.
           ++ congruence.
           ++ apply (Hbefore m); [lia | exact Hy].
Qed.

Lemma findIndex_cases {A} (f : A -> bool) (l : list A) :
  (JsArray.findIndex f l = (-1)%Z /\ Forall (fun x => f x = false) l)
  \/ (exists n x,
        JsArray.findIndex f l = Z.of_nat n
        /\ nth_error l n = Some x /\ f x = true
        /\ forall m y, (m < n)%nat -> nth_error l m = Some y -> f y = false).
Proof.
  unfold JsArray.findIndex.
  destruct (findIndexFrom_cases f l 0) as [H | (n & x & E & H)].
  - now left.
  - right. exists n, x. split; [rewrite E; lia | exact H].
Qed.

Lemma at_in_range {A} (l : list A) (n : nat) (x : A) :
  nth_error l n = Some x -> JsArray.at_ l (Z.of_nat n) = inr x.
Proof.
  intro H. unfold JsArray.at_.
  destruct (Z.of_nat n <? 0)%Z eqn:E; [apply Z.ltb_lt in E; lia|].
  rewrite Nat2Z.id, H. reflexivity.
Qed.

Lemma nth_error_in_range {A} (l : list A) (n : nat) :
  (n < length l)%nat -> exists x, nth_error l n = Some x.
Proof.
  intro H. destruct (nth_error l n) eqn:E; [eauto|].
  apply nth_error_None in E. lia.
Qed.

(** ** The interpolator *)

(** Which segment the search settles on, for a path of two or more points:
    the segment ends at index [S n]; either no point reaches the target (and
    the last segment is taken), or the very first point already does (and
    the first segment is taken), or [S n] is the first index that does. *)
Lemma findSegment_cases (path : list PathPoint) (d : Q) :
  (2 <= length path)%nat ->
  exists n a b,
    findSegment path d = Z.of_nat (S n)
    /\ nth_error path n = Some a /\ nth_error path (S n) = Some b
    /\ ((S (S n) = length path
         /\ Forall (fun p => cumulativeDistance p < d) path)
        \/ (n = 0%nat /\ d <= cumulativeDistance a)
        \/ (cumulativeDistance a < d /\ d <= cumulativeDistance b
            /\ forall m y, (m <= n)%nat -> nth_error path m = Some y ->
                           cumulativeDistance y < d)).
Proof.
  intro Hlen. unfold findSegment.
  destruct (findIndex_cases
              (fun p => Qle_bool d (cumulativeDistance p)) path)
    as [[E Hall] | (k & x & E & Hk & Fx & Hbefore)]; rewrite E.
  - (* no point reaches the target *)
    simpl (_ =? _)%Z.
    destruct (nth_error_in_range path (length path - 2)) as [a Ha]; [lia|].
    destruct (nth_error_in_range path (S (length path - 2))) as [b Hb]; [lia|].
    exists (length path - 2)%nat, a, b.
    replace (Z.of_nat (length path) - 1 =? 0)%Z with false
      by (symmetry; apply Z.eqb_neq; lia).
    repeat split; auto.
    + lia.
    + left. split; [lia|].
      eapply Forall_impl; [|exact Hall].
      intros p Hp. now apply Qle_bool_false_iff.
  - replace (Z.of_nat k =? -1)%Z with false
      by (symmetry; apply Z.eqb_neq; lia).
    apply Qle_bool_iff in Fx.
    destruct k as [|k].
    + (* the first point already reaches the target *)
      simpl (_ =? _)%Z.
      destruct (nth_error_in_range path 1) as [b Hb]; [lia|].
      exists 0%nat, x, b. repeat split; auto.
    + replace (Z.of_nat (S k) =? 0)%Z with false
        by (symmetry; apply Z.eqb_neq; lia).
      destruct (nth_error_in_range path k) as [a Ha].
      { assert (S k < length path)%nat
          by (apply nth_error_Some; congruence). lia. }
      exists k, a, x. repeat split; auto.
      right; right.
      assert (Hlt : forall m y, (m <= k)%nat -> nth_error path m = Some y ->
                                cumulativeDistance y < d).
      { intros m y Hm Hy. apply Qle_bool_false_iff.
        apply (Hbefore m y); [lia | exact Hy]. }
      repeat split; eauto.
Qed.

(** Once the segment is known, the result of [interpolate] is determined,
    and it is never a fault: the division is guarded by [segmentDist > 0]. *)
Lemma interpolate_on_segment (path : list PathPoint) (d : Q)
    (n : nat) (a b : PathPoint) :
  findSegment path d = Z.of_nat (S n) ->
  nth_error path n = Some a -> nth_error path (S n) = Some b ->
  interpolate path d =
    inr (mkInterpolated (Z.of_nat (S n)) a b (segmentRatio a b d)
           (pp_lat a + (pp_lat b - pp_lat a) * segmentRatio a b d)
           (pp_lng a + (pp_lng b - pp_lng a) * segmentRatio a b d)
           (Qltb (pp_lng b) (pp_lng a)) (pp_mode a)).
Proof.
  intros E Ha Hb. unfold interpolate. rewrite E.
  replace (Z.of_nat (S n) - 1)%Z with (Z.of_nat n) by lia.
  rewrite (at_in_range _ _ _ Ha), (at_in_range _ _ _ Hb).
  unfold bind, segmentRatio.
  destruct (Qltb 0 (cumulativeDistance b - cumulativeDistance a)) eqn:G.
  - apply Qltb_true_iff in G. rewrite (checked_div_pos _ _ G). reflexivity.
  - reflexivity.
Qed.

Lemma interpolate_total (path : list PathPoint) (d : Q) :
  (2 <= length path)%nat -> exists r, interpolate path d = inr r.
Proof.
  intro Hlen.
  destruct (findSegment_cases path d Hlen) as (n & a & b & E & Ha & Hb & _).
  eexists. apply (interpolate_on_segment _ _ _ _ _ E Ha Hb).
Qed.

(** The ratio is within [0, 1] when the target lies on the segment. *)
Lemma segmentRatio_bounds (a b : PathPoint) (d : Q) :
  cumulativeDistance a <= d -> d <= cumulativeDistance b ->
  0 <= segmentRatio a b d <= 1.
Proof.
  intros Hlo Hhi. unfold segmentRatio.
  destruct (Qltb 0 (cumulativeDistance b - cumulativeDistance a)) eqn:G.
  - apply Qltb_true_iff in G.
    split.
    + apply Qle_shift_div_l; [exact G | lra].
    + apply Qle_shift_div_r; [exact G | lra].
  - split; lra.
Qed.

Lemma segmentRatio_at_start (a b : PathPoint) (d : Q) :
  d == cumulativeDistance a -> segmentRatio a b d == 0.
Proof.
  intro E. unfold segmentRatio.
  destruct (Qltb 0 (cumulativeDistance b - cumulativeDistance a)) eqn:G.
  - apply Qltb_true_iff in G. unfold Qdiv.
    setoid_replace (d - cumulativeDistance a) with 0 by lra. ring.
  - reflexivity.
Qed.

Lemma segmentRatio_at_end (a b : PathPoint) (d : Q) :
  cumulativeDistance a < cumulativeDistance b ->
  d == cumulativeDistance b -> segmentRatio a b d == 1.
Proof.
  intros Hlt E. unfold segmentRatio.
  assert (G : 0 < cumulativeDistance b - cumulativeDistance a) by lra.
  rewrite (proj2 (Qltb_true_iff _ _) G).
  setoid_replace (d - cumulativeDistance a)
    with (cumulativeDistance b - cumulativeDistance a) by lra.
  field. lra.
Qed.

(** A blend with a ratio in [0, 1] stays between its end values. *)
Lemma blend_between (x y t : Q) :
  0 <= t <= 1 -> Qmin x y <= x + (y - x) * t <= Qmax x y.
Proof.
  intros [H0 H1].
  destruct (Qlt_le_dec x y) as [Hxy | Hyx].
  - rewrite (Q.min_l x y), (Q.max_r x y) by lra. split; nra.
  - rewrite (Q.min_r x y), (Q.max_l x y) by lra. split; nra.
Qed.

(** What a successful interpolation returns, read back from its result. *)
Lemma interpolate_inv (path : list PathPoint) (d : Q) (r : Interpolated) :
  interpolate path d = inr r ->
  nextIdx r = findSegment path d
  /\ JsArray.at_ path (nextIdx r - 1)%Z = inr (p1 r)
  /\ JsArray.at_ path (nextIdx r) = inr (p2 r)
  /\ i_lat r = pp_lat (p1 r) + (pp_lat (p2 r) - pp_lat (p1 r)) * ratio r
  /\ i_lng r = pp_lng (p1 r) + (pp_lng (p2 r) - pp_lng (p1 r)) * ratio r
  /\ isFlipped r = Qltb (pp_lng (p2 r)) (pp_lng (p1 r))
  /\ i_mode r = pp_mode (p1 r).
Proof.
  unfold interpolate, bind. intro H.
  destruct (JsArray.at_ path (findSegment path d - 1)%Z) as [|a] eqn:Ea;
    [discriminate|].
  destruct (JsArray.at_ path (findSegment path d)) as [|b] eqn:Eb;
    [discriminate|].
  destruct (if Qltb 0 (cumulativeDistance b - cumulativeDistance a)
            then checked_div (d - cumulativeDistance a)
                   (cumulativeDistance b - cumulativeDistance a)
            else ret 0) as [|rho]; [discriminate|].
  inversion H; subst r; simpl. repeat split; assumption.
Qed.

(** ** The path builder *)

Lemma lastOpt_snoc {A} (l : list A) (x : A) :
  JsArray.lastOpt (l ++ [x]) = Some x.
Proof.
  unfold JsArray.lastOpt.
  destruct (l ++ [x]) eqn:E; [destruct l; discriminate|].
  rewrite <- E, length_app. simpl.
  replace (length l + 1 - 1)%nat with (length l) by lia.
  rewrite nth_error_app2 by lia. now rewrite Nat.sub_diag.
Qed.

Lemma lastOpt_nth {A} (l : list A) (x : A) :
  JsArray.lastOpt l = Some x ->
  nth_error l (length l - 1) = Some x /\ (0 < length l)%nat.
Proof.
  unfold JsArray.lastOpt. destruct l; [discriminate|].
  intro H. split; [exact H | simpl; lia].
Qed.

Section BuilderInvariant.

Variable distanceTo : LatLng -> LatLng -> Q.

Lemma pushCoordinate_snoc m acc c :
  exists x,
    fst (pushCoordinate distanceTo m acc c) = fst acc ++ [x]
    /\ pp_lat x = lat c /\ pp_lng x = lng c /\ pp_mode x = m.
Proof.
  destruct acc as [points currentDist]. simpl.
  eexists. split; [reflexivity|]. simpl. auto.
Qed.

Lemma pushCoordinate_inv m acc c :
  builder_inv distanceTo acc ->
  builder_inv distanceTo (pushCoordinate distanceTo m acc c).
Proof.
  destruct acc as [points currentDist].
  intros (Hch & H0 & Hlast). unfold pushCoordinate.
  set (dist := match JsArray.lastOpt points with
               | Some prev =>
                   let from := latLng (pp_lat prev) (pp_lng prev) in
                   let to := latLng (lat c) (lng c) in
                   distanceTo from to
               | None => 0
               end).
  set (x := mkPathPoint (lat c) (lng c) m (currentDist + dist)).
  simpl in Hch, H0, Hlast.
  split; [|split]; simpl fst; simpl snd.
  - (* chained *)
    intros i p q Hp Hq.
    assert (Hi : (S i < length (points ++ [x]))%nat)
      by (apply nth_error_Some; congruence).
    rewrite length_app in Hi. simpl in Hi.
    destruct (Nat.eq_dec (S i) (length points)) as [Hend | Hin].
    + rewrite nth_error_app1 in Hp by lia.
      rewrite nth_error_app2 in Hq by lia.
      replace (S i - length points)%nat with 0%nat in Hq by lia.
      simpl in Hq. inversion Hq; subst q; clear Hq.
      assert (Hl : JsArray.lastOpt points = Some p).
      { unfold JsArray.lastOpt. destruct points as [|y ys];
          [simpl in Hend; lia|].
        replace (length (y :: ys) - 1)%nat with i by (simpl in *; lia).
        exact Hp. }
      unfold x, dist. rewrite Hl in *. simpl. rewrite Hlast. reflexivity.
    + rewrite nth_error_app1 in Hp by lia.
      rewrite nth_error_app1 in Hq by lia.
      apply (Hch i); assumption.
  - (* the first point *)
    intros p Hp. destruct points as [|y ys].
    + simpl in Hp. inversion Hp; subst p. unfold x, dist. simpl.
      simpl in Hlast. lra.
    + simpl in Hp. apply H0. simpl. exact Hp.
  - (* the running total *)
    rewrite lastOpt_snoc. reflexivity.
Qed.

Lemma pushLeg_inv acc leg :
  builder_inv distanceTo acc ->
  builder_inv distanceTo (pushLeg distanceTo acc leg).
Proof.
  unfold pushLeg. generalize (mode leg) as m.
  generalize dependent acc.
  induction (coordinates leg) as [|c cs IH]; intros acc m H; simpl.
  - exact H.
  - apply IH. apply pushCoordinate_inv. exact H.
Qed.

Lemma buildPath_inv ls : builder_inv distanceTo (buildPath distanceTo ls).
Proof.
  unfold buildPath.
  assert (H : builder_inv distanceTo ([], 0)).
  { split; [|split]; simpl.
    - intros [|i] p q Hp; discriminate.
    - intros p Hp; discriminate.
    - reflexivity. }
  generalize dependent ([] : list PathPoint, 0).
  induction ls as [|leg ls IH]; intros acc H; simpl.
  - exact H.
  - apply IH. apply pushLeg_inv. exact H.
Qed.

(** Points already emitted stay where they are. *)
Lemma pushLeg_prefix acc leg :
  exists suffix, fst (pushLeg distanceTo acc leg) = fst acc ++ suffix.
Proof.
  unfold pushLeg. generalize (mode leg) as m.
  generalize dependent acc.
  induction (coordinates leg) as [|c cs IH]; intros acc m; simpl.
  - exists []. now rewrite app_nil_r.
  - destruct (pushCoordinate_snoc m acc c) as (x & E & _).
    destruct (IH (pushCoordinate distanceTo m acc c) m) as (suf & Es).
    exists (x :: suf). rewrite Es, E, <- app_assoc. reflexivity.
Qed.

Lemma fold_pushLeg_prefix ls acc :
  exists suffix,
    fst (fold_left (pushLeg distanceTo) ls acc) = fst acc ++ suffix.
Proof.
  generalize dependent acc.
  induction ls as [|leg ls IH]; intro acc; simpl.
  - exists []. now rewrite app_nil_r.
  - destruct (pushLeg_prefix acc leg) as (s1 & E1).
    destruct (IH (pushLeg distanceTo acc leg)) as (s2 & E2).
    exists (s1 ++ s2). rewrite E2, E1, <- app_assoc. reflexivity.
Qed.

(** The first point emitted is the first coordinate of the first leg. *)
Lemma buildPath_first leg rest c cs :
  coordinates leg = c :: cs ->
  exists p,
    nth_error (fst (buildPath distanceTo (leg :: rest))) 0 = Some p
    /\ pp_lat p = lat c /\ pp_lng p = lng c /\ pp_mode p = mode leg.
Proof.
  intro Hc. unfold buildPath. simpl.
  destruct (fold_pushLeg_prefix rest (pushLeg distanceTo ([], 0) leg))
    as (s2 & E2).
  unfold pushLeg in *. rewrite Hc in *. simpl in *.
  set (acc1 := ([mkPathPoint (lat c) (lng c) (mode leg) (0 + 0)], 0 + 0))
    in *.
  destruct (pushLeg_prefix acc1 (mkRouteLeg cs (mode leg) 0 0))
    as (s1 & E1).
  unfold pushLeg in E1. simpl in E1.
  rewrite E2, E1. simpl.
  eexists. split; [reflexivity|]. simpl. auto.
Qed.

(** The reported total is the cumulative distance of the last point. *)
Lemma buildPath_total ls l :
  JsArray.lastOpt (fst (buildPath distanceTo ls)) = Some l ->
  cumulativeDistance l == snd (buildPath distanceTo ls).
Proof.
  intro H. destruct (buildPath_inv ls) as (_ & _ & Hl).
  rewrite H in Hl. exact Hl.
Qed.

End BuilderInvariant.

Section CumulativeDistance.

Variable distanceTo : LatLng -> LatLng -> Q.

(** What is asked of Leaflet's [distanceTo]: a distance is never
    negative, and it is positive between two different places. *)
Hypothesis distanceTo_nonneg : forall a b, 0 <= distanceTo a b.
Hypothesis distanceTo_pos :
  forall a b, distinct_place a b -> 0 < distanceTo a b.

Lemma chained_monotone (points : list PathPoint) :
  chained distanceTo points ->
  forall i j p q,
    (i <= j)%nat ->
    nth_error points i = Some p -> nth_error points j = Some q ->
    cumulativeDistance p <= cumulativeDistance q.
Proof.
  intros Hch i j. induction j as [|j IH]; intros p q Hij Hp Hq.
  - assert (i = 0)%nat by lia. subst i.
    rewrite Hp in Hq. inversion Hq. lra.
  - destruct (Nat.eq_dec i (S j)) as [-> | Hne].
    + rewrite Hp in Hq. inversion Hq. lra.
    + destruct (nth_error_in_range points j) as [m Hm].
      { assert (S j < length points)%nat
          by (apply nth_error_Some; congruence). lia. }
      assert (H1 : cumulativeDistance p <= cumulativeDistance m)
        by (apply IH; [lia | assumption | assumption]).
      pose proof (Hch j m q Hm Hq) as H2.
      pose proof (distanceTo_nonneg (latLng (pp_lat m) (pp_lng m))
                    (latLng (pp_lat q) (pp_lng q))) as H3.
      lra.
Qed.

(** C4.  For every list of legs, the cumulative distances of the path the
    builder emits never decrease along the path, strictly increase between
    two consecutive points at different places, and the first point (the
    first coordinate of the first leg) has cumulative distance 0. *)
Theorem C4_cumulative_distance_invariant (ls : list RouteLeg) :
  let path := fst (buildPath distanceTo ls) in
  (forall i j p q,
      (i <= j)%nat ->
      nth_error path i = Some p -> nth_error path j = Some q ->
      cumulativeDistance p <= cumulativeDistance q)
  /\ (forall i p q,
         nth_error path i = Some p -> nth_error path (S i) = Some q ->
         distinct_place (latLng (pp_lat p) (pp_lng p))
           (latLng (pp_lat q) (pp_lng q)) ->
         cumulativeDistance p < cumulativeDistance q)
  /\ (forall p, nth_error path 0 = Some p -> cumulativeDistance p == 0)
  /\ (forall leg rest c cs,
         ls = leg :: rest -> coordinates leg = c :: cs ->
         exists p,
           nth_error path 0 = Some p
           /\ pp_lat p = lat c /\ pp_lng p = lng c /\ pp_mode p = mode leg
           /\ cumulativeDistance p == 0).
Proof.
  intro path. destruct (buildPath_inv distanceTo ls) as (Hch & H0 & _).
  fold path in Hch, H0.
  split; [|split; [|split]].
  - apply chained_monotone. exact Hch.
  - intros i p q Hp Hq Hd.
    pose proof (Hch i p q Hp Hq) as E.
    pose proof (distanceTo_pos _ _ Hd) as Hpos. lra.
  - exact H0.
  - intros leg rest c cs -> Hc.
    destruct (buildPath_first distanceTo leg rest c cs Hc)
      as (p & Hp & Hla & Hlo & Hm).
    exists p. repeat split; auto.
Qed.

End CumulativeDistance.

Lemma gridDistance_nonneg (a b : LatLng) : 0 <= gridDistance a b.
Proof.
  unfold gridDistance.
  pose proof (Qabs_nonneg (lat b - lat a)).
  pose proof (Qabs_nonneg (lng b - lng a)). lra.
Qed.

Lemma Qabs_pos (x : Q) : ~ x == 0 -> 0 < Qabs x.
Proof.
  intro H. apply Qabs_case; intros Hx.
  - destruct (Qlt_le_dec 0 x) as [Hp | Hn]; [exact Hp|].
    exfalso. apply H. lra.
  - destruct (Qlt_le_dec x 0) as [Hp | Hn]; [lra|].
    exfalso. apply H. lra.
Qed.

Lemma gridDistance_pos (a b : LatLng) :
  distinct_place a b -> 0 < gridDistance a b.
Proof.
  unfold distinct_place, gridDistance. intro H.
  pose proof (Qabs_nonneg (lat b - lat a)) as H1.
  pose proof (Qabs_nonneg (lng b - lng a)) as H2.
  destruct (Qeq_dec (lat a) (lat b)) as [Ela | Nla].
  - destruct (Qeq_dec (lng a) (lng b)) as [Elo | Nlo].
    + exfalso. apply H. split; assumption.
    + assert (0 < Qabs (lng b - lng a)) by (apply Qabs_pos; lra). lra.
  - assert (0 < Qabs (lat b - lat a)) by (apply Qabs_pos; lra). lra.
Qed.

(** C4 on the sample route, measured with [gridDistance]. *)
Lemma C4_witness :
  let path := samplePath in
  (forall i j p q,
      (i <= j)%nat ->
      nth_error path i = Some p -> nth_error path j = Some q ->
      cumulativeDistance p <= cumulativeDistance q)
  /\ (forall i p q,
         nth_error path i = Some p -> nth_error path (S i) = Some q ->
         distinct_place (latLng (pp_lat p) (pp_lng p))
           (latLng (pp_lat q) (pp_lng q)) ->
         cumulativeDistance p < cumulativeDistance q)
  /\ (forall p, nth_error path 0 = Some p -> cumulativeDistance p == 0)
  /\ (forall leg rest c cs,
         sampleLegs = leg :: rest -> coordinates leg = c :: cs ->
         exists p,
           nth_error path 0 = Some p
           /\ pp_lat p = lat c /\ pp_lng p = lng c /\ pp_mode p = mode leg
           /\ cumulativeDistance p == 0).
Proof.
  exact (C4_cumulative_distance_invariant gridDistance
           gridDistance_nonneg gridDistance_pos sampleLegs).
Defined.

(** ** Claims on the interpolator *)

Lemma Forall_nth_error {A} (P : A -> Prop) (l : list A) (n : nat) (x : A) :
  Forall P l -> nth_error l n = Some x -> P x.
Proof.
  intros H Hn. rewrite Forall_forall in H. apply H.
  eapply nth_error_In. exact Hn.
Qed.

(** At a target no greater than the first point's cumulative distance the
    first segment is used, with the first point as [p1]. *)
Lemma interpolate_first_segment (path : list PathPoint) (d : Q)
    (p0 : PathPoint) :
  (2 <= length path)%nat -> nth_error path 0 = Some p0 ->
  d <= cumulativeDistance p0 ->
  exists b,
    nth_error path 1 = Some b
    /\ interpolate path d =
         inr (mkInterpolated 1 p0 b (segmentRatio p0 b d)
                (pp_lat p0 + (pp_lat b - pp_lat p0) * segmentRatio p0 b d)
                (pp_lng p0 + (pp_lng b - pp_lng p0) * segmentRatio p0 b d)
                (Qltb (pp_lng b) (pp_lng p0)) (pp_mode p0)).
Proof.
  intros Hlen H0 Hd.
  destruct (findSegment_cases path d Hlen)
    as (n & a & b & E & Ha & Hb
        & [[_ Hall] | [[-> Hle] | (Hlt & _ & Hbefore)]]).
  - pose proof (Forall_nth_error _ _ _ _ Hall H0) as Hc. simpl in Hc. lra.
  - rewrite H0 in Ha. inversion Ha; subst a.
    exists b. split; [exact Hb|].
    apply (interpolate_on_segment _ _ _ _ _ E H0 Hb).
  - pose proof (Hbefore 0%nat p0 (Nat.le_0_l n) H0) as Hc. lra.
Qed.

(** C7.  For every path the builder emits that has at least two points,
    interpolating at target distance 0 succeeds and yields the first
    PathPoint's latitude and longitude and its mode, which are the first
    coordinate and the mode of the first leg. *)
Theorem C7_interpolate_at_zero (distanceTo : LatLng -> LatLng -> Q)
    (ls : list RouteLeg) :
  let path := fst (buildPath distanceTo ls) in
  (2 <= length path)%nat ->
  exists p0 r,
    nth_error path 0 = Some p0
    /\ interpolate path 0 = inr r
    /\ i_lat r == pp_lat p0 /\ i_lng r == pp_lng p0
    /\ i_mode r = pp_mode p0
    /\ (forall leg rest c cs,
           ls = leg :: rest -> coordinates leg = c :: cs ->
           pp_lat p0 = lat c /\ pp_lng p0 = lng c /\ pp_mode p0 = mode leg).
Proof.
  intros path Hlen.
  destruct (nth_error_in_range path 0) as [p0 H0]; [lia|].
  destruct (buildPath_inv distanceTo ls) as (_ & Hz & _).
  fold path in Hz. pose proof (Hz p0 H0) as Hc0.
  destruct (interpolate_first_segment path 0 p0 Hlen H0) as (b & Hb & E);
    [lra|].
  assert (Hr : segmentRatio p0 b 0 == 0)
    by (apply segmentRatio_at_start; lra).
  exists p0. eexists. split; [exact H0|]. split; [exact E|]. simpl.
  split; [rewrite Hr; ring|]. split; [rewrite Hr; ring|].
  split; [reflexivity|].
  intros leg rest c cs -> Hc.
  destruct (buildPath_first distanceTo leg rest c cs Hc)
    as (p & Hp & Hla & Hlo & Hm).
  fold path in Hp. rewrite H0 in Hp. inversion Hp; subst p. auto.
Qed.

(** C7 on the sample route. *)
Lemma C7_witness :
  exists p0 r,
    nth_error samplePath 0 = Some p0
    /\ interpolate samplePath 0 = inr r
    /\ i_lat r == pp_lat p0 /\ i_lng r == pp_lng p0
    /\ i_mode r = pp_mode p0
    /\ (forall leg rest c cs,
           sampleLegs = leg :: rest -> coordinates leg = c :: cs ->
           pp_lat p0 = lat c /\ pp_lng p0 = lng c /\ pp_mode p0 = mode leg).
Proof.
  apply (C7_interpolate_at_zero gridDistance sampleLegs).
  vm_compute. lia.
Defined.

(** C8.  For every interpolation step, the direction flag is true exactly
    when the longitude of the segment's end point [p2] is strictly less than
    that of its start point [p1]; with equal longitudes it is false. *)
Theorem C8_direction_flag (path : list PathPoint) (d : Q)
    (r : Interpolated) :
  interpolate path d = inr r ->
  (isFlipped r = true <-> pp_lng (p2 r) < pp_lng (p1 r))
  /\ (isFlipped r = false <-> pp_lng (p1 r) <= pp_lng (p2 r))
  /\ (pp_lng (p2 r) == pp_lng (p1 r) -> isFlipped r = false).
Proof.
  intro H. destruct (interpolate_inv path d r H) as (_ & _ & _ & _ & _ & F & _).
  rewrite F. split; [apply Qltb_true_iff|]. split; [apply Qltb_false_iff|].
  intro E. apply Qltb_false_iff. lra.
Qed.

(** C10.  For every path of at least two points whose first cumulative
    distance is 0, and every target between 0 and the last point's
    cumulative distance, interpolation succeeds with a ratio in [0, 1]; the
    latitude and the longitude are convex combinations of those of [p1] and
    [p2] and lie between them.  (That the cumulative distances never
    decrease is not needed.) *)
Theorem C10_ratio_in_unit_interval (path : list PathPoint) (d : Q)
    (first final : PathPoint) :
  (2 <= length path)%nat ->
  nth_error path 0 = Some first -> cumulativeDistance first == 0 ->
  JsArray.lastOpt path = Some final ->
  0 <= d -> d <= cumulativeDistance final ->
  exists r,
    interpolate path d = inr r
    /\ 0 <= ratio r <= 1
    /\ i_lat r == (1 - ratio r) * pp_lat (p1 r) + ratio r * pp_lat (p2 r)
    /\ i_lng r == (1 - ratio r) * pp_lng (p1 r) + ratio r * pp_lng (p2 r)
    /\ Qmin (pp_lat (p1 r)) (pp_lat (p2 r)) <= i_lat r
       <= Qmax (pp_lat (p1 r)) (pp_lat (p2 r))
    /\ Qmin (pp_lng (p1 r)) (pp_lng (p2 r)) <= i_lng r
       <= Qmax (pp_lng (p1 r)) (pp_lng (p2 r)).
Proof.
  intros Hlen H0 Hc0 Hlast Hd0 Hd1.
  assert (Hex : exists n a b,
             nth_error path n = Some a /\ nth_error path (S n) = Some b
             /\ findSegment path d = Z.of_nat (S n)
             /\ 0 <= segmentRatio a b d <= 1).
  { destruct (findSegment_cases path d Hlen)
      as (n & a & b & E & Ha & Hb
          & [[_ Hall] | [[-> Hle] | (Hlt & Hle & _)]]).
    - destruct (lastOpt_nth _ _ Hlast) as [Hl _].
      pose proof (Forall_nth_error _ _ _ _ Hall Hl) as Hc. simpl in Hc. lra.
    - exists 0%nat, a, b. repeat split; auto;
        rewrite H0 in Ha; inversion Ha; subst a;
        rewrite (segmentRatio_at_start first b d) by lra; lra.
    - exists n, a, b. repeat split; auto;
        apply segmentRatio_bounds; lra. }
  destruct Hex as (n & a & b & Ha & Hb & E & Hr).
  eexists. split; [apply (interpolate_on_segment _ _ _ _ _ E Ha Hb)|].
  simpl. split; [exact Hr|].
  split; [ring|]. split; [ring|].
  split; apply blend_between; exact Hr.
Qed.

(** C10 on the sample route, half-way along the train leg. *)
Lemma C10_witness :
  exists r,
    interpolate samplePath (3 # 2) = inr r
    /\ 0 <= ratio r <= 1
    /\ i_lat r == (1 - ratio r) * pp_lat (p1 r) + ratio r * pp_lat (p2 r)
    /\ i_lng r == (1 - ratio r) * pp_lng (p1 r) + ratio r * pp_lng (p2 r)
    /\ Qmin (pp_lat (p1 r)) (pp_lat (p2 r)) <= i_lat r
       <= Qmax (pp_lat (p1 r)) (pp_lat (p2 r))
    /\ Qmin (pp_lng (p1 r)) (pp_lng (p2 r)) <= i_lng r
       <= Qmax (pp_lng (p1 r)) (pp_lng (p2 r)).
Proof.
  apply (C10_ratio_in_unit_interval samplePath (3 # 2)
           (mkPathPoint 0 0 CAR 0) (mkPathPoint 0 2 TRAIN 2)).
  - vm_compute. lia.
  - reflexivity.
  - reflexivity.
  - reflexivity.
  - vm_compute. discriminate.
  - vm_compute. discriminate.
Defined.

(** C8 on a two-point path that runs west. *)
Lemma C8_witness :
  exists r,
    interpolate [mkPathPoint 0 2 CAR 0; mkPathPoint 0 1 CAR 1] (1 # 2) = inr r
    /\ (isFlipped r = true <-> pp_lng (p2 r) < pp_lng (p1 r))
    /\ (isFlipped r = false <-> pp_lng (p1 r) <= pp_lng (p2 r))
    /\ (pp_lng (p2 r) == pp_lng (p1 r) -> isFlipped r = false).
Proof.
  eexists. split.
  - vm_compute. reflexivity.
  - apply (C8_direction_flag
             [mkPathPoint 0 2 CAR 0; mkPathPoint 0 1 CAR 1] (1 # 2)).
    vm_compute. reflexivity.
Defined.

(** *** Mode-transition boundaries *)

Lemma buildPath_nondecreasing (distanceTo : LatLng -> LatLng -> Q)
    (ls : list RouteLeg) :
  (forall a b, 0 <= distanceTo a b) ->
  nondecreasing (fst (buildPath distanceTo ls)).
Proof.
  intro Hnn. unfold nondecreasing.
  apply (chained_monotone distanceTo Hnn).
  apply buildPath_inv.
Qed.

(** The claim C1 as worded fails on the sample route: at the cumulative
    distance of the boundary point between the car leg and the train leg the
    interpolator does not yield the train leg's mode. *)
Lemma C1_counterexample :
  exists k a b,
    mode_boundary samplePath k a b
    /\ ~ (exists r,
             interpolate samplePath (cumulativeDistance b) = inr r
             /\ i_mode r = pp_mode b).
Proof.
  exists 1%nat, (mkPathPoint 0 1 CAR 1), (mkPathPoint 0 1 TRAIN 1).
  split.
  - unfold mode_boundary. simpl.
    repeat split; try reflexivity. discriminate.
  - intros (r & E & M). vm_compute in E. inversion E; subst r.
    simpl in M. discriminate.
Qed.

(** C1, amended.  On a path with non-decreasing cumulative distances and a
    mode-transition boundary at points [k], [k + 1], interpolating at the
    boundary's cumulative distance never divides by zero (a segment without
    length gets ratio 0), selects a segment that ends at or before the
    boundary's first point (or the first segment), and yields the mode of
    that segment's start point [p1].  If the boundary opens the path, the
    zero-length step is selected, its ratio is 0 and the mode is the first
    point's.  If the step into the boundary point has positive length, that
    step is selected with ratio 1: the position is the boundary point and
    the mode is that of the step's start point; when that point has the
    outgoing leg's mode, the active mode is the outgoing leg's and not the
    incoming leg's. *)
Theorem C1_boundary_keeps_outgoing_mode (path : list PathPoint) (k : nat)
    (a b : PathPoint) :
  nondecreasing path -> mode_boundary path k a b ->
  exists r,
    interpolate path (cumulativeDistance b) = inr r
    /\ (nextIdx r <= Z.max 1 (Z.of_nat k))%Z
    /\ i_mode r = pp_mode (p1 r)
    /\ (cumulativeDistance (p2 r) <= cumulativeDistance (p1 r) ->
        ratio r = 0)
    /\ (k = 0%nat ->
        nextIdx r = 1%Z /\ p1 r = a /\ p2 r = b /\ ratio r = 0
        /\ i_mode r = pp_mode a)
    /\ (forall k' z,
           k = S k' -> nth_error path k' = Some z ->
           cumulativeDistance z < cumulativeDistance a ->
           nextIdx r = Z.of_nat k /\ p1 r = z /\ p2 r = a /\ ratio r == 1
           /\ i_lat r == pp_lat a /\ i_lng r == pp_lng a
           /\ i_mode r = pp_mode z
           /\ (pp_mode z = pp_mode a -> i_mode r <> pp_mode b)).
Proof.
  intros Hmono (Ha & Hb & Hmode & _ & _ & Hcum).
  assert (Hlen : (2 <= length path)%nat).
  { assert (S k < length path)%nat by (apply nth_error_Some; congruence).
    lia. }
  destruct (findSegment_cases path (cumulativeDistance b) Hlen)
    as (n & x & y & E & Hx & Hy & Hcase).
  eexists. split; [apply (interpolate_on_segment _ _ _ _ _ E Hx Hy)|].
  simpl. split; [|split; [reflexivity|split; [|split]]].
  - (* the segment ends at or before the boundary's first point *)
    destruct Hcase as [[_ Hall] | [[-> _] | (_ & _ & Hbefore)]].
    + pose proof (Forall_nth_error _ _ _ _ Hall Hb) as Hc. simpl in Hc.
      lra.
    + lia.
    + destruct (Nat.le_gt_cases k n) as [Hk | Hk]; [|lia].
      pose proof (Hbefore k a Hk Ha). lra.
  - (* a segment without length *)
    intro Hzero. unfold segmentRatio.
    replace (Qltb 0 (cumulativeDistance y - cumulativeDistance x))
      with false; [reflexivity|].
    symmetry. apply Qltb_false_iff. lra.
  - (* the boundary opens the path *)
    intros ->.
    destruct Hcase as [[_ Hall] | [[-> Hle] | (Hlt & _ & Hbefore)]].
    + pose proof (Forall_nth_error _ _ _ _ Hall Hb) as Hc. simpl in Hc.
      lra.
    + rewrite Ha in Hx. rewrite Hb in Hy.
      inversion Hx; inversion Hy; subst x y.
      repeat split; auto.
      unfold segmentRatio.
      replace (Qltb 0 (cumulativeDistance b - cumulativeDistance a))
        with false; [reflexivity|].
      symmetry. apply Qltb_false_iff. lra.
    + pose proof (Hbefore 0%nat a (Nat.le_0_l n) Ha) as Hc. lra.
  - (* the step into the boundary point has positive length *)
    intros k' z -> Hz Hpos.
    assert (Hn : n = k').
    { destruct Hcase as [[_ Hall] | [[-> Hle] | (Hlt & Hle & Hbefore)]].
      - pose proof (Forall_nth_error _ _ _ _ Hall Hb) as Hc. simpl in Hc.
        lra.
      - pose proof (Hmono 0%nat k' x z (Nat.le_0_l k') Hx Hz). lra.
      - destruct (Nat.lt_trichotomy n k') as [Hlt' | [Heq | Hgt]].
        + pose proof (Hmono (S n) k' y z Hlt' Hy Hz). lra.
        + exact Heq.
        + assert (Hk : (S k' <= n)%nat) by lia.
          pose proof (Hbefore (S k') a Hk Ha). lra. }
    subst n. rewrite Hz in Hx. rewrite Ha in Hy.
    inversion Hx; inversion Hy; subst x y.
    assert (Hr : segmentRatio z a (cumulativeDistance b) == 1)
      by (apply segmentRatio_at_end; [exact Hpos | lra]).
    split; [reflexivity|]. split; [reflexivity|]. split; [reflexivity|].
    split; [exact Hr|].
    split; [rewrite Hr; ring|]. split; [rewrite Hr; ring|].
    split; [reflexivity|].
    intros Em. rewrite Em. exact Hmode.
Qed.

(** C1, amended, on the sample route: at the car/train boundary the last car
    step is selected with ratio 1, the position is the boundary point and
    the mode stays [CAR]. *)
Lemma C1_witness :
  exists r,
    interpolate samplePath 1 = inr r
    /\ nextIdx r = 1%Z
    /\ p1 r = mkPathPoint 0 0 CAR 0 /\ p2 r = mkPathPoint 0 1 CAR 1
    /\ ratio r == 1
    /\ i_lat r == 0 /\ i_lng r == 1
    /\ i_mode r = CAR
    /\ i_mode r <> TRAIN.
Proof.
  destruct (C1_boundary_keeps_outgoing_mode samplePath 1
              (mkPathPoint 0 1 CAR 1) (mkPathPoint 0 1 TRAIN 1))
    as (r & E & _ & _ & _ & _ & H).
  - apply (buildPath_nondecreasing gridDistance sampleLegs).
    exact gridDistance_nonneg.
  - unfold mode_boundary. simpl.
    repeat split; try reflexivity. discriminate.
  - destruct (H 0%nat (mkPathPoint 0 0 CAR 0) eq_refl eq_refl eq_refl)
      as (H1 & H2 & H3 & H4 & H5 & H6 & H7 & H8).
    exists r. repeat split; auto.
Defined.

(** Why the outgoing leg's mode cannot be promised without those
    conditions: when the outgoing leg has no step of positive length into
    the boundary point (here a train leg of a single point between two car
    legs), the segment selected belongs to an earlier leg, whose mode may
    be the incoming leg's. *)
Lemma boundary_after_pointlike_leg :
  let path :=
    fst (buildPath gridDistance
           [ mkRouteLeg [at_grid 0 0] CAR 0 0;
             mkRouteLeg [at_grid 0 1] TRAIN 0 0;
             mkRouteLeg [at_grid 0 1; at_grid 0 2] CAR 0 0 ]) in
  mode_boundary path 1 (mkPathPoint 0 1 TRAIN 1) (mkPathPoint 0 1 CAR 1)
  /\ exists r, interpolate path 1 = inr r /\ i_mode r = CAR.
Proof.
  split.
  - unfold mode_boundary. simpl.
    repeat split; try reflexivity. discriminate.
  - eexists. split; [vm_compute; reflexivity | reflexivity].
Qed.

(** ** The component state *)

Lemma TransportMode_eqb_eq (a b : TransportMode) :
  TransportMode_eqb a b = true <-> a = b.
Proof. destruct a, b; simpl; split; intro H; congruence. Qed.

Lemma TransportMode_eqb_neq (a b : TransportMode) :
  TransportMode_eqb a b = false <-> a <> b.
Proof. destruct a, b; simpl; split; intro H; congruence. Qed.

Lemma set_pendingFrames_same (s : MapState) :
  set_pendingFrames (pendingFrames s) s = s.
Proof. destruct s; reflexivity. Qed.

Lemma layersReady_inv (s : MapState) :
  layersReady s = true ->
  exists m poly layer,
    vehicleMarkerRef s = Some m
    /\ currentSegmentPolylineRef s = Some poly
    /\ finishedSegmentsLayerRef s = Some layer.
Proof.
  unfold layersReady.
  destruct (vehicleMarkerRef s) as [m|]; [|discriminate].
  destruct (currentSegmentPolylineRef s) as [p|]; [|discriminate].
  destruct (finishedSegmentsLayerRef s) as [l|]; [|discriminate].
  intros _. exists m, p, l. auto.
Qed.

(** What [updateMapState] leaves alone and what it always sets, when the
    layers are in place. *)
Lemma updateMapState_frame (point : PathPoint) (isFinal flipped : bool)
    (pos : LatLng) (z : Q) (s : MapState) :
  layersReady s = true ->
  let s' := updateMapState point isFinal flipped pos z s in
  layersReady s' = true
  /\ pathDataRef s' = pathDataRef s
  /\ totalDistanceRef s' = totalDistanceRef s
  /\ animationFrameRef s' = animationFrameRef s
  /\ startTimeRef s' = startTimeRef s
  /\ isAnimatingRef s' = isAnimatingRef s
  /\ startZoomRef s' = startZoomRef s
  /\ pendingFrames s' = pendingFrames s
  /\ nextFrameId s' = nextFrameId s
  /\ completions s' = completions s
  /\ (exists icon, vehicleMarkerRef s' = Some (mkMarker pos icon))
  /\ prevModeRef s' = pp_mode point
  /\ prevFlippedRef s' = flipped
  /\ mapView s' = (if isFinal then mapView s else mkView pos z).
Proof.
  intro Hready.
  destruct (layersReady_inv s Hready) as (m & poly & layer & Hm & Hp & Hl).
  destruct s; simpl in *; subst.
  unfold updateMapState; simpl.
  destruct (TransportMode_eqb (pp_mode point) prevModeRef0) eqn:Em; simpl;
    try (destruct (0 <? length currentSegmentPointsRef0)%nat; simpl);
    (destruct (Bool.eqb flipped prevFlippedRef0) eqn:Ef; simpl);
    (destruct isFinal; simpl);
    try apply TransportMode_eqb_eq in Em;
    try apply Bool.eqb_prop in Ef;
    repeat split; eauto.
Qed.

(** *** The clock *)

Lemma durationMs_value : durationMs == 90000.
Proof. reflexivity. Qed.

Lemma rawProgress_running (elapsed : Q) :
  elapsed < durationMs -> Qle_bool 1 (rawProgress elapsed) = false.
Proof.
  intro H. apply Qle_bool_false_iff. unfold rawProgress.
  apply Q.min_lt_iff. left.
  apply Qlt_shift_div_r; [reflexivity | lra].
Qed.

Lemma rawProgress_done (elapsed : Q) :
  durationMs <= elapsed ->
  rawProgress elapsed == 1 /\ Qle_bool 1 (rawProgress elapsed) = true.
Proof.
  intro H.
  assert (H1 : 1 <= elapsed / durationMs)
    by (apply Qle_shift_div_l; [reflexivity | lra]).
  assert (E : rawProgress elapsed == 1)
    by (unfold rawProgress; apply Q.min_r; exact H1).
  split; [exact E|]. apply Qle_bool_iff. rewrite E. lra.
Qed.

(** While the clock has not run out, progress is linear in elapsed time. *)
Lemma rawProgress_linear (elapsed : Q) :
  elapsed <= durationMs -> rawProgress elapsed == elapsed / 90000.
Proof.
  intro H. unfold rawProgress. rewrite Q.min_l.
  - reflexivity.
  - apply Qle_shift_div_r; [reflexivity | lra].
Qed.

(** *** The frame queue *)

Lemma cancelPendingFrame_clears (s : MapState) :
  framesTracked s ->
  cancelPendingFrame s = set_pendingFrames [] s.
Proof.
  intros (_ & [Hp | (Hp & Hid)]); unfold cancelPendingFrame.
  - destruct (animationFrameRef s =? 0)%Z.
    + rewrite <- Hp. symmetry. apply set_pendingFrames_same.
    + unfold cancelAnimationFrame. rewrite Hp. reflexivity.
  - destruct (animationFrameRef s =? 0)%Z eqn:E;
      [apply Z.eqb_eq in E; contradiction|].
    unfold cancelAnimationFrame. rewrite Hp. simpl.
    rewrite Z.eqb_refl. reflexivity.
Qed.

Lemma runFrame_idle (t : Q) (s : MapState) :
  pendingFrames s = [] -> runFrame t s = inr s.
Proof.
  intro H. unfold runFrame. rewrite H. simpl. unfold ret.
  rewrite <- H. now rewrite set_pendingFrames_same.
Qed.

Lemma runFrames_idle (times : list Q) (s : MapState) :
  pendingFrames s = [] -> runFrames times s = inr s.
Proof.
  intro H. induction times as [|t rest IH]; simpl.
  - reflexivity.
  - rewrite (runFrame_idle t s H). simpl. exact IH.
Qed.

Lemma at_last {A} (l : list A) (x : A) :
  JsArray.lastOpt l = Some x ->
  JsArray.at_ l (Z.of_nat (length l) - 1)%Z = inr x.
Proof.
  intro H. destruct (lastOpt_nth l x H) as [Hn Hlen].
  replace (Z.of_nat (length l) - 1)%Z with (Z.of_nat (length l - 1)) by lia.
  apply at_in_range. exact Hn.
Qed.

Lemma lastOpt_nonempty {A} (l : list A) :
  (0 < length l)%nat -> exists x, JsArray.lastOpt l = Some x.
Proof.
  intro H. destruct l as [|a l]; [simpl in H; lia|].
  unfold JsArray.lastOpt.
  apply nth_error_in_range. simpl. lia.
Qed.

(** *** One frame of a run *)

(** A frame before the clock runs out: the vehicle is put at the position
    interpolated for [totalDistance * rawProgress], the camera follows at the
    frame's zoom, and the next frame is requested. *)
Lemma runFrame_running (t : Q) (s : MapState) :
  playing s ->
  t - startTimeRef s < durationMs ->
  exists r,
    interpolate (pathDataRef s)
      (totalDistanceRef s * rawProgress (t - startTimeRef s)) = inr r
    /\ let u :=
         updateMapState
           (mkPathPoint (i_lat r) (i_lng r) (i_mode r)
              (totalDistanceRef s * rawProgress (t - startTimeRef s)))
           false (isFlipped r) (latLng (i_lat r) (i_lng r))
           (currentZoom (startZoomRef s) (t - startTimeRef s))
           (frameStart s) in
       runFrame t s =
         inr (set_animationFrame (nextFrameId u)
                (snd (requestAnimationFrame u))).
Proof.
  intros (Hready & Hlen & Hnext & Hpend & Hid) Hrun.
  destruct (interpolate_total (pathDataRef s)
              (totalDistanceRef s * rawProgress (t - startTimeRef s)) Hlen)
    as (r & Er).
  exists r. split; [exact Er|].
  unfold runFrame. rewrite Hpend. simpl. unfold bind, ret.
  unfold animate.
  replace (startTimeRef (set_pendingFrames [] s)) with (startTimeRef s)
    by (destruct s; reflexivity).
  replace (pathDataRef (set_pendingFrames [] s)) with (pathDataRef s)
    by (destruct s; reflexivity).
  replace (totalDistanceRef (set_pendingFrames [] s))
    with (totalDistanceRef s) by (destruct s; reflexivity).
  replace (startZoomRef (set_pendingFrames [] s)) with (startZoomRef s)
    by (destruct s; reflexivity).
  rewrite (rawProgress_running _ Hrun), Er. reflexivity.
Qed.

(** The frame on which the clock has run out: one last update pins the
    vehicle to the last point, the parent is notified, nothing is requested. *)
Lemma runFrame_final (t : Q) (s : MapState) :
  playing s ->
  durationMs <= t - startTimeRef s ->
  exists final,
    JsArray.lastOpt (pathDataRef s) = Some final
    /\ runFrame t s =
         inr (set_isAnimating false
                (onAnimationComplete
                   (updateMapState final true false
                      (latLng (pp_lat final) (pp_lng final))
                      FOLLOW_ZOOM_LEVEL (frameStart s)))).
Proof.
  intros (Hready & Hlen & Hnext & Hpend & Hid) Hdone.
  destruct (lastOpt_nonempty (pathDataRef s)) as (final & Hfinal); [lia|].
  exists final. split; [exact Hfinal|].
  unfold runFrame. rewrite Hpend. simpl. unfold bind, ret.
  unfold animate.
  replace (startTimeRef (set_pendingFrames [] s)) with (startTimeRef s)
    by (destruct s; reflexivity).
  replace (pathDataRef (set_pendingFrames [] s)) with (pathDataRef s)
    by (destruct s; reflexivity).
  destruct (rawProgress_done _ Hdone) as [_ E]. rewrite E.
  rewrite (at_last _ _ Hfinal). reflexivity.
Qed.

Lemma frameStart_fields (s : MapState) :
  layersReady (frameStart s) = layersReady s
  /\ pathDataRef (frameStart s) = pathDataRef s
  /\ totalDistanceRef (frameStart s) = totalDistanceRef s
  /\ startTimeRef (frameStart s) = startTimeRef s
  /\ startZoomRef (frameStart s) = startZoomRef s
  /\ nextFrameId (frameStart s) = nextFrameId s
  /\ completions (frameStart s) = completions s
  /\ pendingFrames (frameStart s) = []
  /\ prevModeRef (frameStart s) = prevModeRef s
  /\ currentSegmentPointsRef (frameStart s) = currentSegmentPointsRef s
  /\ finishedSegmentsLayerRef (frameStart s) = finishedSegmentsLayerRef s
  /\ currentSegmentPolylineRef (frameStart s) = currentSegmentPolylineRef s
  /\ vehicleMarkerRef (frameStart s) = vehicleMarkerRef s.
Proof. destruct s; repeat split; reflexivity. Qed.

(** A running frame keeps the run going and leaves the route, the clock
    origin, the start zoom and the completion count as they were. *)
Lemma runFrame_running_keeps (t : Q) (s : MapState) :
  playing s ->
  t - startTimeRef s < durationMs ->
  exists s',
    runFrame t s = inr s'
    /\ playing s'
    /\ startTimeRef s' = startTimeRef s
    /\ pathDataRef s' = pathDataRef s
    /\ totalDistanceRef s' = totalDistanceRef s
    /\ startZoomRef s' = startZoomRef s
    /\ completions s' = completions s.
Proof.
  intros Hplay Hrun.
  destruct (runFrame_running t s Hplay Hrun) as (r & _ & E).
  cbv zeta in E. eexists. split; [exact E|].
  destruct Hplay as (Hready & Hlen & Hnext & _ & _).
  destruct (frameStart_fields s)
    as (F1 & F2 & F3 & F4 & F5 & F6 & F7 & F8 & _).
  match goal with
  | |- context [requestAnimationFrame ?u'] => remember u' as u eqn:Eu
  end.
  assert (Hu := updateMapState_frame
                  (mkPathPoint (i_lat r) (i_lng r) (i_mode r)
                     (totalDistanceRef s * rawProgress (t - startTimeRef s)))
                  false (isFlipped r) (latLng (i_lat r) (i_lng r))
                  (currentZoom (startZoomRef s) (t - startTimeRef s))
                  (frameStart s)).
  rewrite F1 in Hu. specialize (Hu Hready). cbv zeta in Hu. rewrite <- Eu in Hu.
  destruct Hu as (U1 & U2 & U3 & U4 & U5 & U6 & U7 & U8 & U9 & U10 & _).
  rewrite F2 in U2. rewrite F3 in U3. rewrite F4 in U5. rewrite F5 in U7.
  rewrite F8 in U8. rewrite F6 in U9. rewrite F7 in U10.
  clear Eu E. destruct u; simpl in *; subst.
  unfold playing; simpl. repeat split; auto; lia.
Qed.

Lemma runFrames_running_keep (times : list Q) (s : MapState) :
  playing s ->
  Forall (fun t => t - startTimeRef s < durationMs) times ->
  exists s',
    runFrames times s = inr s'
    /\ playing s'
    /\ startTimeRef s' = startTimeRef s
    /\ pathDataRef s' = pathDataRef s
    /\ totalDistanceRef s' = totalDistanceRef s
    /\ startZoomRef s' = startZoomRef s
    /\ completions s' = completions s.
Proof.
  revert s. induction times as [|t rest IH]; intros s Hplay Hall.
  - exists s. simpl. split; [reflexivity|]. split; [exact Hplay|].
    repeat split; reflexivity.
  - inversion Hall as [|? ? Ht Hrest]; subst.
    destruct (runFrame_running_keeps t s Hplay Ht)
      as (s1 & E1 & P1 & T1 & D1 & L1 & Z1 & K1).
    destruct (IH s1 P1) as (s2 & E2 & P2 & T2 & D2 & L2 & Z2 & K2).
    { rewrite T1. exact Hrest. }
    exists s2. simpl. rewrite E1. simpl.
    split; [exact E2|]. split; [exact P2|].
    repeat split; congruence.
Qed.

(** *** Loading a route and starting a run *)

Lemma setupRoute_loaded (distanceTo : LatLng -> LatLng -> Q)
    (fitBoundsView : Coordinates -> Coordinates -> View -> View)
    (rd : RouteData) (s0 : MapState) :
  framesTracked s0 ->
  let s := setupRoute distanceTo fitBoundsView (Some rd) s0 in
  pathDataRef s = fst (buildPath distanceTo (legs rd))
  /\ totalDistanceRef s = snd (buildPath distanceTo (legs rd))
  /\ pendingFrames s = []
  /\ nextFrameId s = nextFrameId s0
  /\ completions s = completions s0
  /\ isAnimatingRef s = false
  /\ currentSegmentPointsRef s = []
  /\ ((0 < length (pathDataRef s))%nat -> layersReady s = true).
Proof.
  intro Htracked. unfold setupRoute.
  rewrite (cancelPendingFrame_clears s0 Htracked).
  destruct (buildPath distanceTo (legs rd)) as [points currentDist].
  destruct (boundingBox rd) as [sw ne].
  destruct points as [|startPoint rest];
    [|destruct (negb (Qeq_bool (lat sw) 0) && negb (Qeq_bool (lat ne) 0))];
    destruct s0; simpl; repeat split; auto; intro H; simpl in H; lia.
Qed.

Lemma animationEffect_starts (now : Q) (s : MapState) :
  layersReady s = true ->
  (2 <= length (pathDataRef s))%nat ->
  pendingFrames s = [] -> (0 < nextFrameId s)%Z ->
  isAnimatingRef s = false ->
  let s' := animationEffect true now s in
  playing s'
  /\ startTimeRef s' = now
  /\ startZoomRef s' = zoom (mapView s)
  /\ pathDataRef s' = pathDataRef s
  /\ totalDistanceRef s' = totalDistanceRef s
  /\ completions s' = completions s
  /\ currentSegmentPointsRef s' = []
  /\ finishedSegmentsLayerRef s' = Some []
  /\ isAnimatingRef s' = true.
Proof.
  intros Hready Hlen Hpend Hnext Hidle.
  destruct (layersReady_inv s Hready) as (m & poly & layer & Hm & Hp & Hl).
  unfold animationEffect. simpl negb. rewrite orb_false_l.
  replace (length (pathDataRef s) <? 2)%nat with false
    by (symmetry; apply Nat.ltb_ge; lia).
  destruct s; simpl in *; subst. simpl.
  unfold playing; simpl. repeat split; auto; lia.
Qed.

(** ** Claims on the clock, the camera and the driver *)

(** C3.  A route with at least two path points is loaded and played at
    [now]; frames arrive while less than the fixed duration (90 s) has
    elapsed, then a frame at which it has.  On that frame [rawProgress] is 1,
    the vehicle is put on the last PathPoint, the completion callback is
    called (the only call of the run), the run is no longer animating and no
    frame is pending, so that later frames change nothing. *)
Theorem C3_completion (distanceTo : LatLng -> LatLng -> Q)
    (fitBoundsView : Coordinates -> Coordinates -> View -> View)
    (rd : RouteData) (s0 : MapState) (now : Q) (before : list Q) (t : Q) :
  framesTracked s0 ->
  let loaded := setupRoute distanceTo fitBoundsView (Some rd) s0 in
  let run := animationEffect true now loaded in
  (2 <= length (pathDataRef loaded))%nat ->
  Forall (fun u => u - now < durationMs) before ->
  durationMs <= t - now ->
  durationMs == 90 * 1000
  /\ rawProgress (t - now) == 1
  /\ exists final s1 s2,
       JsArray.lastOpt (pathDataRef loaded) = Some final
       /\ runFrames before run = inr s1
       /\ completions s1 = completions s0
       /\ runFrame t s1 = inr s2
       /\ (exists icon,
              vehicleMarkerRef s2 =
                Some (mkMarker (latLng (pp_lat final) (pp_lng final)) icon))
       /\ completions s2 = S (completions s0)
       /\ pendingFrames s2 = []
       /\ isAnimatingRef s2 = false
       /\ (forall later, runFrames later s2 = inr s2).
Proof.
  intros Htracked loaded run Hlen Hbefore Hdone.
  split; [reflexivity|].
  split; [apply rawProgress_done; exact Hdone|].
  destruct (setupRoute_loaded distanceTo fitBoundsView rd s0 Htracked)
    as (_ & _ & Lp & Ln & Lc & La & _ & Lr).
  fold loaded in Lp, Ln, Lc, La, Lr.
  destruct (animationEffect_starts now loaded)
    as (Rplay & Rt & _ & Rd & _ & Rc & _); auto.
  { apply Lr. lia. }
  { rewrite Ln. apply Htracked. }
  fold run in Rplay, Rt, Rd, Rc.
  destruct (runFrames_running_keep before run Rplay)
    as (s1 & E1 & P1 & T1 & D1 & _ & _ & K1).
  { rewrite Rt. exact Hbefore. }
  destruct (runFrame_final t s1 P1) as (final & Hfinal & E2).
  { rewrite T1, Rt. exact Hdone. }
  exists final. eexists s1. eexists.
  split; [rewrite <- Rd, <- D1; exact Hfinal|].
  split; [exact E1|]. split; [congruence|]. split; [exact E2|].
  destruct P1 as (Hready & _).
  destruct (frameStart_fields s1)
    as (F1 & _ & _ & _ & _ & _ & F7 & F8 & _).
  assert (Hu := updateMapState_frame final true false
                  (latLng (pp_lat final) (pp_lng final))
                  FOLLOW_ZOOM_LEVEL (frameStart s1)).
  rewrite F1 in Hu. specialize (Hu Hready). cbv zeta in Hu.
  destruct Hu as (_ & _ & _ & _ & _ & _ & _ & U8 & _ & U10 & Um & _).
  rewrite F8 in U8. rewrite F7 in U10.
  remember (updateMapState final true false
              (latLng (pp_lat final) (pp_lng final))
              FOLLOW_ZOOM_LEVEL (frameStart s1)) as u eqn:Eu.
  clear Eu E2.
  assert (Hp : pendingFrames (set_isAnimating false (onAnimationComplete u))
               = [])
    by (destruct u; simpl in *; assumption).
  split; [destruct u; simpl in *; exact Um|].
  split; [destruct u; simpl in *; congruence|].
  split; [exact Hp|].
  split; [destruct u; reflexivity|].
  intro later. apply runFrames_idle. exact Hp.
Qed.

(** C3 on the sample route: two frames under way, then the frame at 90 s. *)
Lemma C3_witness :
  durationMs == 90 * 1000
  /\ rawProgress (91000 - 1000) == 1
  /\ exists final s1 s2,
       JsArray.lastOpt (pathDataRef sampleLoaded) = Some final
       /\ runFrames [23500; 68500] samplePlaying = inr s1
       /\ completions s1 = 0%nat
       /\ runFrame 91000 s1 = inr s2
       /\ (exists icon,
              vehicleMarkerRef s2 =
                Some (mkMarker (latLng (pp_lat final) (pp_lng final)) icon))
       /\ completions s2 = 1%nat
       /\ pendingFrames s2 = []
       /\ isAnimatingRef s2 = false
       /\ (forall later, runFrames later s2 = inr s2).
Proof.
  apply (C3_completion gridDistance keepView sampleRoute
           (initialState (mkView (at_grid 5 5) 5)) 1000 [23500; 68500] 91000).
  - split; [reflexivity | left; reflexivity].
  - vm_compute. lia.
  - repeat constructor.
  - vm_compute. discriminate.
Defined.

(** C5.  On a frame of a run before the clock runs out, the vehicle is put
    at the position interpolated for the target distance
    [totalDistance * min (elapsed / durationMs) 1], where [durationMs] is the
    constant 90 000 ms whatever the route; the target is linear in elapsed
    time (no easing of position). *)
Theorem C5_linear_clock (s : MapState) (time : Q) :
  playing s ->
  time - startTimeRef s < durationMs ->
  let elapsed := time - startTimeRef s in
  durationMs == 90000
  /\ rawProgress elapsed = Qmin (elapsed / (90 * 1000)) 1
  /\ totalDistanceRef s * rawProgress elapsed
     == totalDistanceRef s * elapsed / 90000
  /\ exists r s',
       interpolate (pathDataRef s)
         (totalDistanceRef s * Qmin (elapsed / (90 * 1000)) 1) = inr r
       /\ runFrame time s = inr s'
       /\ (exists icon,
              vehicleMarkerRef s' =
                Some (mkMarker (latLng (i_lat r) (i_lng r)) icon))
       /\ center (mapView s') = latLng (i_lat r) (i_lng r).
Proof.
  intros Hplay Hrun elapsed.
  split; [reflexivity|]. split; [reflexivity|].
  split.
  { rewrite (rawProgress_linear elapsed) by (unfold elapsed; lra).
    unfold Qdiv. ring. }
  destruct (runFrame_running time s Hplay Hrun) as (r & Er & E).
  cbv zeta in E. exists r. eexists.
  split; [exact Er|]. split; [exact E|].
  destruct Hplay as (Hready & _).
  destruct (frameStart_fields s) as (F1 & _).
  match goal with
  | |- context [requestAnimationFrame ?u'] => remember u' as u eqn:Eu
  end.
  assert (Hu := updateMapState_frame
                  (mkPathPoint (i_lat r) (i_lng r) (i_mode r)
                     (totalDistanceRef s * rawProgress (time - startTimeRef s)))
                  false (isFlipped r) (latLng (i_lat r) (i_lng r))
                  (currentZoom (startZoomRef s) (time - startTimeRef s))
                  (frameStart s)).
  rewrite F1 in Hu. specialize (Hu Hready). cbv zeta in Hu.
  rewrite <- Eu in Hu.
  destruct Hu as (_ & _ & _ & _ & _ & _ & _ & _ & _ & _ & Um & _ & _ & Uv).
  clear Eu E. destruct u; simpl in *. rewrite Uv. split; [exact Um|].
  reflexivity.
Qed.

Lemma samplePlaying_playing : playing samplePlaying.
Proof.
  unfold playing. split; [reflexivity|]. split; [vm_compute; lia|].
  split; [reflexivity|]. split; [reflexivity|]. discriminate.
Qed.

(** C5 on the sample run, a quarter of the way through. *)
Lemma C5_witness :
  let s := samplePlaying in
  let elapsed := 23500 - startTimeRef s in
  durationMs == 90000
  /\ rawProgress elapsed = Qmin (elapsed / (90 * 1000)) 1
  /\ totalDistanceRef s * rawProgress elapsed
     == totalDistanceRef s * elapsed / 90000
  /\ exists r s',
       interpolate (pathDataRef s)
         (totalDistanceRef s * Qmin (elapsed / (90 * 1000)) 1) = inr r
       /\ runFrame 23500 s = inr s'
       /\ (exists icon,
              vehicleMarkerRef s' =
                Some (mkMarker (latLng (i_lat r) (i_lng r)) icon))
       /\ center (mapView s') = latLng (i_lat r) (i_lng r).
Proof.
  apply (C5_linear_clock samplePlaying 23500).
  - exact samplePlaying_playing.
  - vm_compute. reflexivity.
Defined.

(** The zoom [animate] computes for a frame: the start zoom at elapsed
    time 0, the cubic ease-out below 3000 ms, the follow zoom from 3000 ms
    on. *)
Lemma currentZoom_cases (startZoom t : Q) :
  (t == 0 -> currentZoom startZoom t == startZoom)
  /\ (t < 3000 ->
      currentZoom startZoom t ==
        startZoom + (FOLLOW_ZOOM_LEVEL - startZoom) * (1 - (1 - t / 3000) ^ 3))
  /\ (3000 <= t -> currentZoom startZoom t = FOLLOW_ZOOM_LEVEL).
Proof.
  assert (Hlow : t < 3000 ->
                 currentZoom startZoom t ==
                   startZoom
                   + (FOLLOW_ZOOM_LEVEL - startZoom)
                     * (1 - (1 - t / 3000) ^ 3)).
  { intro H. unfold currentZoom.
    rewrite (proj2 (Qltb_true_iff t zoomDuration)) by exact H.
    reflexivity. }
  split; [|split].
  - intro E. rewrite Hlow by (rewrite E; reflexivity).
    assert (X : 1 - t / 3000 == 1) by (rewrite E; reflexivity).
    rewrite X. setoid_replace (1 ^ 3) with 1 by reflexivity. ring.
  - exact Hlow.
  - intro H. unfold currentZoom.
    rewrite (proj2 (Qltb_false_iff t zoomDuration)) by exact H.
    reflexivity.
Qed.

(** On a frame before the clock runs out the camera is given that zoom. *)
Lemma runFrame_camera (s : MapState) (time : Q) :
  playing s ->
  time - startTimeRef s < durationMs ->
  exists s',
    runFrame time s = inr s'
    /\ zoom (mapView s')
       = currentZoom (startZoomRef s) (time - startTimeRef s).
Proof.
  intros Hplay Hrun.
  destruct (runFrame_running time s Hplay Hrun) as (r & Er & E).
  cbv zeta in E. eexists. split; [exact E|].
  destruct Hplay as (Hready & _).
  destruct (frameStart_fields s) as (F1 & _).
  match goal with
  | |- context [requestAnimationFrame ?u'] => remember u' as u eqn:Eu
  end.
  assert (Hu := updateMapState_frame
                  (mkPathPoint (i_lat r) (i_lng r) (i_mode r)
                     (totalDistanceRef s * rawProgress (time - startTimeRef s)))
                  false (isFlipped r) (latLng (i_lat r) (i_lng r))
                  (currentZoom (startZoomRef s) (time - startTimeRef s))
                  (frameStart s)).
  rewrite F1 in Hu. specialize (Hu Hready). cbv zeta in Hu.
  rewrite <- Eu in Hu.
  destruct Hu as (_ & _ & _ & _ & _ & _ & _ & _ & _ & _ & _ & _ & _ & Uv).
  clear Eu E. destruct u; simpl in *. rewrite Uv. reflexivity.
Qed.

(** The frame on which the duration has elapsed leaves the camera alone. *)
Lemma runFrame_final_camera (s : MapState) (time : Q) :
  playing s ->
  durationMs <= time - startTimeRef s ->
  exists s', runFrame time s = inr s' /\ mapView s' = mapView s.
Proof.
  intros Hplay Hdone.
  destruct (runFrame_final time s Hplay Hdone) as (final & _ & E).
  eexists. split; [exact E|].
  destruct Hplay as (Hready & _).
  destruct (frameStart_fields s) as (F1 & _).
  assert (Hu := updateMapState_frame final true false
                  (latLng (pp_lat final) (pp_lng final))
                  FOLLOW_ZOOM_LEVEL (frameStart s)).
  rewrite F1 in Hu. specialize (Hu Hready). cbv zeta in Hu.
  destruct Hu as (_ & _ & _ & _ & _ & _ & _ & _ & _ & _ & _ & _ & _ & Uv).
  remember (updateMapState final true false
              (latLng (pp_lat final) (pp_lng final))
              FOLLOW_ZOOM_LEVEL (frameStart s)) as u eqn:Eu.
  clear Eu E.
  assert (Hv : mapView (frameStart s) = mapView s)
    by (destruct s; reflexivity).
  destruct u; simpl in *. congruence.
Qed.

(** The claim C6 as worded fails on the sample run: the only frame before
    the terminal one comes 1500 ms after the start, the terminal frame does
    not touch the camera, and so at an elapsed time of 90 s, well past
    3000 ms, the zoom of the camera is not the follow zoom. *)
Lemma C6_counterexample :
  exists s1 s2,
    runFrames [2500] samplePlaying = inr s1
    /\ runFrame 91000 s1 = inr s2
    /\ 3000 <= 91000 - startTimeRef s1
    /\ ~ zoom (mapView s2) == FOLLOW_ZOOM_LEVEL.
Proof.
  eexists. eexists.
  split; [vm_compute; reflexivity|].
  split; [vm_compute; reflexivity|].
  split; vm_compute; discriminate.
Qed.

(** C6, amended.  A route is loaded and played at [now]; the start zoom is
    the zoom of the map at that moment.  After any frames before the
    duration has elapsed, a frame at elapsed time [t - now] asks the map for
    a zoom only while the duration (90 s) has not elapsed: the start zoom at
    elapsed 0, [startZoom + (followZoom - startZoom) * (1 - (1 - e/3000)^3)]
    for an elapsed [e] below 3000 ms, the follow zoom 10 exactly from
    3000 ms on.  Once the duration has elapsed the frame leaves the camera
    as it was. *)
Theorem C6_requested_zoom (distanceTo : LatLng -> LatLng -> Q)
    (fitBoundsView : Coordinates -> Coordinates -> View -> View)
    (rd : RouteData) (s0 : MapState) (now : Q) (before : list Q) (t : Q) :
  framesTracked s0 ->
  let loaded := setupRoute distanceTo fitBoundsView (Some rd) s0 in
  let run := animationEffect true now loaded in
  let startZoom := zoom (mapView loaded) in
  let elapsed := t - now in
  (2 <= length (pathDataRef loaded))%nat ->
  Forall (fun u => u - now < durationMs) before ->
  exists s1 s2,
    runFrames before run = inr s1
    /\ runFrame t s1 = inr s2
    /\ startZoomRef s1 = startZoom
    /\ (elapsed < durationMs ->
        (elapsed == 0 -> zoom (mapView s2) == startZoom)
        /\ (elapsed < 3000 ->
            zoom (mapView s2) ==
              startZoom
              + (FOLLOW_ZOOM_LEVEL - startZoom)
                * (1 - (1 - elapsed / 3000) ^ 3))
        /\ (3000 <= elapsed -> zoom (mapView s2) = FOLLOW_ZOOM_LEVEL))
    /\ (durationMs <= elapsed -> mapView s2 = mapView s1)
    /\ FOLLOW_ZOOM_LEVEL = 10.
Proof.
  intros Htracked loaded run startZoom elapsed Hlen Hbefore.
  destruct (setupRoute_loaded distanceTo fitBoundsView rd s0 Htracked)
    as (_ & _ & Lp & Ln & _ & La & _ & Lr).
  fold loaded in Lp, Ln, La, Lr.
  destruct (animationEffect_starts now loaded)
    as (Rplay & Rt & Rz & _); auto.
  { apply Lr. lia. }
  { rewrite Ln. apply Htracked. }
  fold run in Rplay, Rt, Rz.
  destruct (runFrames_running_keep before run Rplay)
    as (s1 & E1 & P1 & T1 & _ & _ & Z1 & _).
  { rewrite Rt. exact Hbefore. }
  assert (Hz : startZoomRef s1 = startZoom)
    by (unfold startZoom; congruence).
  assert (He : t - startTimeRef s1 = elapsed)
    by (unfold elapsed; congruence).
  destruct (Qlt_le_dec (t - startTimeRef s1) durationMs) as [Hrun | Hdone].
  - destruct (runFrame_camera s1 t P1 Hrun) as (s2 & E2 & Hzoom).
    rewrite Hz, He in Hzoom.
    exists s1, s2. split; [exact E1|]. split; [exact E2|].
    split; [exact Hz|]. split; [|split; [|reflexivity]].
    + intros _. rewrite Hzoom.
      apply (currentZoom_cases startZoom elapsed).
    + intro Hd. rewrite He in Hrun. lra.
  - destruct (runFrame_final_camera s1 t P1 Hdone) as (s2 & E2 & Hview).
    exists s1, s2. split; [exact E1|]. split; [exact E2|].
    split; [exact Hz|]. split; [|split; [|reflexivity]].
    + intro Hd. rewrite He in Hdone. lra.
    + intros _. exact Hview.
Qed.

(** C6, amended, on the sample run (start zoom 5, played at 1000 ms): the
    first frame, 1500 ms in, asks for the eased zoom; a frame 3500 ms in
    asks for the follow zoom. *)
Lemma C6_witness :
  (exists s1 s2,
      runFrames [] samplePlaying = inr s1
      /\ runFrame 2500 s1 = inr s2
      /\ zoom (mapView s2) ==
           5 + (FOLLOW_ZOOM_LEVEL - 5) * (1 - (1 - 1500 / 3000) ^ 3))
  /\ (exists s1 s2,
         runFrames [2500] samplePlaying = inr s1
         /\ runFrame 4500 s1 = inr s2
         /\ zoom (mapView s2) = FOLLOW_ZOOM_LEVEL).
Proof.
  split.
  - destruct (C6_requested_zoom gridDistance keepView sampleRoute
                (initialState (mkView (at_grid 5 5) 5)) 1000 [] 2500)
      as (s1 & s2 & E1 & E2 & _ & H & _).
    + split; [reflexivity | left; reflexivity].
    + vm_compute. lia.
    + constructor.
    + exists s1, s2. split; [exact E1|]. split; [exact E2|].
      destruct H as (_ & H & _); [vm_compute; reflexivity|].
      apply H. vm_compute. reflexivity.
  - destruct (C6_requested_zoom gridDistance keepView sampleRoute
                (initialState (mkView (at_grid 5 5) 5)) 1000 [2500] 4500)
      as (s1 & s2 & E1 & E2 & _ & H & _).
    + split; [reflexivity | left; reflexivity].
    + vm_compute. lia.
    + repeat constructor.
    + exists s1, s2. split; [exact E1|]. split; [exact E2|].
      destruct H as (_ & _ & H); [vm_compute; reflexivity|].
      apply H. vm_compute. discriminate.
Defined.

(** C9.  With fewer than two PathPoints a request to play is dropped: the
    effect only cancels the tracked frame and marks the component as not
    animating; nothing is pending afterwards, so no frame ever runs
    [animate] and later frames leave the state as it is, without a fault. *)
Theorem C9_degenerate_route_ignored (s : MapState) (now : Q) :
  framesTracked s ->
  (length (pathDataRef s) < 2)%nat ->
  let s' := animationEffect true now s in
  s' = set_isAnimating false (set_pendingFrames [] s)
  /\ pendingFrames s' = []
  /\ isAnimatingRef s' = false
  /\ (forall times, runFrames times s' = inr s').
Proof.
  intros Htracked Hlen s'.
  assert (E : s' = set_isAnimating false (set_pendingFrames [] s)).
  { unfold s', animationEffect. simpl negb. rewrite orb_false_l.
    replace (length (pathDataRef s) <? 2)%nat with true
      by (symmetry; apply Nat.ltb_lt; exact Hlen).
    rewrite (cancelPendingFrame_clears s Htracked). reflexivity. }
  assert (Hp : pendingFrames s' = []) by (rewrite E; destruct s; reflexivity).
  split; [exact E|]. split; [exact Hp|].
  split; [rewrite E; destruct s; reflexivity|].
  intro times. apply runFrames_idle. exact Hp.
Qed.

(** C9 on a single-point route. *)
Lemma C9_witness :
  let s' := animationEffect true 1000 singlePointLoaded in
  s' = set_isAnimating false (set_pendingFrames [] singlePointLoaded)
  /\ pendingFrames s' = []
  /\ isAnimatingRef s' = false
  /\ (forall times, runFrames times s' = inr s').
Proof.
  apply (C9_degenerate_route_ignored singlePointLoaded 1000).
  - split; [reflexivity | left; reflexivity].
  - vm_compute. lia.
Defined.

(** ** Claims on the trail *)

(** [updateMapState] when the mode of the point differs from the recorded
    one: the live points are frozen under the previous mode's colour (unless
    there are none), the live polyline restarts at the new position in the
    new mode's colour, and step 3 then appends the position once more. *)
Lemma updateMapState_mode_change (point : PathPoint) (isFinal flipped : bool)
    (pos : LatLng) (z : Q) (s : MapState) (layer : list Polyline) :
  layersReady s = true ->
  finishedSegmentsLayerRef s = Some layer ->
  pp_mode point <> prevModeRef s ->
  let s' := updateMapState point isFinal flipped pos z s in
  finishedSegmentsLayerRef s' =
    Some (match currentSegmentPointsRef s with
          | [] => layer
          | _ :: _ =>
              layer ++ [mkPolyline (currentSegmentPointsRef s)
                          (COLORS (prevModeRef s))]
          end)
  /\ currentSegmentPointsRef s' = [pos; pos]
  /\ currentSegmentPolylineRef s' =
       Some (mkPolyline [pos; pos] (COLORS (pp_mode point)))
  /\ prevModeRef s' = pp_mode point
  /\ vehicleMarkerRef s' =
       Some (mkMarker pos (createLeafletIcon (pp_mode point) flipped)).
Proof.
  intros Hready Hlayer Hmode.
  destruct (layersReady_inv s Hready) as (m & poly & layer' & Hm & Hp & Hl).
  apply TransportMode_eqb_neq in Hmode.
  rewrite Hlayer in Hl. inversion Hl; subst layer'. clear Hl.
  destruct s; simpl in *; subst.
  unfold updateMapState; simpl. rewrite Hmode. simpl.
  destruct currentSegmentPointsRef0 as [|x xs]; simpl;
    (destruct (Bool.eqb flipped prevFlippedRef0) eqn:Ef; simpl);
    (destruct isFinal; simpl);
    repeat split; reflexivity.
Qed.

(** The claim C2 as worded fails on the sample run: the second frame is in
    the train leg while the recorded mode is still [CAR]; after it the live
    polyline holds two points, not the single new position. *)
Lemma C2_counterexample :
  exists s r s',
    runFrame 23500 samplePlaying = inr s
    /\ interpolate (pathDataRef s)
         (totalDistanceRef s * rawProgress (68500 - startTimeRef s)) = inr r
    /\ i_mode r <> prevModeRef s
    /\ runFrame 68500 s = inr s'
    /\ currentSegmentPointsRef s' <> [latLng (i_lat r) (i_lng r)]
    /\ length (currentSegmentPointsRef s') = 2%nat.
Proof.
  eexists. eexists. eexists.
  split; [vm_compute; reflexivity|].
  split; [vm_compute; reflexivity|].
  split; [vm_compute; discriminate|].
  split; [vm_compute; reflexivity|].
  split; [vm_compute; discriminate | reflexivity].
Qed.

(** C2, amended.  On a frame of a run on which the interpolated mode
    differs from the recorded one, the live points are frozen as a finished
    segment in the previous mode's colour (nothing is frozen when there are
    none); after the frame the live polyline is in the new mode's colour and
    holds the new interpolated position and nothing else, twice: once from
    the restart and once from the append that every frame performs. *)
Theorem C2_mode_change_freezes_and_restarts (s : MapState) (time : Q)
    (r : Interpolated) :
  playing s ->
  time - startTimeRef s < durationMs ->
  interpolate (pathDataRef s)
    (totalDistanceRef s * rawProgress (time - startTimeRef s)) = inr r ->
  i_mode r <> prevModeRef s ->
  let pos := latLng (i_lat r) (i_lng r) in
  exists s' layer,
    runFrame time s = inr s'
    /\ finishedSegmentsLayerRef s = Some layer
    /\ finishedSegmentsLayerRef s' =
         Some (match currentSegmentPointsRef s with
               | [] => layer
               | _ :: _ =>
                   layer ++ [mkPolyline (currentSegmentPointsRef s)
                               (COLORS (prevModeRef s))]
               end)
    /\ currentSegmentPointsRef s' = [pos; pos]
    /\ currentSegmentPolylineRef s' =
         Some (mkPolyline [pos; pos] (COLORS (i_mode r)))
    /\ prevModeRef s' = i_mode r
    /\ vehicleMarkerRef s' =
         Some (mkMarker pos (createLeafletIcon (i_mode r) (isFlipped r))).
Proof.
  intros Hplay Hrun Er Hmode pos.
  destruct (runFrame_running time s Hplay Hrun) as (r' & Er' & E).
  rewrite Er in Er'. inversion Er'; subst r'. clear Er'.
  cbv zeta in E.
  destruct Hplay as (Hready & _).
  destruct (layersReady_inv s Hready) as (m & poly & layer & Hm & Hp & Hl).
  eexists. exists layer. split; [exact E|]. split; [exact Hl|].
  destruct (frameStart_fields s)
    as (F1 & _ & _ & _ & _ & _ & _ & _ & F9 & F10 & F11 & _).
  match goal with
  | |- context [requestAnimationFrame ?u'] => remember u' as u eqn:Eu
  end.
  assert (Hu := updateMapState_mode_change
                  (mkPathPoint (i_lat r) (i_lng r) (i_mode r)
                     (totalDistanceRef s * rawProgress (time - startTimeRef s)))
                  false (isFlipped r) pos
                  (currentZoom (startZoomRef s) (time - startTimeRef s))
                  (frameStart s) layer).
  rewrite F1, F9, F10, F11 in Hu.
  specialize (Hu Hready Hl Hmode). cbv zeta in Hu.
  fold pos in Eu. rewrite <- Eu in Hu. simpl pp_mode in Hu.
  destruct Hu as (U1 & U2 & U3 & U4 & U5).
  clear Eu E. destruct u; simpl in *. repeat split; assumption.
Qed.

(** C2, amended, on the sample run: the second frame enters the train leg. *)
Lemma C2_witness :
  exists r,
    interpolate (pathDataRef sampleAfterFirstFrame)
      (totalDistanceRef sampleAfterFirstFrame
       * rawProgress (68500 - startTimeRef sampleAfterFirstFrame)) = inr r
    /\ let pos := latLng (i_lat r) (i_lng r) in
       exists s' layer,
         runFrame 68500 sampleAfterFirstFrame = inr s'
         /\ finishedSegmentsLayerRef sampleAfterFirstFrame = Some layer
         /\ finishedSegmentsLayerRef s' =
              Some (match currentSegmentPointsRef sampleAfterFirstFrame with
                    | [] => layer
                    | _ :: _ =>
                        layer
                        ++ [mkPolyline
                              (currentSegmentPointsRef sampleAfterFirstFrame)
                              (COLORS (prevModeRef sampleAfterFirstFrame))]
                    end)
         /\ currentSegmentPointsRef s' = [pos; pos]
         /\ currentSegmentPolylineRef s' =
              Some (mkPolyline [pos; pos] (COLORS (i_mode r)))
         /\ prevModeRef s' = i_mode r
         /\ vehicleMarkerRef s' =
              Some (mkMarker pos
                      (createLeafletIcon (i_mode r) (isFlipped r))).
Proof.
  eexists. split.
  - vm_compute. reflexivity.
  - apply (C2_mode_change_freezes_and_restarts sampleAfterFirstFrame 68500).
    + unfold playing. split; [reflexivity|]. split; [vm_compute; lia|].
      split; [reflexivity|]. split; [reflexivity|]. vm_compute. discriminate.
    + vm_compute. reflexivity.
    + vm_compute. reflexivity.
    + vm_compute. discriminate.
Defined.

(** * Further properties *)

(** ** The path builder: nothing is dropped, merged or reordered *)

Lemma pushLeg_places (distanceTo : LatLng -> LatLng -> Q)
    (acc : list PathPoint * Q) (leg : RouteLeg) :
  map placeAndMode (fst (pushLeg distanceTo acc leg))
  = map placeAndMode (fst acc) ++ legPlacesAndModes leg.
Proof.
  unfold pushLeg, legPlacesAndModes. generalize (mode leg) as m.
  generalize dependent acc.
  induction (coordinates leg) as [|c cs IH]; intros acc m; simpl.
  - now rewrite app_nil_r.
  - rewrite IH. destruct acc as [points currentDist]. simpl.
    rewrite map_app, <- app_assoc. reflexivity.
Qed.

Lemma fold_pushLeg_places (distanceTo : LatLng -> LatLng -> Q)
    (ls : list RouteLeg) (acc : list PathPoint * Q) :
  map placeAndMode (fst (fold_left (pushLeg distanceTo) ls acc))
  = map placeAndMode (fst acc) ++ flat_map legPlacesAndModes ls.
Proof.
  generalize dependent acc.
  induction ls as [|leg ls IH]; intro acc; simpl.
  - now rewrite app_nil_r.
  - rewrite IH, pushLeg_places, <- app_assoc. reflexivity.
Qed.

Lemma buildPath_places (distanceTo : LatLng -> LatLng -> Q)
    (ls : list RouteLeg) :
  map placeAndMode (fst (buildPath distanceTo ls))
  = flat_map legPlacesAndModes ls.
Proof. unfold buildPath. now rewrite fold_pushLeg_places. Qed.

Lemma buildPath_length (distanceTo : LatLng -> LatLng -> Q)
    (ls : list RouteLeg) :
  length (fst (buildPath distanceTo ls)) = length (flat_map coordinates ls).
Proof.
  pose proof (buildPath_places distanceTo ls) as E.
  apply (f_equal (@length _)) in E. rewrite length_map in E. rewrite E.
  clear E. induction ls as [|leg ls IH]; simpl; [reflexivity|].
  rewrite !length_app, IH. unfold legPlacesAndModes.
  now rewrite length_map.
Qed.

(** The path is the concatenation of the legs' coordinates, in order, each
    point tagged with the mode of its leg: a point shared by two legs is
    kept twice, and the path has as many points as the legs have
    coordinates. *)
Theorem buildPath_keeps_every_coordinate
    (distanceTo : LatLng -> LatLng -> Q) (ls : list RouteLeg) :
  map placeAndMode (fst (buildPath distanceTo ls))
  = flat_map legPlacesAndModes ls
  /\ length (fst (buildPath distanceTo ls))
     = length (flat_map coordinates ls).
Proof.
  split; [apply buildPath_places | apply buildPath_length].
Qed.

Lemma buildPath_total_facts
    (distanceTo : LatLng -> LatLng -> Q) (ls : list RouteLeg) :
  (forall a b, 0 <= distanceTo a b) ->
  let path := fst (buildPath distanceTo ls) in
  let total := snd (buildPath distanceTo ls) in
  (path = [] -> total == 0)
  /\ (forall final, JsArray.lastOpt path = Some final ->
                    cumulativeDistance final == total)
  /\ 0 <= total.
Proof.
  intros Hnn path total.
  destruct (buildPath_inv distanceTo ls) as (Hch & H0 & Hl).
  fold path in Hch, H0, Hl. fold total in Hl.
  split; [|split].
  - intro E. rewrite E in Hl. simpl in Hl. exact Hl.
  - intros final Hf. rewrite Hf in Hl. exact Hl.
  - destruct (JsArray.lastOpt path) as [final|] eqn:Hf; [|lra].
    destruct (lastOpt_nth _ _ Hf) as [Hn Hlen].
    destruct (nth_error_in_range path 0) as [p0 Hp0]; [lia|].
    pose proof (chained_monotone distanceTo Hnn path Hch 0%nat
                  (length path - 1)%nat p0 final (Nat.le_0_l _) Hp0 Hn).
    pose proof (H0 p0 Hp0). lra.
Qed.

(** The total handed to the clock is the cumulative distance of the last
    point, 0 for an empty path, and is never negative when distances are
    not. *)
Theorem buildPath_total_is_last_cumulative
    (distanceTo : LatLng -> LatLng -> Q) (ls : list RouteLeg) :
  (forall a b, 0 <= distanceTo a b) ->
  let path := fst (buildPath distanceTo ls) in
  let total := snd (buildPath distanceTo ls) in
  (path = [] -> total == 0)
  /\ (forall final, JsArray.lastOpt path = Some final ->
                    cumulativeDistance final == total)
  /\ 0 <= total.
Proof. exact (buildPath_total_facts distanceTo ls). Qed.

Lemma buildPath_total_is_last_cumulative_witness :
  (samplePath = [] -> snd (buildPath gridDistance sampleLegs) == 0)
  /\ (forall final, JsArray.lastOpt samplePath = Some final ->
                    cumulativeDistance final
                    == snd (buildPath gridDistance sampleLegs))
  /\ 0 <= snd (buildPath gridDistance sampleLegs).
Proof.
  exact (buildPath_total_is_last_cumulative gridDistance sampleLegs
           gridDistance_nonneg).
Defined.

(** ** The interpolator: when it is defined, and where it looks *)

(** Interpolation needs two points: on a shorter path the segment lookup
    reads past the array and faults (which the guard of the animation effect
    prevents); on a path of two or more points it succeeds for every target,
    on two consecutive points whose end index is between 1 and the last
    index. *)
Theorem interpolate_defined_iff_two_points (path : list PathPoint) (d : Q) :
  ((length path < 2)%nat -> interpolate path d = inl UndefinedAccess)
  /\ ((2 <= length path)%nat ->
      exists r n,
        interpolate path d = inr r
        /\ nextIdx r = Z.of_nat (S n) /\ (S n < length path)%nat
        /\ nth_error path n = Some (p1 r)
        /\ nth_error path (S n) = Some (p2 r)).
Proof.
  split.
  - intro Hlen. destruct path as [|a [|b rest]]; [| |simpl in Hlen; lia].
    + reflexivity.
    + unfold interpolate, findSegment, JsArray.findIndex. simpl.
      destruct (Qle_bool d (cumulativeDistance a)); reflexivity.
  - intro Hlen.
    destruct (findSegment_cases path d Hlen) as (n & a & b & E & Ha & Hb & _).
    eexists. exists n.
    split; [apply (interpolate_on_segment _ _ _ _ _ E Ha Hb)|]. simpl.
    repeat split; auto.
    apply nth_error_Some. congruence.
Qed.

Lemma interpolate_defined_iff_two_points_witness :
  interpolate [mkPathPoint 0 0 CAR 0] 0 = inl UndefinedAccess
  /\ exists r n,
       interpolate samplePath (1 # 2) = inr r
       /\ nextIdx r = Z.of_nat (S n) /\ (S n < length samplePath)%nat
       /\ nth_error samplePath n = Some (p1 r)
       /\ nth_error samplePath (S n) = Some (p2 r).
Proof.
  split.
  - apply (interpolate_defined_iff_two_points [mkPathPoint 0 0 CAR 0] 0).
    simpl. lia.
  - apply (interpolate_defined_iff_two_points samplePath (1 # 2)).
    vm_compute. lia.
Defined.

Lemma findIndexFrom_bounds {A} (f : A -> bool) (l : list A) (i : Z) :
  JsArray.findIndexFrom f l i = (-1)%Z
  \/ (i <= JsArray.findIndexFrom f l i < i + Z.of_nat (length l))%Z.
Proof.
  destruct (findIndexFrom_cases f l i) as [[E _] | (n & x & E & Hn & _)].
  - now left.
  - right. rewrite E.
    assert (n < length l)%nat by (apply nth_error_Some; congruence). lia.
Qed.

(** A weaker test is passed no later than a stronger one. *)
Lemma findIndexFrom_weaker {A} (f g : A -> bool) (l : list A) (i : Z) :
  (forall x, g x = true -> f x = true) ->
  JsArray.findIndexFrom g l i <> (-1)%Z ->
  (0 <= i)%Z ->
  (i <= JsArray.findIndexFrom f l i <= JsArray.findIndexFrom g l i)%Z.
Proof.
  intro Himp. revert i. induction l as [|a l IH]; intros i Hg Hi; simpl in *.
  - congruence.
  - destruct (f a) eqn:Fa.
    + destruct (g a); [lia|].
      destruct (findIndexFrom_bounds g l (i + 1)) as [E | B]; [congruence|].
      lia.
    + destruct (g a) eqn:Ga.
      * apply Himp in Ga. congruence.
      * specialize (IH (i + 1)%Z Hg). lia.
Qed.

(** The selected segment never moves backward as the target grows. *)
Theorem findSegment_monotone (path : list PathPoint) (d1 d2 : Q) :
  d1 <= d2 -> (findSegment path d1 <= findSegment path d2)%Z.
Proof.
  intro Hd. unfold findSegment, JsArray.findIndex.
  set (f := fun p => Qle_bool d1 (cumulativeDistance p)).
  set (g := fun p => Qle_bool d2 (cumulativeDistance p)).
  assert (Himp : forall x, g x = true -> f x = true).
  { intros x Hx. unfold f, g in *. apply Qle_bool_iff in Hx.
    apply Qle_bool_iff. lra. }
  destruct (Z.eq_dec (JsArray.findIndexFrom g path 0) (-1)) as [Eg | Ng].
  - rewrite Eg. simpl (-1 =? -1)%Z.
    destruct (findIndexFrom_bounds f path 0) as [Ef | Bf].
    + rewrite Ef. apply Z.le_refl.
    + destruct (Z.eqb_spec (JsArray.findIndexFrom f path 0) (-1)); [lia|].
      destruct (Z.eqb_spec (JsArray.findIndexFrom f path 0) 0);
        destruct (Z.eqb_spec (Z.of_nat (length path) - 1) 0); lia.
  - pose proof (findIndexFrom_weaker f g path 0 Himp Ng (Z.le_refl 0)) as B.
    destruct (Z.eqb_spec (JsArray.findIndexFrom f path 0) (-1)); [lia|].
    destruct (Z.eqb_spec (JsArray.findIndexFrom g path 0) (-1)); [lia|].
    destruct (Z.eqb_spec (JsArray.findIndexFrom f path 0) 0);
      destruct (Z.eqb_spec (JsArray.findIndexFrom g path 0) 0); lia.
Qed.

Lemma findSegment_monotone_witness :
  (findSegment samplePath (1 # 2) <= findSegment samplePath (3 # 2))%Z.
Proof.
  apply (findSegment_monotone samplePath (1 # 2) (3 # 2)).
  vm_compute. discriminate.
Defined.

Section EndsOfThePath.

Variable distanceTo : LatLng -> LatLng -> Q.
Hypothesis distanceTo_nonneg : forall a b, 0 <= distanceTo a b.
Hypothesis distanceTo_pos :
  forall a b, distinct_place a b -> 0 < distanceTo a b.

(** Two points of a chained path with the same cumulative distance are at
    the same place. *)
Lemma same_place_of_equal_cumulative (points : list PathPoint) :
  chained distanceTo points ->
  forall j i p q,
    (i <= j)%nat ->
    nth_error points i = Some p -> nth_error points j = Some q ->
    cumulativeDistance p == cumulativeDistance q ->
    pp_lat p == pp_lat q /\ pp_lng p == pp_lng q.
Proof.
  intros Hch j. induction j as [|j IH]; intros i p q Hij Hp Hq Hc.
  - assert (i = 0)%nat by lia. subst i.
    rewrite Hp in Hq. inversion Hq. split; reflexivity.
  - destruct (Nat.eq_dec i (S j)) as [-> | Hne].
    + rewrite Hp in Hq. inversion Hq. split; reflexivity.
    + destruct (nth_error_in_range points j) as [m Hm].
      { assert (S j < length points)%nat
          by (apply nth_error_Some; congruence). lia. }
      assert (Hij' : (i <= j)%nat) by lia.
      pose proof (chained_monotone distanceTo distanceTo_nonneg points Hch
                    i j p m Hij' Hp Hm) as M1.
      pose proof (chained_monotone distanceTo distanceTo_nonneg points Hch
                    j (S j) m q (Nat.le_succ_diag_r j) Hm Hq) as M2.
      destruct (IH i p m Hij' Hp Hm) as [La Lo]; [lra|].
      pose proof (Hch j m q Hm Hq) as E.
      destruct (Qeq_dec (pp_lat m) (pp_lat q)) as [Ela | Nla];
        [destruct (Qeq_dec (pp_lng m) (pp_lng q)) as [Elo | Nlo]|].
      * split; [rewrite La; exact Ela | rewrite Lo; exact Elo].
      * assert (0 < distanceTo (latLng (pp_lat m) (pp_lng m))
                      (latLng (pp_lat q) (pp_lng q))).
        { apply distanceTo_pos. unfold distinct_place. simpl.
          intros [_ F]. contradiction. }
        lra.
      * assert (0 < distanceTo (latLng (pp_lat m) (pp_lng m))
                      (latLng (pp_lat q) (pp_lng q))).
        { apply distanceTo_pos. unfold distinct_place. simpl.
          intros [F _]. contradiction. }
        lra.
Qed.

(** Interpolating at the total distance of a built path yields the place of
    the last PathPoint. *)
Theorem interpolate_at_total_is_last_point (ls : list RouteLeg)
    (final : PathPoint) :
  let path := fst (buildPath distanceTo ls) in
  let total := snd (buildPath distanceTo ls) in
  (2 <= length path)%nat ->
  JsArray.lastOpt path = Some final ->
  exists r,
    interpolate path total = inr r
    /\ i_lat r == pp_lat final /\ i_lng r == pp_lng final.
Proof.
  intros path total Hlen Hfinal.
  destruct (buildPath_inv distanceTo ls) as (Hch & H0 & Hl).
  fold path in Hch, H0, Hl. fold total in Hl. rewrite Hfinal in Hl.
  destruct (lastOpt_nth _ _ Hfinal) as [Hn _].
  assert (Hmono := chained_monotone distanceTo distanceTo_nonneg path Hch).
  destruct (findSegment_cases path total Hlen)
    as (n & a & b & E & Ha & Hb
        & [[_ Hall] | [[-> Hle] | (Hlt & Hle & _)]]).
  - pose proof (Forall_nth_error _ _ _ _ Hall Hn) as Hc. simpl in Hc. lra.
  - (* the whole path has length 0 *)
    pose proof (H0 a Ha) as Ha0.
    pose proof (Hmono 0%nat (length path - 1)%nat a final
                  (Nat.le_0_l _) Ha Hn) as M.
    destruct (same_place_of_equal_cumulative path Hch (length path - 1)%nat
                0%nat a final (Nat.le_0_l _) Ha Hn) as [La Lo]; [lra|].
    assert (Hr : segmentRatio a b total == 0)
      by (apply segmentRatio_at_start; lra).
    eexists. split; [apply (interpolate_on_segment _ _ _ _ _ E Ha Hb)|].
    simpl. split; rewrite Hr; [rewrite <- La | rewrite <- Lo]; ring.
  - (* the segment found ends where the path does *)
    assert (Hn' : (S n <= length path - 1)%nat).
    { assert (S n < length path)%nat by (apply nth_error_Some; congruence).
      lia. }
    pose proof (Hmono (S n) (length path - 1)%nat b final Hn' Hb Hn) as M.
    destruct (same_place_of_equal_cumulative path Hch (length path - 1)%nat
                (S n) b final Hn' Hb Hn) as [La Lo]; [lra|].
    assert (Hr : segmentRatio a b total == 1)
      by (apply segmentRatio_at_end; lra).
    eexists. split; [apply (interpolate_on_segment _ _ _ _ _ E Ha Hb)|].
    simpl. split; rewrite Hr; [rewrite <- La | rewrite <- Lo]; ring.
Qed.

(** Outside the path the interpolator extrapolates, it does not clamp.  A
    negative target takes the first segment with a ratio that is not
    positive, negative when that segment has length.  A target beyond the
    total takes the last segment, with a ratio above 1 when that segment has
    length and 0 when it has none. *)
Theorem interpolate_outside_extrapolates (ls : list RouteLeg) (d : Q)
    (final : PathPoint) :
  let path := fst (buildPath distanceTo ls) in
  let total := snd (buildPath distanceTo ls) in
  (2 <= length path)%nat ->
  JsArray.lastOpt path = Some final ->
  exists r,
    interpolate path d = inr r
    /\ (d < 0 ->
        nextIdx r = 1%Z /\ ratio r <= 0
        /\ (cumulativeDistance (p1 r) < cumulativeDistance (p2 r) ->
            ratio r < 0))
    /\ (total < d ->
        nextIdx r = (Z.of_nat (length path) - 1)%Z /\ p2 r = final
        /\ (cumulativeDistance (p1 r) < cumulativeDistance (p2 r) ->
            1 < ratio r)
        /\ (cumulativeDistance (p2 r) <= cumulativeDistance (p1 r) ->
            ratio r = 0)).
Proof.
  intros path total Hlen Hfinal.
  destruct (buildPath_inv distanceTo ls) as (Hch & H0 & Hl).
  fold path in Hch, H0, Hl. fold total in Hl. rewrite Hfinal in Hl.
  destruct (lastOpt_nth _ _ Hfinal) as [Hn _].
  assert (Hmono := chained_monotone distanceTo distanceTo_nonneg path Hch).
  destruct (nth_error_in_range path 0) as [p0 Hp0]; [lia|].
  pose proof (H0 p0 Hp0) as Hc0.
  destruct (findSegment_cases path d Hlen)
    as (n & a & b & E & Ha & Hb & Hcase).
  eexists. split; [apply (interpolate_on_segment _ _ _ _ _ E Ha Hb)|].
  simpl. split.
  - (* before the path *)
    intro Hneg.
    assert (Hn0 : n = 0%nat).
    { destruct Hcase as [[_ Hall] | [[-> _] | (_ & _ & Hbefore)]].
      - pose proof (Forall_nth_error _ _ _ _ Hall Hn) as Hc. simpl in Hc.
        pose proof (Hmono 0%nat (length path - 1)%nat p0 final
                      (Nat.le_0_l _) Hp0 Hn). lra.
      - reflexivity.
      - pose proof (Hbefore 0%nat p0 (Nat.le_0_l n) Hp0). lra. }
    subst n. rewrite Hp0 in Ha. inversion Ha; subst a.
    split; [reflexivity|]. unfold segmentRatio.
    destruct (Qltb 0 (cumulativeDistance b - cumulativeDistance p0)) eqn:G.
    + apply Qltb_true_iff in G.
      assert (Hlt : (d - cumulativeDistance p0)
                    / (cumulativeDistance b - cumulativeDistance p0) < 0)
        by (apply Qlt_shift_div_r; [exact G | lra]).
      split; [lra | intros _; exact Hlt].
    + apply Qltb_false_iff in G. split; [lra | intro; lra].
  - (* beyond the path *)
    intro Hbeyond.
    assert (Hlast : S (S n) = length path).
    { destruct Hcase as [[Hl' _] | [[-> Hle] | (_ & Hle & _)]].
      - exact Hl'.
      - rewrite Hp0 in Ha. inversion Ha; subst a.
        pose proof (Hmono 0%nat (length path - 1)%nat p0 final
                      (Nat.le_0_l _) Hp0 Hn). lra.
      - assert (Hn' : (S n <= length path - 1)%nat).
        { assert (S n < length path)%nat
            by (apply nth_error_Some; congruence). lia. }
        pose proof (Hmono (S n) (length path - 1)%nat b final Hn' Hb Hn).
        lra. }
    replace (length path - 1)%nat with (S n) in Hn by lia.
    rewrite Hn in Hb. inversion Hb; subst b.
    split; [lia|]. split; [reflexivity|]. unfold segmentRatio.
    split.
    + intro Hpos.
      rewrite (proj2 (Qltb_true_iff 0
                 (cumulativeDistance final - cumulativeDistance a)))
        by lra.
      apply Qlt_shift_div_l; lra.
    + intro Hzero.
      rewrite (proj2 (Qltb_false_iff 0
                 (cumulativeDistance final - cumulativeDistance a)))
        by lra.
      reflexivity.
Qed.

End EndsOfThePath.

Lemma interpolate_at_total_is_last_point_witness :
  exists r,
    interpolate samplePath (snd (buildPath gridDistance sampleLegs)) = inr r
    /\ i_lat r == 0 /\ i_lng r == 2.
Proof.
  apply (interpolate_at_total_is_last_point gridDistance
           gridDistance_nonneg gridDistance_pos sampleLegs
           (mkPathPoint 0 2 TRAIN 2)).
  - vm_compute. lia.
  - reflexivity.
Defined.

Lemma interpolate_outside_extrapolates_witness :
  exists r,
    interpolate samplePath 3 = inr r
    /\ nextIdx r = 3%Z /\ p2 r = mkPathPoint 0 2 TRAIN 2
    /\ 1 < ratio r.
Proof.
  destruct (interpolate_outside_extrapolates gridDistance
              gridDistance_nonneg sampleLegs 3 (mkPathPoint 0 2 TRAIN 2))
    as (r & E & _ & H).
  - vm_compute. lia.
  - reflexivity.
  - exists r. split; [exact E|].
    destruct H as (H1 & H2 & H3 & _); [reflexivity|].
    split; [exact H1|]. split; [exact H2|].
    apply H3. vm_compute in E. inversion E. reflexivity.
Defined.

(** ** [updateMapState]: guard, same-mode frames, what stays consistent *)

(** When any of the three Leaflet objects is missing, [updateMapState] does
    nothing at all. *)
Theorem updateMapState_without_layers (point : PathPoint)
    (isFinal flipped : bool) (pos : LatLng) (z : Q) (s : MapState) :
  layersReady s = false ->
  updateMapState point isFinal flipped pos z s = s.
Proof.
  unfold layersReady, updateMapState. intro H.
  destruct (vehicleMarkerRef s); [|reflexivity].
  destruct (currentSegmentPolylineRef s); [|reflexivity].
  destruct (finishedSegmentsLayerRef s); [discriminate | reflexivity].
Qed.

Lemma updateMapState_without_layers_witness :
  updateMapState (mkPathPoint 0 0 CAR 0) false false (at_grid 0 0) 10
    (initialState (mkView (at_grid 5 5) 5))
  = initialState (mkView (at_grid 5 5) 5).
Proof.
  apply (updateMapState_without_layers (mkPathPoint 0 0 CAR 0) false false
           (at_grid 0 0) 10 (initialState (mkView (at_grid 5 5) 5))).
  reflexivity.
Defined.

(** When the mode of the point is the recorded one, the position is
    appended to the live points, the finished segments and the live colour
    are untouched, and the recorded mode stays. *)
Theorem updateMapState_same_mode_appends (point : PathPoint)
    (isFinal flipped : bool) (pos : LatLng) (z : Q) (s : MapState)
    (poly : Polyline) :
  layersReady s = true ->
  currentSegmentPolylineRef s = Some poly ->
  pp_mode point = prevModeRef s ->
  let s' := updateMapState point isFinal flipped pos z s in
  currentSegmentPointsRef s' = currentSegmentPointsRef s ++ [pos]
  /\ currentSegmentPolylineRef s' =
       Some (mkPolyline (currentSegmentPointsRef s ++ [pos])
               (poly_color poly))
  /\ finishedSegmentsLayerRef s' = finishedSegmentsLayerRef s
  /\ prevModeRef s' = prevModeRef s.
Proof.
  intros Hready Hpoly Hmode.
  destruct (layersReady_inv s Hready) as (m & poly' & layer & Hm & Hp & Hl).
  rewrite Hpoly in Hp. inversion Hp; subst poly'. clear Hp.
  apply TransportMode_eqb_eq in Hmode.
  destruct s; simpl in *; subst.
  unfold updateMapState; simpl. rewrite Hmode. simpl.
  (destruct (Bool.eqb flipped prevFlippedRef0) eqn:Ef; simpl);
    (destruct isFinal; simpl);
    repeat split; reflexivity.
Qed.

Lemma updateMapState_same_mode_appends_witness :
  let s := sampleAfterFirstFrame in
  let pos := at_grid 0 1 in
  let s' := updateMapState (mkPathPoint 0 1 CAR 1) false false pos 10 s in
  currentSegmentPointsRef s' = currentSegmentPointsRef s ++ [pos]
  /\ currentSegmentPolylineRef s' =
       Some (mkPolyline (currentSegmentPointsRef s ++ [pos]) (COLORS CAR))
  /\ finishedSegmentsLayerRef s' = finishedSegmentsLayerRef s
  /\ prevModeRef s' = prevModeRef s.
Proof.
  apply (updateMapState_same_mode_appends (mkPathPoint 0 1 CAR 1) false false
           (at_grid 0 1) 10 sampleAfterFirstFrame
           (mkPolyline (currentSegmentPointsRef sampleAfterFirstFrame)
              (COLORS CAR))).
  - reflexivity.
  - vm_compute. reflexivity.
  - reflexivity.
Defined.

(** [updateMapState] keeps the display consistent with the refs and never
    freezes an empty segment; after it the vehicle is at the given position,
    which is also the last live point. *)
Lemma updateMapState_keeps_display_consistent (point : PathPoint)
    (isFinal flipped : bool) (pos : LatLng) (z : Q) (s : MapState) :
  displayConsistent s -> finishedNonEmpty s ->
  let s' := updateMapState point isFinal flipped pos z s in
  displayConsistent s' /\ finishedNonEmpty s'
  /\ (exists icon, vehicleMarkerRef s' = Some (mkMarker pos icon))
  /\ (exists before, currentSegmentPointsRef s' = before ++ [pos]).
Proof.
  intros (m & poly & Hm & Hp & Hicon & Hcol & Hpts) (layer & Hl & Hne).
  destruct s; simpl in *.
  subst vehicleMarkerRef0 currentSegmentPolylineRef0
    finishedSegmentsLayerRef0.
  destruct m as [mpos micon]; destruct poly as [ppts pcol]; simpl in *.
  subst micon pcol ppts.
  unfold updateMapState, displayConsistent, finishedNonEmpty; simpl.
  destruct (TransportMode_eqb (pp_mode point) prevModeRef0) eqn:Em; simpl;
    try (destruct currentSegmentPointsRef0 as [|x xs] eqn:Epts; simpl);
    (destruct (Bool.eqb flipped prevFlippedRef0) eqn:Ef; simpl);
    (destruct isFinal; simpl);
    try apply TransportMode_eqb_eq in Em;
    try apply Bool.eqb_prop in Ef; subst;
    (split; [eexists; eexists; repeat split; reflexivity|]);
    (split;
     [eexists; split;
      [reflexivity
      | first
          [ assumption
          | apply Forall_app; split;
            [assumption
            | apply Forall_cons; [simpl; discriminate | apply Forall_nil]] ]]
     |]);
    (split; [eexists; reflexivity|]);
    first [ exists [pos]; reflexivity
          | exists []; reflexivity
          | match goal with
            | |- exists _, ?a :: ?l ++ _ = _ => exists (a :: l); reflexivity
            end ].
Qed.

(** *** The wrappers around [updateMapState] do not touch the display *)

Lemma frameStart_display (s : MapState) :
  (displayConsistent s -> displayConsistent (frameStart s))
  /\ (finishedNonEmpty s -> finishedNonEmpty (frameStart s)).
Proof.
  unfold displayConsistent, finishedNonEmpty.
  destruct s; simpl. split; intro H; exact H.
Qed.

Lemma request_display (u : MapState) :
  let s' := set_animationFrame (nextFrameId u)
              (snd (requestAnimationFrame u)) in
  (displayConsistent u -> displayConsistent s')
  /\ (finishedNonEmpty u -> finishedNonEmpty s')
  /\ vehicleMarkerRef s' = vehicleMarkerRef u
  /\ currentSegmentPointsRef s' = currentSegmentPointsRef u
  /\ mapView s' = mapView u.
Proof.
  unfold displayConsistent, finishedNonEmpty.
  destruct u; simpl. repeat split; try (intro H; exact H).
Qed.

Lemma complete_display (u : MapState) :
  let s' := set_isAnimating false (onAnimationComplete u) in
  (displayConsistent u -> displayConsistent s')
  /\ (finishedNonEmpty u -> finishedNonEmpty s')
  /\ vehicleMarkerRef s' = vehicleMarkerRef u
  /\ currentSegmentPointsRef s' = currentSegmentPointsRef u
  /\ mapView s' = mapView u
  /\ pendingFrames s' = pendingFrames u
  /\ completions s' = S (completions u)
  /\ isAnimatingRef s' = false
  /\ layersReady s' = layersReady u
  /\ pathDataRef s' = pathDataRef u
  /\ nextFrameId s' = nextFrameId u
  /\ startTimeRef s' = startTimeRef u.
Proof.
  unfold displayConsistent, finishedNonEmpty.
  destruct u; simpl. repeat split; try (intro H; exact H).
Qed.

(** One frame of a run, whatever its timestamp: it does not fault, keeps
    the display consistent, and either keeps the run going without a
    completion call, or (once the duration is reached) ends it with exactly
    one, leaving the camera where it was. *)
Lemma runFrame_of_run (t : Q) (s : MapState) :
  playing s -> displayConsistent s -> finishedNonEmpty s ->
  exists s',
    runFrame t s = inr s'
    /\ displayConsistent s' /\ finishedNonEmpty s'
    /\ pathDataRef s' = pathDataRef s
    /\ startTimeRef s' = startTimeRef s
    /\ ((t - startTimeRef s < durationMs
         /\ playing s' /\ completions s' = completions s)
        \/ (durationMs <= t - startTimeRef s
            /\ pendingFrames s' = []
            /\ completions s' = S (completions s)
            /\ isAnimatingRef s' = false
            /\ mapView s' = mapView s)).
Proof.
  intros Hplay Hdc Hne.
  destruct (frameStart_display s) as [Fdc Fne].
  destruct (frameStart_fields s)
    as (F1 & F2 & F3 & F4 & F5 & F6 & F7 & F8 & _).
  destruct (Qlt_le_dec (t - startTimeRef s) durationMs) as [Hrun | Hdone].
  - destruct (runFrame_running_keeps t s Hplay Hrun)
      as (s' & E & P' & T' & D' & _ & _ & C').
    destruct (runFrame_running t s Hplay Hrun) as (r & _ & E').
    cbv zeta in E'.
    match type of E' with
    | _ = inr ?X => assert (Es : X = s') by congruence
    end.
    exists s'. split; [exact E|].
    destruct (updateMapState_keeps_display_consistent
                (mkPathPoint (i_lat r) (i_lng r) (i_mode r)
                   (totalDistanceRef s * rawProgress (t - startTimeRef s)))
                false (isFlipped r) (latLng (i_lat r) (i_lng r))
                (currentZoom (startZoomRef s) (t - startTimeRef s))
                (frameStart s) (Fdc Hdc) (Fne Hne)) as (U1 & U2 & _).
    match type of Es with
    | set_animationFrame _ (snd (requestAnimationFrame ?u')) = _ =>
        destruct (request_display u') as (R1 & R2 & _)
    end.
    cbv zeta in R1, R2. rewrite <- Es.
    split; [exact (R1 U1)|]. split; [exact (R2 U2)|]. rewrite Es.
    split; [exact D'|]. split; [exact T'|].
    left. repeat split; try assumption; apply P'.
  - destruct (runFrame_final t s Hplay Hdone) as (final & Hfinal & E).
    eexists. split; [exact E|].
    destruct (updateMapState_keeps_display_consistent final true false
                (latLng (pp_lat final) (pp_lng final)) FOLLOW_ZOOM_LEVEL
                (frameStart s) (Fdc Hdc) (Fne Hne)) as (U1 & U2 & _).
    destruct Hplay as (Hready & _).
    assert (Hu := updateMapState_frame final true false
                    (latLng (pp_lat final) (pp_lng final))
                    FOLLOW_ZOOM_LEVEL (frameStart s)).
    rewrite F1 in Hu. specialize (Hu Hready). cbv zeta in Hu.
    destruct Hu as (_ & V2 & _ & _ & V5 & _ & _ & V8 & _ & V10 & _ & _ & _
                    & V14).
    match goal with
    | |- context [onAnimationComplete ?u'] =>
        destruct (complete_display u')
          as (K1 & K2 & _ & _ & K5 & K6 & K7 & K8 & _ & K10 & _ & K12)
    end.
    cbv zeta in K1, K2, K5, K6, K7, K8, K10, K12.
    split; [exact (K1 U1)|]. split; [exact (K2 U2)|].
    split; [rewrite K10, V2; exact F2|].
    split; [rewrite K12, V5; exact F4|].
    right. split; [exact Hdone|].
    split; [rewrite K6, V8; exact F8|].
    split; [rewrite K7, V10, F7; reflexivity|].
    split; [exact K8|].
    rewrite K5, V14. destruct s; reflexivity.
Qed.

(** Any sequence of frames of a run. *)
Lemma runFrames_of_run (times : list Q) (s : MapState) :
  playing s -> displayConsistent s -> finishedNonEmpty s ->
  exists s',
    runFrames times s = inr s'
    /\ displayConsistent s' /\ finishedNonEmpty s'
    /\ pathDataRef s' = pathDataRef s
    /\ ((Forall (fun t => t - startTimeRef s < durationMs) times
         /\ playing s' /\ completions s' = completions s)
        \/ (Exists (fun t => durationMs <= t - startTimeRef s) times
            /\ pendingFrames s' = []
            /\ completions s' = S (completions s)
            /\ isAnimatingRef s' = false)).
Proof.
  revert s. induction times as [|t rest IH]; intros s Hplay Hdc Hne.
  - exists s. simpl. split; [reflexivity|].
    split; [exact Hdc|]. split; [exact Hne|]. split; [reflexivity|].
    left. split; [constructor|]. split; [exact Hplay | reflexivity].
  - destruct (runFrame_of_run t s Hplay Hdc Hne)
      as (s1 & E1 & Dc1 & Ne1 & D1 & T1
          & [(Hrun & P1 & C1') | (Hdone & Hp & C1' & A1 & _)]).
    + destruct (IH s1 P1 Dc1 Ne1)
        as (s2 & E2 & Dc2 & Ne2 & D2
            & [(Hall & P2 & C2') | (Hex & Hp2 & C2' & A2)]).
      * exists s2. simpl. rewrite E1. simpl.
        split; [exact E2|]. split; [exact Dc2|]. split; [exact Ne2|].
        split; [congruence|].
        left. split; [|split; [exact P2 | congruence]].
        constructor; [exact Hrun|]. rewrite T1 in Hall. exact Hall.
      * exists s2. simpl. rewrite E1. simpl.
        split; [exact E2|]. split; [exact Dc2|]. split; [exact Ne2|].
        split; [congruence|].
        right. split; [|split; [exact Hp2 | split; [congruence | exact A2]]].
        apply Exists_cons_tl. rewrite T1 in Hex. exact Hex.
    + exists s1. simpl. rewrite E1. simpl.
      split; [apply runFrames_idle; exact Hp|].
      split; [exact Dc1|]. split; [exact Ne1|]. split; [exact D1|].
      right. split; [apply Exists_cons_hd; exact Hdone|].
      split; [exact Hp|]. split; [exact C1' | exact A1].
Qed.

(** ** Loading a route *)

(** Loading a route with at least one point: whatever was pending is
    cancelled, the vehicle stands on the first point with the first mode's
    icon, unmirrored, the live polyline is empty in the first mode's colour,
    no segment is finished, and the component is not animating. *)
Theorem setupRoute_shows_start (distanceTo : LatLng -> LatLng -> Q)
    (fitBoundsView : Coordinates -> Coordinates -> View -> View)
    (rd : RouteData) (s0 : MapState) (p0 : PathPoint) :
  framesTracked s0 ->
  nth_error (fst (buildPath distanceTo (legs rd))) 0 = Some p0 ->
  let s := setupRoute distanceTo fitBoundsView (Some rd) s0 in
  vehicleMarkerRef s =
    Some (mkMarker (latLng (pp_lat p0) (pp_lng p0))
            (createLeafletIcon (pp_mode p0) false))
  /\ currentSegmentPolylineRef s = Some (mkPolyline [] (COLORS (pp_mode p0)))
  /\ finishedSegmentsLayerRef s = Some []
  /\ currentSegmentPointsRef s = []
  /\ prevModeRef s = pp_mode p0 /\ prevFlippedRef s = false
  /\ pendingFrames s = [] /\ isAnimatingRef s = false
  /\ completions s = completions s0.
Proof.
  intros Htracked Hp0. unfold setupRoute.
  rewrite (cancelPendingFrame_clears s0 Htracked).
  destruct (buildPath distanceTo (legs rd)) as [points currentDist].
  destruct (boundingBox rd) as [sw ne].
  destruct points as [|startPoint rest]; [discriminate|].
  simpl in Hp0. inversion Hp0; subst startPoint.
  destruct (negb (Qeq_bool (lat sw) 0) && negb (Qeq_bool (lat ne) 0));
    destruct s0; simpl; repeat split; reflexivity.
Qed.

Lemma setupRoute_shows_start_witness :
  let s := sampleLoaded in
  vehicleMarkerRef s =
    Some (mkMarker (latLng 0 0) (createLeafletIcon CAR false))
  /\ currentSegmentPolylineRef s = Some (mkPolyline [] (COLORS CAR))
  /\ finishedSegmentsLayerRef s = Some []
  /\ currentSegmentPointsRef s = []
  /\ prevModeRef s = CAR /\ prevFlippedRef s = false
  /\ pendingFrames s = [] /\ isAnimatingRef s = false
  /\ completions s = 0%nat.
Proof.
  apply (setupRoute_shows_start gridDistance keepView sampleRoute
           (initialState (mkView (at_grid 5 5) 5)) (mkPathPoint 0 0 CAR 0)).
  - split; [reflexivity | left; reflexivity].
  - reflexivity.
Defined.

(** Loading no route, or a route without any coordinate: every Leaflet
    object is dropped and whatever was pending is cancelled, so that a later
    [updateMapState] does nothing and a request to play starts nothing. *)
Theorem setupRoute_without_points (distanceTo : LatLng -> LatLng -> Q)
    (fitBoundsView : Coordinates -> Coordinates -> View -> View)
    (routeData : option RouteData) (s0 : MapState) (now : Q) :
  framesTracked s0 ->
  match routeData with
  | None => True
  | Some rd => fst (buildPath distanceTo (legs rd)) = []
  end ->
  let s := setupRoute distanceTo fitBoundsView routeData s0 in
  vehicleMarkerRef s = None
  /\ currentSegmentPolylineRef s = None
  /\ finishedSegmentsLayerRef s = None
  /\ pathDataRef s = []
  /\ pendingFrames s = []
  /\ mapView s = mapView s0
  /\ pendingFrames (animationEffect true now s) = []
  /\ isAnimatingRef (animationEffect true now s) = false.
Proof.
  intros Htracked Hempty s.
  assert (H : vehicleMarkerRef s = None
              /\ currentSegmentPolylineRef s = None
              /\ finishedSegmentsLayerRef s = None
              /\ pathDataRef s = []
              /\ pendingFrames s = []
              /\ mapView s = mapView s0
              /\ nextFrameId s = nextFrameId s0).
  { unfold s, setupRoute.
    rewrite (cancelPendingFrame_clears s0 Htracked).
    destruct routeData as [rd|].
    - destruct (buildPath distanceTo (legs rd)) as [points currentDist].
      simpl in Hempty. subst points.
      destruct s0; simpl. repeat split; reflexivity.
    - destruct s0; simpl. repeat split; reflexivity. }
  destruct H as (H1 & H2 & H3 & H4 & H5 & H6 & H7).
  repeat (split; [assumption|]).
  assert (Ht : framesTracked s).
  { split; [rewrite H7; apply Htracked | left; exact H5]. }
  assert (E : animationEffect true now s
              = set_isAnimating false (set_pendingFrames [] s)).
  { unfold animationEffect. rewrite H4. simpl negb. simpl orb.
    rewrite (cancelPendingFrame_clears s Ht). reflexivity. }
  rewrite E. generalize s. intro u. destruct u; split; reflexivity.
Qed.

Lemma setupRoute_without_points_witness :
  let s := setupRoute gridDistance keepView None samplePlaying in
  vehicleMarkerRef s = None
  /\ currentSegmentPolylineRef s = None
  /\ finishedSegmentsLayerRef s = None
  /\ pathDataRef s = []
  /\ pendingFrames s = []
  /\ mapView s = mapView samplePlaying
  /\ pendingFrames (animationEffect true 2000 s) = []
  /\ isAnimatingRef (animationEffect true 2000 s) = false.
Proof.
  apply (setupRoute_without_points gridDistance keepView None
           samplePlaying 2000).
  - split; [reflexivity | right; split; [reflexivity | discriminate]].
  - exact I.
Defined.

Lemma setupRoute_display (distanceTo : LatLng -> LatLng -> Q)
    (fitBoundsView : Coordinates -> Coordinates -> View -> View)
    (rd : RouteData) (s0 : MapState) :
  framesTracked s0 ->
  let s := setupRoute distanceTo fitBoundsView (Some rd) s0 in
  (0 < length (pathDataRef s))%nat ->
  displayConsistent s /\ finishedNonEmpty s.
Proof.
  intros Htracked. unfold setupRoute.
  rewrite (cancelPendingFrame_clears s0 Htracked).
  destruct (buildPath distanceTo (legs rd)) as [points currentDist].
  destruct (boundingBox rd) as [sw ne].
  destruct points as [|startPoint rest].
  - destruct s0; simpl. intro H. lia.
  - unfold displayConsistent, finishedNonEmpty.
    destruct (negb (Qeq_bool (lat sw) 0) && negb (Qeq_bool (lat ne) 0));
      destruct s0; simpl; intros _;
      (split; [eexists; eexists; repeat split; reflexivity
              | eexists; split; [reflexivity | constructor]]).
Qed.

Lemma animationEffect_display (isPlaying : bool) (now : Q) (s : MapState) :
  displayConsistent s -> finishedNonEmpty s ->
  displayConsistent (animationEffect isPlaying now s)
  /\ finishedNonEmpty (animationEffect isPlaying now s).
Proof.
  intros (m & poly & Hm & Hp & Hicon & Hcol & Hpts) (layer & Hl & Hne).
  unfold animationEffect, cancelPendingFrame, displayConsistent,
    finishedNonEmpty.
  destruct s; simpl in *.
  subst vehicleMarkerRef0 currentSegmentPolylineRef0
    finishedSegmentsLayerRef0.
  destruct (negb isPlaying || (length pathDataRef0 <? 2)%nat); simpl.
  - destruct (animationFrameRef0 =? 0)%Z; simpl;
      (split; [exists m, poly; repeat split; assumption
              | exists layer; split; [reflexivity | assumption]]).
  - destruct isAnimatingRef0; simpl.
    + split; [exists m, poly; repeat split; assumption
             | exists layer; split; [reflexivity | assumption]].
    + split; [eexists; eexists; repeat split; try reflexivity; assumption
             | eexists; split; [reflexivity | constructor]].
Qed.

(** ** A whole run: no fault, a consistent display, one completion *)

(** A route with at least two path points is loaded and played, and frames
    arrive at any timestamps whatever.  No frame faults (no read past the
    path, no division by zero); after them the display still agrees with
    the refs (icon for the recorded mode and direction, live polyline in the
    recorded mode's colour showing exactly the live points), no finished
    segment is empty, and the path is the one that was loaded. *)
Theorem run_never_faults (distanceTo : LatLng -> LatLng -> Q)
    (fitBoundsView : Coordinates -> Coordinates -> View -> View)
    (rd : RouteData) (s0 : MapState) (now : Q) (times : list Q) :
  framesTracked s0 ->
  let loaded := setupRoute distanceTo fitBoundsView (Some rd) s0 in
  let run := animationEffect true now loaded in
  (2 <= length (pathDataRef loaded))%nat ->
  exists s',
    runFrames times run = inr s'
    /\ displayConsistent s' /\ finishedNonEmpty s'
    /\ pathDataRef s' = fst (buildPath distanceTo (legs rd)).
Proof.
  intros Htracked loaded run Hlen.
  destruct (setupRoute_loaded distanceTo fitBoundsView rd s0 Htracked)
    as (Lpath & _ & Lp & Ln & _ & La & _ & Lr).
  fold loaded in Lpath, Lp, Ln, La, Lr.
  destruct (setupRoute_display distanceTo fitBoundsView rd s0 Htracked)
    as (Ldc & Lne); [fold loaded; lia|].
  fold loaded in Ldc, Lne.
  destruct (animationEffect_starts now loaded)
    as (Rplay & _ & _ & Rd & _); auto.
  { apply Lr. lia. }
  { rewrite Ln. apply Htracked. }
  destruct (animationEffect_display true now loaded Ldc Lne) as (Rdc & Rne).
  fold run in Rplay, Rd, Rdc, Rne.
  destruct (runFrames_of_run times run Rplay Rdc Rne)
    as (s' & E & Dc & Ne & D & _).
  exists s'. split; [exact E|]. split; [exact Dc|]. split; [exact Ne|].
  congruence.
Qed.

Lemma run_never_faults_witness :
  exists s',
    runFrames [500; 23500; 68500; 91000; 95000; 2000] samplePlaying = inr s'
    /\ displayConsistent s' /\ finishedNonEmpty s'
    /\ pathDataRef s' = samplePath.
Proof.
  apply (run_never_faults gridDistance keepView sampleRoute
           (initialState (mkView (at_grid 5 5) 5)) 1000
           [500; 23500; 68500; 91000; 95000; 2000]).
  - split; [reflexivity | left; reflexivity].
  - vm_compute. lia.
Defined.

(** Whatever the timestamps of the frames of a run, the completion callback
    is called at most once: not at all while every frame came before the
    duration had elapsed (the run is then still going), and exactly once as
    soon as one frame has reached it (nothing is pending afterwards). *)
Theorem completion_at_most_once (distanceTo : LatLng -> LatLng -> Q)
    (fitBoundsView : Coordinates -> Coordinates -> View -> View)
    (rd : RouteData) (s0 : MapState) (now : Q) (times : list Q) :
  framesTracked s0 ->
  let loaded := setupRoute distanceTo fitBoundsView (Some rd) s0 in
  let run := animationEffect true now loaded in
  (2 <= length (pathDataRef loaded))%nat ->
  exists s',
    runFrames times run = inr s'
    /\ ((Forall (fun t => t - now < durationMs) times
         /\ completions s' = completions s0
         /\ pendingFrames s' = [animationFrameRef s'])
        \/ (Exists (fun t => durationMs <= t - now) times
            /\ completions s' = S (completions s0)
            /\ pendingFrames s' = []
            /\ isAnimatingRef s' = false)).
Proof.
  intros Htracked loaded run Hlen.
  destruct (setupRoute_loaded distanceTo fitBoundsView rd s0 Htracked)
    as (_ & _ & Lp & Ln & Lc & La & _ & Lr).
  fold loaded in Lp, Ln, Lc, La, Lr.
  destruct (setupRoute_display distanceTo fitBoundsView rd s0 Htracked)
    as (Ldc & Lne); [fold loaded; lia|].
  fold loaded in Ldc, Lne.
  destruct (animationEffect_starts now loaded)
    as (Rplay & Rt & _ & _ & _ & Rc & _); auto.
  { apply Lr. lia. }
  { rewrite Ln. apply Htracked. }
  destruct (animationEffect_display true now loaded Ldc Lne) as (Rdc & Rne).
  fold run in Rplay, Rt, Rc, Rdc, Rne.
  destruct (runFrames_of_run times run Rplay Rdc Rne)
    as (s' & E & _ & _ & _
        & [(Hall & P & C) | (Hex & Hp & C & A)]).
  - exists s'. split; [exact E|]. left.
    rewrite Rt in Hall. split; [exact Hall|]. split; [congruence|].
    apply P.
  - exists s'. split; [exact E|]. right.
    rewrite Rt in Hex. split; [exact Hex|]. split; [congruence|].
    split; assumption.
Qed.

Lemma completion_at_most_once_witness :
  exists s',
    runFrames [23500; 91000; 95000; 120000] samplePlaying = inr s'
    /\ ((Forall (fun t => t - 1000 < durationMs)
           [23500; 91000; 95000; 120000]
         /\ completions s' = 0%nat
         /\ pendingFrames s' = [animationFrameRef s'])
        \/ (Exists (fun t => durationMs <= t - 1000)
              [23500; 91000; 95000; 120000]
            /\ completions s' = 1%nat
            /\ pendingFrames s' = []
            /\ isAnimatingRef s' = false)).
Proof.
  apply (completion_at_most_once gridDistance keepView sampleRoute
           (initialState (mkView (at_grid 5 5) 5)) 1000
           [23500; 91000; 95000; 120000]).
  - split; [reflexivity | left; reflexivity].
  - vm_compute. lia.
Defined.

(** ** Pausing, restarting, re-running the effect *)

Lemma animationEffect_pause_shape (now : Q) (s : MapState) :
  framesTracked s ->
  animationEffect false now (animationCleanup s)
  = set_isAnimating false (set_pendingFrames [] s).
Proof.
  intro Htracked.
  unfold animationEffect, animationCleanup. simpl negb. simpl orb.
  rewrite (cancelPendingFrame_clears s Htracked).
  rewrite cancelPendingFrame_clears.
  - destruct s; reflexivity.
  - destruct Htracked as [Hn _]. split; [|left].
    + destruct s; exact Hn.
    + destruct s; reflexivity.
Qed.

(** Pausing a run (the effect's cleanup, then the effect with
    [isPlaying = false]) only cancels the pending frame and clears the
    animating flag: trail, vehicle, camera, clock origin and path stay as
    they are, and no later frame changes anything. *)
Theorem pause_keeps_everything (now : Q) (s : MapState) :
  framesTracked s ->
  let s' := animationEffect false now (animationCleanup s) in
  s' = set_isAnimating false (set_pendingFrames [] s)
  /\ currentSegmentPointsRef s' = currentSegmentPointsRef s
  /\ finishedSegmentsLayerRef s' = finishedSegmentsLayerRef s
  /\ vehicleMarkerRef s' = vehicleMarkerRef s
  /\ mapView s' = mapView s
  /\ (forall times, runFrames times s' = inr s').
Proof.
  intros Htracked s'.
  assert (E : s' = set_isAnimating false (set_pendingFrames [] s))
    by (apply animationEffect_pause_shape; exact Htracked).
  split; [exact E|]. rewrite E.
  repeat (split; [destruct s; reflexivity|]).
  intro times. apply runFrames_idle. destruct s; reflexivity.
Qed.

Lemma pause_keeps_everything_witness :
  let s := sampleAfterFirstFrame in
  let s' := animationEffect false 30000 (animationCleanup s) in
  s' = set_isAnimating false (set_pendingFrames [] s)
  /\ currentSegmentPointsRef s' = currentSegmentPointsRef s
  /\ finishedSegmentsLayerRef s' = finishedSegmentsLayerRef s
  /\ vehicleMarkerRef s' = vehicleMarkerRef s
  /\ mapView s' = mapView s
  /\ (forall times, runFrames times s' = inr s').
Proof.
  apply (pause_keeps_everything 30000 sampleAfterFirstFrame).
  split; [reflexivity | right; split; [reflexivity | discriminate]].
Defined.

(** What starting a run leaves alone, and the emptied live polyline. *)
Lemma animationEffect_starts_keeps (now : Q) (s : MapState) :
  layersReady s = true ->
  (2 <= length (pathDataRef s))%nat ->
  isAnimatingRef s = false ->
  let s' := animationEffect true now s in
  (exists poly, currentSegmentPolylineRef s' = Some poly
                /\ poly_latLngs poly = [])
  /\ vehicleMarkerRef s' = vehicleMarkerRef s
  /\ prevModeRef s' = prevModeRef s.
Proof.
  intros Hready Hlen Hidle.
  destruct (layersReady_inv s Hready) as (m & poly & layer & Hm & Hp & Hl).
  unfold animationEffect. simpl negb. rewrite orb_false_l.
  replace (length (pathDataRef s) <? 2)%nat with false
    by (symmetry; apply Nat.ltb_ge; lia).
  destruct s; simpl in *; subst. simpl.
  split; [eexists; split; reflexivity|]. split; reflexivity.
Qed.

(** Playing again after a pause starts a fresh run: the clock restarts at
    the new [now], the start zoom is captured from the camera as it is, the
    finished segments and the live points are cleared, one frame is pending.
    The vehicle and the recorded mode are not reset: they stay as the pause
    left them until the first frame. *)
Theorem restart_after_pause (pausedAt now : Q) (s : MapState) :
  playing s ->
  let paused := animationEffect false pausedAt (animationCleanup s) in
  let s' := animationEffect true now (animationCleanup paused) in
  playing s'
  /\ startTimeRef s' = now
  /\ startZoomRef s' = zoom (mapView s)
  /\ currentSegmentPointsRef s' = []
  /\ finishedSegmentsLayerRef s' = Some []
  /\ (exists poly, currentSegmentPolylineRef s' = Some poly
                   /\ poly_latLngs poly = [])
  /\ vehicleMarkerRef s' = vehicleMarkerRef s
  /\ prevModeRef s' = prevModeRef s
  /\ pathDataRef s' = pathDataRef s
  /\ completions s' = completions s.
Proof.
  intros (Hready & Hlen & Hnext & Hpend & Hid) paused s'.
  assert (Htracked : framesTracked s)
    by (split; [exact Hnext | right; split; assumption]).
  pose proof (animationEffect_pause_shape pausedAt s Htracked) as Ep.
  fold paused in Ep.
  assert (Q1 : layersReady paused = true)
    by (rewrite Ep; destruct s; exact Hready).
  assert (Q2 : (2 <= length (pathDataRef paused))%nat)
    by (rewrite Ep; destruct s; exact Hlen).
  assert (Q3 : pendingFrames paused = [])
    by (rewrite Ep; destruct s; reflexivity).
  assert (Q4 : (0 < nextFrameId paused)%Z)
    by (rewrite Ep; destruct s; exact Hnext).
  assert (Q5 : isAnimatingRef paused = false)
    by (rewrite Ep; destruct s; reflexivity).
  assert (Ec : animationCleanup paused = paused).
  { unfold animationCleanup. rewrite cancelPendingFrame_clears.
    - rewrite <- Q3. apply set_pendingFrames_same.
    - split; [exact Q4 | left; exact Q3]. }
  unfold s'. rewrite Ec.
  destruct (animationEffect_starts now paused Q1 Q2 Q3 Q4 Q5)
    as (A1 & A2 & A3 & A4 & _ & A6 & A7 & A8 & _).
  destruct (animationEffect_starts_keeps now paused Q1 Q2 Q5)
    as (B1 & B2 & B3).
  split; [exact A1|]. split; [exact A2|].
  split; [rewrite A3, Ep; destruct s; reflexivity|].
  split; [exact A7|]. split; [exact A8|]. split; [exact B1|].
  split; [rewrite B2, Ep; destruct s; reflexivity|].
  split; [rewrite B3, Ep; destruct s; reflexivity|].
  split; [rewrite A4, Ep; destruct s; reflexivity|].
  rewrite A6, Ep. destruct s; reflexivity.
Qed.

Lemma restart_after_pause_witness :
  let s := sampleAfterFirstFrame in
  let paused := animationEffect false 30000 (animationCleanup s) in
  let s' := animationEffect true 40000 (animationCleanup paused) in
  playing s'
  /\ startTimeRef s' = 40000
  /\ startZoomRef s' = zoom (mapView s)
  /\ currentSegmentPointsRef s' = []
  /\ finishedSegmentsLayerRef s' = Some []
  /\ (exists poly, currentSegmentPolylineRef s' = Some poly
                   /\ poly_latLngs poly = [])
  /\ vehicleMarkerRef s' = vehicleMarkerRef s
  /\ prevModeRef s' = prevModeRef s
  /\ pathDataRef s' = pathDataRef s
  /\ completions s' = completions s.
Proof.
  apply (restart_after_pause 30000 40000 sampleAfterFirstFrame).
  unfold playing. split; [reflexivity|]. split; [vm_compute; lia|].
  split; [reflexivity|]. split; [reflexivity|]. vm_compute. discriminate.
Defined.

(** Re-running the effect while a run is under way (its dependencies
    changed but [isPlaying] is still true) swaps the pending frame for a new
    one and nothing else: the clock origin, the start zoom, the trail, the
    vehicle and the camera are kept. *)
Theorem rerun_effect_keeps_run (now : Q) (s : MapState) :
  playing s -> isAnimatingRef s = true ->
  let s' := animationEffect true now (animationCleanup s) in
  playing s'
  /\ s' = set_animationFrame (nextFrameId s)
            (set_nextFrameId (nextFrameId s + 1)
               (set_pendingFrames [nextFrameId s] s))
  /\ startTimeRef s' = startTimeRef s
  /\ startZoomRef s' = startZoomRef s
  /\ currentSegmentPointsRef s' = currentSegmentPointsRef s
  /\ finishedSegmentsLayerRef s' = finishedSegmentsLayerRef s
  /\ vehicleMarkerRef s' = vehicleMarkerRef s
  /\ mapView s' = mapView s.
Proof.
  intros (Hready & Hlen & Hnext & Hpend & Hid) Hanim s'.
  assert (Htracked : framesTracked s)
    by (split; [exact Hnext | right; split; assumption]).
  assert (E : s' = set_animationFrame (nextFrameId s)
                     (set_nextFrameId (nextFrameId s + 1)
                        (set_pendingFrames [nextFrameId s] s))).
  { unfold s', animationCleanup.
    rewrite (cancelPendingFrame_clears s Htracked).
    unfold animationEffect. simpl negb. rewrite orb_false_l.
    replace (length (pathDataRef (set_pendingFrames [] s)) <? 2)%nat
      with false
      by (symmetry; apply Nat.ltb_ge; destruct s; exact Hlen).
    destruct s; simpl in Hanim; subst isAnimatingRef0. reflexivity. }
  split.
  - rewrite E. unfold playing, layersReady in *.
    destruct s; simpl in *. repeat split; auto; lia.
  - split; [exact E|]. rewrite E.
    destruct s; repeat split; reflexivity.
Qed.

Lemma rerun_effect_keeps_run_witness :
  let s := sampleAfterFirstFrame in
  let s' := animationEffect true 30000 (animationCleanup s) in
  playing s'
  /\ s' = set_animationFrame (nextFrameId s)
            (set_nextFrameId (nextFrameId s + 1)
               (set_pendingFrames [nextFrameId s] s))
  /\ startTimeRef s' = startTimeRef s
  /\ startZoomRef s' = startZoomRef s
  /\ currentSegmentPointsRef s' = currentSegmentPointsRef s
  /\ finishedSegmentsLayerRef s' = finishedSegmentsLayerRef s
  /\ vehicleMarkerRef s' = vehicleMarkerRef s
  /\ mapView s' = mapView s.
Proof.
  apply (rerun_effect_keeps_run 30000 sampleAfterFirstFrame).
  - unfold playing. split; [reflexivity|]. split; [vm_compute; lia|].
    split; [reflexivity|]. split; [reflexivity|]. vm_compute. discriminate.
  - reflexivity.
Defined.

(** ** The route service *)

Section RouteServiceFacts.

Variable osrm : nat -> Coordinates -> Coordinates -> option OsrmRoute.
Variable argumentLimit : nat.

Lemma routeSegment_shape (i : nat) (a b : Waypoint)
    (acc : list RouteLeg * Q * Q) :
  routeSegment osrm i a b acc =
    (fst (fst acc) ++ [legFor osrm i a b],
     snd (fst acc) + distance (legFor osrm i a b),
     snd acc + duration (legFor osrm i a b))
  \/ (osrm i (coords a) (coords b) = None
      /\ routeSegment osrm i a b acc =
           (fst (fst acc) ++ [legFor osrm i a b], snd (fst acc), snd acc)).
Proof.
  destruct acc as [[ls td] tdur]. unfold routeSegment, legFor. simpl.
  destruct (osrm i (coords a) (coords b)) as [route|].
  - left. reflexivity.
  - right. split; reflexivity.
Qed.

Lemma Qsum_app (l1 l2 : list Q) : Qsum (l1 ++ l2) == Qsum l1 + Qsum l2.
Proof.
  induction l1 as [|x l1 IH]; simpl.
  - ring.
  - rewrite IH. ring.
Qed.

(** The loop from index [i] on: one leg per consecutive pair, appended in
    order, and totals that grow by the distances and durations of the new
    legs. *)
Lemma routeSegments_spec (wps : list Waypoint) :
  forall (i : nat) (acc : list RouteLeg * Q * Q),
  exists new,
    fst (fst (routeSegments osrm i wps acc)) = fst (fst acc) ++ new
    /\ length new = (length wps - 1)%nat
    /\ (forall k a b,
           nth_error wps k = Some a -> nth_error wps (S k) = Some b ->
           nth_error new k = Some (legFor osrm (i + k) a b))
    /\ snd (fst (routeSegments osrm i wps acc))
       == snd (fst acc) + Qsum (map distance new)
    /\ snd (routeSegments osrm i wps acc)
       == snd acc + Qsum (map duration new).
Proof.
  induction wps as [|a rest IH]; intros i acc.
  - exists []. simpl. rewrite app_nil_r.
    repeat split; try reflexivity; try ring.
    intros k x y H. destruct k; discriminate.
  - destruct rest as [|b rest'].
    + exists []. simpl. rewrite app_nil_r.
      repeat split; try reflexivity; try ring.
      intros k x y H1 H2. destruct k; simpl in H2;
        [discriminate | destruct k; discriminate].
    + change (routeSegments osrm i (a :: b :: rest') acc)
        with (routeSegments osrm (S i) (b :: rest')
                (routeSegment osrm i a b acc)).
      destruct (IH (S i) (routeSegment osrm i a b acc))
        as (new & E & Hlen & Hnth & Hd & Ht).
      exists (legFor osrm i a b :: new).
      assert (Hs : fst (fst (routeSegment osrm i a b acc))
                   = fst (fst acc) ++ [legFor osrm i a b]
                   /\ snd (fst (routeSegment osrm i a b acc))
                      == snd (fst acc) + distance (legFor osrm i a b)
                   /\ snd (routeSegment osrm i a b acc)
                      == snd acc + duration (legFor osrm i a b)).
      { destruct (routeSegment_shape i a b acc) as [S1 | [N S1]];
          rewrite S1; simpl; repeat split; try reflexivity.
        - unfold legFor. rewrite N. simpl. ring.
        - unfold legFor. rewrite N. simpl. ring. }
      destruct Hs as (S1 & S2 & S3).
      split; [rewrite E, S1, <- app_assoc; reflexivity|].
      split; [simpl in *; lia|].
      split.
      * intros k x y Hx Hy. destruct k as [|k].
        -- simpl in Hx, Hy. inversion Hx; inversion Hy; subst.
           simpl. now rewrite Nat.add_0_r.
        -- simpl in Hx. simpl. rewrite (Hnth k x y Hx Hy).
           f_equal. f_equal. lia.
      * split.
        -- rewrite Hd, S2. simpl. ring.
        -- rewrite Ht, S3. simpl. ring.
Qed.

Lemma routeSegments_legs (wps : list Waypoint) :
  forall (i : nat) (acc : list RouteLeg * Q * Q),
    fst (fst (routeSegments osrm i wps acc))
    = fst (fst acc) ++ legsFor osrm i wps.
Proof.
  induction wps as [|a rest IH]; intros i acc.
  - simpl. now rewrite app_nil_r.
  - destruct rest as [|b rest'].
    + simpl. now rewrite app_nil_r.
    + change (routeSegments osrm i (a :: b :: rest') acc)
        with (routeSegments osrm (S i) (b :: rest')
                (routeSegment osrm i a b acc)).
      change (legsFor osrm i (a :: b :: rest'))
        with (legFor osrm i a b :: legsFor osrm (S i) (b :: rest')).
      rewrite IH.
      destruct (routeSegment_shape i a b acc) as [S1 | [_ S1]];
        rewrite S1; simpl; rewrite <- app_assoc; reflexivity.
Qed.

(** With fewer than two waypoints the service throws its own error.  With
    two or more it rejects with a [RangeError] when the legs together hold
    more coordinates than the engine's argument limit, and returns a route
    otherwise.  A returned route has one leg per consecutive pair of
    waypoints, in order: the OSRM geometry (GeoJSON [lng, lat] turned into
    lat/lng) with its distance and duration when the request for that pair
    succeeded, the straight line between the two waypoints with distance 0
    when it did not; the mode of each leg is the [modeToNext] of the
    waypoint it starts from. *)
Theorem getMultiStopRoute_one_leg_per_pair (wps : list Waypoint) :
  ((length wps < 2)%nat ->
   getMultiStopRoute osrm argumentLimit wps = inl TooFewWaypoints)
  /\ ((2 <= length wps)%nat ->
      let n := length (flat_map coordinates (legsFor osrm 0 wps)) in
      ((argumentLimit < n)%nat ->
       getMultiStopRoute osrm argumentLimit wps = inl TooManyArguments)
      /\ ((n <= argumentLimit)%nat ->
          exists rd, getMultiStopRoute osrm argumentLimit wps = inr rd))
  /\ (forall rd,
         getMultiStopRoute osrm argumentLimit wps = inr rd ->
         length (legs rd) = (length wps - 1)%nat
         /\ (forall k a b,
                nth_error wps k = Some a -> nth_error wps (S k) = Some b ->
                exists leg,
                  nth_error (legs rd) k = Some leg
                  /\ leg = legFor osrm k a b
                  /\ mode leg = modeToNext a)
         /\ (length (flat_map coordinates (legs rd)) <= argumentLimit)%nat).
Proof.
  split; [|split].
  - intro H. unfold getMultiStopRoute.
    replace (length wps <? 2)%nat with true
      by (symmetry; apply Nat.ltb_lt; exact H).
    reflexivity.
  - intros H n.
    pose proof (routeSegments_legs wps 0 ([], 0, 0)) as E.
    unfold getMultiStopRoute.
    replace (length wps <? 2)%nat with false
      by (symmetry; apply Nat.ltb_ge; exact H).
    destruct (routeSegments osrm 0 wps ([], 0, 0)) as [[ls td] tdur].
    simpl in E. subst ls. fold n.
    split; intro Hn.
    + replace (0 <? n)%nat with true by (symmetry; apply Nat.ltb_lt; lia).
      replace (argumentLimit <? n)%nat with true
        by (symmetry; apply Nat.ltb_lt; exact Hn).
      reflexivity.
    + replace (argumentLimit <? n)%nat with false
        by (symmetry; apply Nat.ltb_ge; exact Hn).
      rewrite andb_false_r. eexists. reflexivity.
  - intros rd. unfold getMultiStopRoute.
    destruct (length wps <? 2)%nat eqn:Hlen2; [discriminate|].
    destruct (routeSegments_spec wps 0 ([], 0, 0))
      as (new & E & Hlen & Hnth & _).
    destruct (routeSegments osrm 0 wps ([], 0, 0)) as [[ls td] tdur].
    simpl in E. subst ls.
    destruct ((0 <? length (flat_map coordinates new))%nat
              && (argumentLimit <? length (flat_map coordinates new))%nat)
      eqn:Hfit; [discriminate|].
    intro H. inversion H; subst rd. simpl.
    split; [exact Hlen|]. split.
    + intros k a b Ha Hb. exists (legFor osrm k a b).
      split; [exact (Hnth k a b Ha Hb)|]. split; [reflexivity|].
      unfold legFor. destruct (osrm k (coords a) (coords b)); reflexivity.
    + apply andb_false_iff in Hfit. destruct Hfit as [Hz | Hl].
      * apply Nat.ltb_ge in Hz. lia.
      * apply Nat.ltb_ge in Hl. exact Hl.
Qed.

(** The totals of the route are the sums of its legs' distances and
    durations; a straight fallback leg adds nothing to either. *)
Theorem getMultiStopRoute_totals (wps : list Waypoint) (rd : RouteData) :
  getMultiStopRoute osrm argumentLimit wps = inr rd ->
  totalDistance rd == Qsum (map distance (legs rd))
  /\ totalDuration rd == Qsum (map duration (legs rd)).
Proof.
  unfold getMultiStopRoute.
  destruct (length wps <? 2)%nat; [discriminate|].
  destruct (routeSegments_spec wps 0 ([], 0, 0))
    as (new & E & _ & _ & Hd & Ht).
  destruct (routeSegments osrm 0 wps ([], 0, 0)) as [[ls td] tdur].
  simpl in E, Hd, Ht. subst ls.
  destruct ((0 <? length (flat_map coordinates new))%nat
            && (argumentLimit <? length (flat_map coordinates new))%nat);
    [discriminate|].
  intro H. inversion H; subst rd. simpl.
  split; [rewrite Hd; ring | rewrite Ht; ring].
Qed.

End RouteServiceFacts.

Lemma getMultiStopRoute_one_leg_per_pair_witness :
  getMultiStopRoute sampleOsrm 4096 [] = inl TooFewWaypoints
  /\ getMultiStopRoute sampleOsrm 4 sampleWaypoints = inl TooManyArguments
  /\ (exists rd, getMultiStopRoute sampleOsrm 4096 sampleWaypoints = inr rd)
  /\ (forall rd,
         getMultiStopRoute sampleOsrm 4096 sampleWaypoints = inr rd ->
         length (legs rd) = 2%nat
         /\ (forall k a b,
                nth_error sampleWaypoints k = Some a ->
                nth_error sampleWaypoints (S k) = Some b ->
                exists leg,
                  nth_error (legs rd) k = Some leg
                  /\ leg = legFor sampleOsrm k a b
                  /\ mode leg = modeToNext a)
         /\ (length (flat_map coordinates (legs rd)) <= 4096)%nat).
Proof.
  split; [|split; [|split]].
  - apply (getMultiStopRoute_one_leg_per_pair sampleOsrm 4096 []).
    simpl. lia.
  - apply (getMultiStopRoute_one_leg_per_pair sampleOsrm 4 sampleWaypoints).
    + simpl. lia.
    + simpl. lia.
  - apply (getMultiStopRoute_one_leg_per_pair sampleOsrm 4096
             sampleWaypoints).
    + simpl. lia.
    + simpl. lia.
  - apply (getMultiStopRoute_one_leg_per_pair sampleOsrm 4096
             sampleWaypoints).
Defined.

Lemma getMultiStopRoute_totals_witness :
  exists rd,
    getMultiStopRoute sampleOsrm 4096 sampleWaypoints = inr rd
    /\ totalDistance rd == Qsum (map distance (legs rd))
    /\ totalDuration rd == Qsum (map duration (legs rd)).
Proof.
  eexists. split.
  - vm_compute. reflexivity.
  - apply (getMultiStopRoute_totals sampleOsrm 4096 sampleWaypoints).
    vm_compute. reflexivity.
Defined.

(** *** The bounding box *)

Lemma minOf_le (xs : list Q) :
  forall x, minOf x xs <= x /\ forall y, In y xs -> minOf x xs <= y.
Proof.
  unfold minOf. induction xs as [|a xs IH]; intro x; simpl.
  - split; [lra | intros y []].
  - destruct (IH (Qmin x a)) as [H1 H2].
    pose proof (Q.le_min_l x a). pose proof (Q.le_min_r x a).
    split; [lra|]. intros y [-> | Hy]; [lra | apply H2; exact Hy].
Qed.

Lemma maxOf_ge (xs : list Q) :
  forall x, x <= maxOf x xs /\ forall y, In y xs -> y <= maxOf x xs.
Proof.
  unfold maxOf. induction xs as [|a xs IH]; intro x; simpl.
  - split; [lra | intros y []].
  - destruct (IH (Qmax x a)) as [H1 H2].
    pose proof (Q.le_max_l x a). pose proof (Q.le_max_r x a).
    split; [lra|]. intros y [<- | Hy]; [lra | apply H2; exact Hy].
Qed.

(** Padding only widens a range, to at least [minDiff]. *)
Lemma padRange_widens (lo hi : Q) :
  lo <= hi ->
  fst (padRange lo hi) <= lo /\ hi <= snd (padRange lo hi)
  /\ minDiff <= snd (padRange lo hi) - fst (padRange lo hi).
Proof.
  intro H. unfold padRange.
  destruct (Qltb (hi - lo) minDiff) eqn:E.
  - apply Qltb_true_iff in E. unfold minDiff in *. simpl.
    assert (Hc : (hi + lo) / 2 == (hi + lo) * (1 # 2))
      by (unfold Qdiv; reflexivity).
    rewrite Hc. repeat split; lra.
  - apply Qltb_false_iff in E. simpl. repeat split; lra.
Qed.

(** The bounding box of a non-empty list of coordinates contains every one
    of them and is at least 0.05 degrees high and wide; without any
    coordinate the default bounds are returned. *)
Lemma boundingBoxOf_contains (allCoords : list Coordinates) :
  (allCoords = [] -> boundingBoxOf allCoords = defaultBounds)
  /\ (allCoords <> [] ->
      let '(sw, ne) := boundingBoxOf allCoords in
      (forall c, In c allCoords ->
                 lat sw <= lat c <= lat ne /\ lng sw <= lng c <= lng ne)
      /\ 5 # 100 <= lat ne - lat sw
      /\ 5 # 100 <= lng ne - lng sw).
Proof.
  split.
  - intros ->. reflexivity.
  - intro Hne. destruct allCoords as [|c0 rest]; [congruence|].
    unfold boundingBoxOf. simpl map.
    destruct (minOf_le (map lat rest) (lat c0)) as [A1 A2].
    destruct (maxOf_ge (map lat rest) (lat c0)) as [B1 B2].
    destruct (minOf_le (map lng rest) (lng c0)) as [C1 C2].
    destruct (maxOf_ge (map lng rest) (lng c0)) as [D1 D2].
    destruct (padRange_widens (minOf (lat c0) (map lat rest))
                (maxOf (lat c0) (map lat rest))) as (P1 & P2 & P3); [lra|].
    destruct (padRange_widens (minOf (lng c0) (map lng rest))
                (maxOf (lng c0) (map lng rest))) as (R1 & R2 & R3); [lra|].
    destruct (padRange (minOf (lat c0) (map lat rest))
                (maxOf (lat c0) (map lat rest))) as [minLat maxLat].
    destruct (padRange (minOf (lng c0) (map lng rest))
                (maxOf (lng c0) (map lng rest))) as [minLng maxLng].
    simpl in *. unfold minDiff in *.
    split; [|split; assumption].
    intros c [<- | Hc].
    + repeat split; lra.
    + pose proof (A2 (lat c) (in_map lat rest c Hc)).
      pose proof (B2 (lat c) (in_map lat rest c Hc)).
      pose proof (C2 (lng c) (in_map lng rest c Hc)).
      pose proof (D2 (lng c) (in_map lng rest c Hc)).
      repeat split; lra.
Qed.

(** The bounding box of a returned route contains every coordinate of
    every leg; when some leg has a coordinate it is at least 0.05 degrees
    high and wide (a narrower box is padded around its centre); when no leg
    has any, it is the default box. *)
Theorem getMultiStopRoute_box_contains_route
    (osrm : nat -> Coordinates -> Coordinates -> option OsrmRoute)
    (argumentLimit : nat) (wps : list Waypoint) (rd : RouteData) :
  getMultiStopRoute osrm argumentLimit wps = inr rd ->
  let sw := fst (boundingBox rd) in
  let ne := snd (boundingBox rd) in
  (forall leg c,
      In leg (legs rd) -> In c (coordinates leg) ->
      lat sw <= lat c <= lat ne /\ lng sw <= lng c <= lng ne)
  /\ ((exists leg, In leg (legs rd) /\ coordinates leg <> []) ->
      5 # 100 <= lat ne - lat sw /\ 5 # 100 <= lng ne - lng sw)
  /\ ((forall leg, In leg (legs rd) -> coordinates leg = []) ->
      boundingBox rd = defaultBounds).
Proof.
  unfold getMultiStopRoute.
  destruct (length wps <? 2)%nat; [discriminate|].
  destruct (routeSegments osrm 0 wps ([], 0, 0)) as [[ls td] tdur].
  destruct ((0 <? length (flat_map coordinates ls))%nat
            && (argumentLimit <? length (flat_map coordinates ls))%nat);
    [discriminate|].
  intro H. inversion H; subst rd. simpl. clear H.
  destruct (boundingBoxOf_contains (flat_map coordinates ls))
    as [Hdefault Hbox].
  split; [|split].
  - intros leg c Hleg Hc.
    assert (Hin : In c (flat_map coordinates ls))
      by (apply in_flat_map; exists leg; split; assumption).
    assert (Hne : flat_map coordinates ls <> [])
      by (intro E; rewrite E in Hin; exact Hin).
    specialize (Hbox Hne).
    destruct (boundingBoxOf (flat_map coordinates ls)) as [sw ne].
    simpl. destruct Hbox as (Hall & _). exact (Hall c Hin).
  - intros (leg & Hleg & Hc).
    assert (Hne : flat_map coordinates ls <> []).
    { destruct (coordinates leg) as [|c cs] eqn:Ec; [congruence|].
      intro E.
      assert (Hin : In c (flat_map coordinates ls)).
      { apply in_flat_map. exists leg. split; [exact Hleg|].
        rewrite Ec. left. reflexivity. }
      rewrite E in Hin. exact Hin. }
    specialize (Hbox Hne).
    destruct (boundingBoxOf (flat_map coordinates ls)) as [sw ne].
    simpl. destruct Hbox as (_ & H1 & H2). split; assumption.
  - intro Hall. apply Hdefault. clear Hdefault Hbox.
    induction ls as [|leg ls IH]; [reflexivity|].
    simpl. rewrite (Hall leg (or_introl eq_refl)). simpl.
    apply IH. intros l Hl. apply Hall. right. exact Hl.
Qed.

Lemma getMultiStopRoute_box_contains_route_witness :
  exists rd,
    getMultiStopRoute sampleOsrm 4096 sampleWaypoints = inr rd
    /\ (forall leg c,
           In leg (legs rd) -> In c (coordinates leg) ->
           lat (fst (boundingBox rd)) <= lat c <= lat (snd (boundingBox rd))
           /\ lng (fst (boundingBox rd)) <= lng c
              <= lng (snd (boundingBox rd)))
    /\ ((exists leg, In leg (legs rd) /\ coordinates leg <> []) ->
        5 # 100 <= lat (snd (boundingBox rd)) - lat (fst (boundingBox rd))
        /\ 5 # 100
           <= lng (snd (boundingBox rd)) - lng (fst (boundingBox rd)))
    /\ ((forall leg, In leg (legs rd) -> coordinates leg = []) ->
        boundingBox rd = defaultBounds).
Proof.
  eexists. split.
  - vm_compute. reflexivity.
  - apply (getMultiStopRoute_box_contains_route sampleOsrm 4096
             sampleWaypoints).
    vm_compute. reflexivity.
Defined.

(** ** From the route service to the map *)

Lemma flat_map_length_ge (ls : list RouteLeg) (leg : RouteLeg) :
  In leg ls ->
  (length (coordinates leg) <= length (flat_map coordinates ls))%nat.
Proof.
  induction ls as [|x ls IH]; intros []; simpl; rewrite length_app.
  - subst x. lia.
  - specialize (IH H). lia.
Qed.

(** A failed request does not stop the animation.  If the request for some
    pair of consecutive waypoints fails, every route the service returns
    has for that pair the straight line between the two waypoints, the
    path built from the route has at least two points, and loading the
    route and pressing play starts a run. *)
Theorem failed_request_still_playable
    (osrm : nat -> Coordinates -> Coordinates -> option OsrmRoute)
    (argumentLimit : nat)
    (distanceTo : LatLng -> LatLng -> Q)
    (fitBoundsView : Coordinates -> Coordinates -> View -> View)
    (wps : list Waypoint) (rd : RouteData) (s0 : MapState) (now : Q)
    (k : nat) (a b : Waypoint) :
  framesTracked s0 ->
  nth_error wps k = Some a -> nth_error wps (S k) = Some b ->
  osrm k (coords a) (coords b) = None ->
  getMultiStopRoute osrm argumentLimit wps = inr rd ->
  nth_error (legs rd) k
  = Some (mkRouteLeg [coords a; coords b] (modeToNext a) 0 0)
  /\ (2 <= length (fst (buildPath distanceTo (legs rd))))%nat
  /\ playing (animationEffect true now
                (setupRoute distanceTo fitBoundsView (Some rd) s0)).
Proof.
  intros Htracked Ha Hb Hfail.
  unfold getMultiStopRoute.
  destruct (length wps <? 2)%nat; [discriminate|].
  destruct (routeSegments_spec osrm wps 0 ([], 0, 0))
    as (new & E & _ & Hnth & _).
  destruct (routeSegments osrm 0 wps ([], 0, 0)) as [[ls td] tdur].
  simpl in E. subst ls.
  destruct ((0 <? length (flat_map coordinates new))%nat
            && (argumentLimit <? length (flat_map coordinates new))%nat);
    [discriminate|].
  intro Hrd.
  assert (Hlegs : legs rd = new) by (inversion Hrd; reflexivity).
  clear Hrd. rewrite Hlegs.
  pose proof (Hnth k a b Ha Hb) as Hleg. simpl in Hleg.
  unfold legFor in Hleg. rewrite Hfail in Hleg.
  split; [exact Hleg|].
  assert (Hpath : (2 <= length (fst (buildPath distanceTo new)))%nat).
  { rewrite buildPath_length.
    pose proof (flat_map_length_ge new _ (nth_error_In _ _ Hleg)) as H.
    simpl in H. exact H. }
  split; [exact Hpath|].
  destruct (setupRoute_loaded distanceTo fitBoundsView rd s0 Htracked)
    as (Lpath & _ & Lp & Ln & _ & La & _ & Lr).
  assert (Hl : (2 <= length (pathDataRef
                               (setupRoute distanceTo fitBoundsView
                                  (Some rd) s0)))%nat)
    by (rewrite Lpath, Hlegs; exact Hpath).
  apply animationEffect_starts; auto.
  - apply Lr. lia.
  - rewrite Ln. apply Htracked.
Qed.

Lemma failed_request_still_playable_witness :
  exists rd,
    getMultiStopRoute sampleOsrm 4096 sampleWaypoints = inr rd
    /\ nth_error (legs rd) 1
       = Some (mkRouteLeg [at_grid 59 18; at_grid 55 13] TRAIN 0 0)
    /\ (2 <= length (fst (buildPath gridDistance (legs rd))))%nat
    /\ playing (animationEffect true 1000
                  (setupRoute gridDistance keepView (Some rd)
                     (initialState (mkView (at_grid 5 5) 5)))).
Proof.
  eexists. split; [vm_compute; reflexivity|].
  apply (failed_request_still_playable sampleOsrm 4096 gridDistance keepView
           sampleWaypoints _ (initialState (mkView (at_grid 5 5) 5)) 1000
           1%nat (mkWaypoint "stop1" "B" (at_grid 59 18) TRAIN)
           (mkWaypoint "end" "C" (at_grid 55 13) CAR)).
  - split; [reflexivity | left; reflexivity].
  - reflexivity.
  - reflexivity.
  - reflexivity.
  - vm_compute. reflexivity.
Defined.

(** ** The last frame, and the vehicle between frames *)





(** A target between 0 and the last cumulative distance lies on the segment
    chosen for it. *)
Lemma interpolate_within (path : list PathPoint) (d : Q)
    (first final : PathPoint) :
  (2 <= length path)%nat ->
  nth_error path 0 = Some first -> cumulativeDistance first == 0 ->
  JsArray.lastOpt path = Some final ->
  0 <= d -> d <= cumulativeDistance final ->
  exists r,
    interpolate path d = inr r
    /\ 0 <= ratio r <= 1
    /\ Qmin (pp_lat (p1 r)) (pp_lat (p2 r)) <= i_lat r
       <= Qmax (pp_lat (p1 r)) (pp_lat (p2 r))
    /\ Qmin (pp_lng (p1 r)) (pp_lng (p2 r)) <= i_lng r
       <= Qmax (pp_lng (p1 r)) (pp_lng (p2 r)).
Proof.
  intros Hlen H0 Hc0 Hlast Hd0 Hd1.
  destruct (findSegment_cases path d Hlen)
    as (n & a & b & E & Ha & Hb
        & [[_ Hall] | [[-> Hle] | (Hlt & Hle & _)]]).
  - destruct (lastOpt_nth _ _ Hlast) as [Hl _].
    pose proof (Forall_nth_error _ _ _ _ Hall Hl) as Hc. simpl in Hc. lra.
  - rewrite H0 in Ha. inversion Ha; subst a.
    assert (Hr : 0 <= segmentRatio first b d <= 1)
      by (rewrite (segmentRatio_at_start first b d) by lra; lra).
    eexists. split; [apply (interpolate_on_segment _ _ _ _ _ E H0 Hb)|].
    simpl. split; [exact Hr|]. split; apply blend_between; exact Hr.
  - assert (Hr : 0 <= segmentRatio a b d <= 1)
      by (apply segmentRatio_bounds; lra).
    eexists. split; [apply (interpolate_on_segment _ _ _ _ _ E Ha Hb)|].
    simpl. split; [exact Hr|]. split; apply blend_between; exact Hr.
Qed.

Section VehicleOnThePath.

Variable distanceTo : LatLng -> LatLng -> Q.
Variable fitBoundsView : Coordinates -> Coordinates -> View -> View.
Hypothesis distanceTo_nonneg : forall a b, 0 <= distanceTo a b.

(** During a run on a loaded route, a frame whose elapsed time is between 0
    and the duration puts the vehicle on the interpolated segment: the ratio
    is in [0, 1] and the vehicle's latitude and longitude lie between those
    of the segment's two end points. *)
Theorem run_keeps_vehicle_on_path (rd : RouteData) (s0 : MapState)
    (now : Q) (before : list Q) (t : Q) :
  framesTracked s0 ->
  let loaded := setupRoute distanceTo fitBoundsView (Some rd) s0 in
  let run := animationEffect true now loaded in
  (2 <= length (pathDataRef loaded))%nat ->
  Forall (fun u => u - now < durationMs) before ->
  0 <= t - now -> t - now < durationMs ->
  exists s1 s2 r icon,
    runFrames before run = inr s1
    /\ runFrame t s1 = inr s2
    /\ interpolate (fst (buildPath distanceTo (legs rd)))
         (snd (buildPath distanceTo (legs rd)) * rawProgress (t - now))
       = inr r
    /\ vehicleMarkerRef s2
       = Some (mkMarker (latLng (i_lat r) (i_lng r)) icon)
    /\ 0 <= ratio r <= 1
    /\ Qmin (pp_lat (p1 r)) (pp_lat (p2 r)) <= i_lat r
       <= Qmax (pp_lat (p1 r)) (pp_lat (p2 r))
    /\ Qmin (pp_lng (p1 r)) (pp_lng (p2 r)) <= i_lng r
       <= Qmax (pp_lng (p1 r)) (pp_lng (p2 r)).
Proof.
  intros Htracked loaded run Hlen Hbefore Ht0 Ht1.
  destruct (setupRoute_loaded distanceTo fitBoundsView rd s0 Htracked)
    as (Lpath & Ltotal & Lp & Ln & _ & La & _ & Lr).
  fold loaded in Lpath, Ltotal, Lp, Ln, La, Lr.
  destruct (animationEffect_starts now loaded)
    as (Rplay & Rt & _ & Rd & Rl & _); auto.
  { apply Lr. lia. }
  { rewrite Ln. apply Htracked. }
  fold run in Rplay, Rt, Rd, Rl.
  destruct (runFrames_running_keep before run Rplay)
    as (s1 & E1 & P1 & T1 & D1 & L1 & Z1 & _).
  { rewrite Rt. exact Hbefore. }
  assert (Hrun : t - startTimeRef s1 < durationMs) by (rewrite T1, Rt; lra).
  destruct (runFrame_running t s1 P1 Hrun) as (r & Er & E2).
  cbv zeta in E2.
  rewrite D1, Rd, Lpath, L1, Rl, Ltotal, T1, Rt in Er.
  (* the target lies on the path *)
  set (path := fst (buildPath distanceTo (legs rd))) in *.
  set (total := snd (buildPath distanceTo (legs rd))) in *.
  assert (Hlen' : (2 <= length path)%nat) by (rewrite <- Lpath; exact Hlen).
  destruct (nth_error_in_range path 0) as [first H0]; [lia|].
  destruct (lastOpt_nonempty path) as [final Hfinal]; [lia|].
  destruct (buildPath_inv distanceTo (legs rd)) as (_ & Hz & _).
  fold path in Hz.
  destruct (buildPath_total_facts distanceTo (legs rd) distanceTo_nonneg)
    as (_ & Hcum & Htot).
  fold path in Hcum. fold total in Hcum, Htot.
  pose proof (Hcum final Hfinal) as Hcf.
  assert (Hrp : rawProgress (t - now) == (t - now) / 90000)
    by (apply rawProgress_linear; lra).
  assert (Hrp0 : 0 <= rawProgress (t - now)).
  { rewrite Hrp. apply Qle_shift_div_l; [reflexivity | lra]. }
  assert (Hrp1 : rawProgress (t - now) <= 1).
  { rewrite Hrp. apply Qle_shift_div_r; [reflexivity|].
    unfold durationMs, ANIMATION_DURATION_SECONDS in Ht1. lra. }
  destruct (interpolate_within path (total * rawProgress (t - now))
              first final Hlen' H0 (Hz first H0) Hfinal)
    as (r' & Er' & Hratio & Hlat & Hlng); [nra | nra |].
  rewrite Er in Er'. inversion Er'; subst r'. clear Er'.
  (* the vehicle is put there *)
  destruct P1 as (Hready & _).
  destruct (frameStart_fields s1) as (F1 & _).
  assert (Hready' : layersReady (frameStart s1) = true) by congruence.
  assert (Hu := updateMapState_frame
                  (mkPathPoint (i_lat r) (i_lng r) (i_mode r)
                     (totalDistanceRef s1
                      * rawProgress (t - startTimeRef s1)))
                  false (isFlipped r) (latLng (i_lat r) (i_lng r))
                  (currentZoom (startZoomRef s1) (t - startTimeRef s1))
                  (frameStart s1) Hready').
  cbv zeta in Hu.
  destruct Hu as (_ & _ & _ & _ & _ & _ & _ & _ & _ & _ & (icon & Um) & _).
  exists s1. eexists. exists r, icon.
  split; [exact E1|]. split; [exact E2|]. split; [exact Er|].
  split.
  { match goal with
    | |- context [requestAnimationFrame ?u'] =>
        destruct (request_display u') as (_ & _ & R3 & _)
    end.
    cbv zeta in R3. rewrite R3. exact Um. }
  split; [exact Hratio|]. split; assumption.
Qed.

End VehicleOnThePath.

Lemma run_keeps_vehicle_on_path_witness :
  exists s1 s2 r icon,
    runFrames [23500] samplePlaying = inr s1
    /\ runFrame 68500 s1 = inr s2
    /\ interpolate samplePath
         (snd (buildPath gridDistance sampleLegs)
          * rawProgress (68500 - 1000))
       = inr r
    /\ vehicleMarkerRef s2
       = Some (mkMarker (latLng (i_lat r) (i_lng r)) icon)
    /\ 0 <= ratio r <= 1
    /\ Qmin (pp_lat (p1 r)) (pp_lat (p2 r)) <= i_lat r
       <= Qmax (pp_lat (p1 r)) (pp_lat (p2 r))
    /\ Qmin (pp_lng (p1 r)) (pp_lng (p2 r)) <= i_lng r
       <= Qmax (pp_lng (p1 r)) (pp_lng (p2 r)).
Proof.
  apply (run_keeps_vehicle_on_path gridDistance keepView
           gridDistance_nonneg sampleRoute
           (initialState (mkView (at_grid 5 5) 5)) 1000 [23500] 68500).
  - split; [reflexivity | left; reflexivity].
  - vm_compute. lia.
  - repeat constructor.
  - vm_compute. discriminate.
  - vm_compute. reflexivity.
Defined.

(** ** The waypoint list of the control panel *)

Lemma splice_insert {A} (l : list A) (start : nat) (items : list A) :
  splice l start 0 items = firstn start l ++ items ++ skipn start l.
Proof.
  unfold splice. simpl Nat.min. rewrite Nat.add_0_r.
  destruct (Nat.le_ge_cases start (length l)) as [H | H].
  - now rewrite Nat.min_l by exact H.
  - rewrite Nat.min_r by exact H.
    rewrite (firstn_all2 l H), firstn_all, (skipn_all2 l H), skipn_all.
    reflexivity.
Qed.

Lemma splice_delete_one {A} (l : list A) (start : nat) :
  splice l start 1 [] = firstn start l ++ skipn (S start) l.
Proof.
  unfold splice. cbv zeta. rewrite app_nil_l.
  destruct (Nat.lt_ge_cases start (length l)) as [H | H].
  - rewrite (Nat.min_l start (length l)) by lia.
    rewrite (Nat.min_l 1 (length l - start)) by lia.
    now rewrite Nat.add_1_r.
  - rewrite (Nat.min_r start (length l)) by lia.
    rewrite Nat.sub_diag, (Nat.min_r 1 0) by lia.
    rewrite Nat.add_0_r, firstn_all, skipn_all.
    rewrite (firstn_all2 l H), (skipn_all2 l) by lia. reflexivity.
Qed.

(** Adding a waypoint puts an empty stop just before the destination: the
    waypoints before it and the destination keep their order, and, the new
    stop having latitude 0, no route is generated until it gets a place. *)
Theorem addWaypoint_before_destination (newId : string)
    (front : list Waypoint) (destination : Waypoint) (isPlaying : bool) :
  addWaypoint newId (front ++ [destination])
  = front ++ [newPoint newId; destination]
  /\ routeGenerationDue (addWaypoint newId (front ++ [destination]))
       isPlaying = false.
Proof.
  assert (E : addWaypoint newId (front ++ [destination])
              = front ++ [newPoint newId; destination]).
  { unfold addWaypoint. rewrite splice_insert, length_app. simpl length.
    replace (length front + 1 - 1)%nat with (length front) by lia.
    rewrite firstn_app, firstn_all, Nat.sub_diag. simpl firstn.
    rewrite app_nil_r.
    rewrite skipn_app, skipn_all, Nat.sub_diag. simpl. reflexivity. }
  split; [exact E|]. rewrite E. unfold routeGenerationDue.
  rewrite forallb_app. simpl.
  rewrite andb_false_r. reflexivity.
Qed.

(** Removing a waypoint never leaves fewer than two: with two or fewer
    nothing is removed; with more, the waypoint at the index is taken out
    and the others keep their order (an index past the end removes
    nothing). *)
Theorem removeWaypoint_keeps_two (index : nat) (wps : list Waypoint) :
  ((length wps <= 2)%nat -> removeWaypoint index wps = wps)
  /\ ((2 < length wps)%nat ->
      removeWaypoint index wps = firstn index wps ++ skipn (S index) wps
      /\ ((index < length wps)%nat ->
          length (removeWaypoint index wps) = (length wps - 1)%nat)
      /\ ((length wps <= index)%nat -> removeWaypoint index wps = wps))
  /\ ((2 <= length wps)%nat -> (2 <= length (removeWaypoint index wps))%nat).
Proof.
  assert (Hsmall : (length wps <= 2)%nat -> removeWaypoint index wps = wps).
  { intro H. unfold removeWaypoint.
    now replace (length wps <=? 2)%nat with true
      by (symmetry; apply Nat.leb_le; exact H). }
  assert (Hbig : (2 < length wps)%nat ->
                 removeWaypoint index wps
                 = firstn index wps ++ skipn (S index) wps).
  { intro H. unfold removeWaypoint.
    replace (length wps <=? 2)%nat with false
      by (symmetry; apply Nat.leb_gt; exact H).
    apply splice_delete_one. }
  split; [exact Hsmall|]. split.
  - intro H. split; [exact (Hbig H)|]. split.
    + intro Hi. rewrite (Hbig H), length_app, length_firstn, length_skipn.
      lia.
    + intro Hi. rewrite (Hbig H).
      rewrite (firstn_all2 wps Hi), (skipn_all2 wps) by lia.
      apply app_nil_r.
  - intro H. destruct (Nat.le_gt_cases (length wps) 2) as [Hs | Hb].
    + rewrite (Hsmall Hs). exact H.
    + rewrite (Hbig Hb), length_app, length_firstn, length_skipn. lia.
Qed.

Lemma splice_move_permutation {A} (l : list A) (start end_ : nat) (x : A) :
  nth_error l start = Some x ->
  Permutation l (splice (splice l start 1 []) end_ 0 [x]).
Proof.
  intro Hx. rewrite splice_delete_one, splice_insert.
  set (rest := firstn start l ++ skipn (S start) l).
  assert (Hl : Permutation l (x :: rest)).
  { unfold rest.
    rewrite <- (firstn_skipn start l) at 1.
    assert (Hs : skipn start l = x :: skipn (S start) l).
    { clear rest. revert start Hx.
      induction l as [|a l IH]; intros [|n] Hx; simpl in *;
        try discriminate.
      - inversion Hx. reflexivity.
      - apply IH. exact Hx. }
    rewrite Hs. symmetry. apply Permutation_middle. }
  rewrite Hl. simpl app.
  rewrite <- (firstn_skipn end_ rest) at 1.
  apply Permutation_middle.
Qed.

(** Dropping a dragged waypoint only reorders the list: the result is a
    permutation of the waypoints, of the same length, with the dragged
    waypoint at the position it was dropped on; dropping on its own place,
    or without a drag or a target, changes nothing. *)
Theorem handleDragEnd_reorders (dragItem dragOverItem : option nat)
    (wps wps' : list Waypoint) :
  handleDragEnd dragItem dragOverItem wps = Some wps' ->
  Permutation wps wps'
  /\ length wps' = length wps
  /\ (forall start end_,
         dragItem = Some start -> dragOverItem = Some end_ ->
         (end_ < length wps)%nat ->
         nth_error wps' end_ = nth_error wps start)
  /\ ((dragItem = None \/ dragOverItem = None \/ dragItem = dragOverItem) ->
      wps' = wps).
Proof.
  intro H.
  assert (Hperm : Permutation wps wps').
  { unfold handleDragEnd in H.
    destruct dragItem as [start|]; [|inversion H; reflexivity].
    destruct dragOverItem as [end_|]; [|inversion H; reflexivity].
    destruct (negb (start =? end_)%nat); [|inversion H; reflexivity].
    destruct (nth_error wps start) as [item|] eqn:Hitem; [|discriminate].
    inversion H. apply splice_move_permutation. exact Hitem. }
  split; [exact Hperm|].
  split; [symmetry; apply Permutation_length; exact Hperm|].
  split.
  - intros start end_ -> -> Hend. unfold handleDragEnd in H.
    destruct (Nat.eqb_spec start end_) as [-> | Hne]; simpl in H.
    + inversion H. reflexivity.
    + destruct (nth_error wps start) as [item|] eqn:Hitem; [|discriminate].
      inversion H. rewrite splice_delete_one, splice_insert.
      assert (Hstart : (start < length wps)%nat)
        by (apply nth_error_Some; congruence).
      assert (Hlen : length (firstn start wps ++ skipn (S start) wps)
                     = (length wps - 1)%nat)
        by (rewrite length_app, length_firstn, length_skipn; lia).
      rewrite nth_error_app2; rewrite length_firstn, Hlen.
      * replace (end_ - Nat.min end_ (length wps - 1))%nat with 0%nat by lia.
        reflexivity.
      * lia.
  - intros [-> | [-> | ->]]; unfold handleDragEnd in H.
    + inversion H. reflexivity.
    + destruct dragItem; inversion H; reflexivity.
    + destruct dragOverItem as [n|]; [|inversion H; reflexivity].
      rewrite Nat.eqb_refl in H. inversion H. reflexivity.
Qed.

Lemma waypointEdit_keeps_two (wps wps' : list Waypoint) :
  waypointEdit wps wps' ->
  (2 <= length wps)%nat -> (2 <= length wps')%nat.
Proof.
  intros [newId l | index l | a b l l' Hdrag] H.
  - unfold addWaypoint. rewrite splice_insert.
    rewrite !length_app, length_firstn, length_skipn. simpl. lia.
  - unfold removeWaypoint.
    destruct (Nat.leb_spec (length l) 2); [exact H|].
    rewrite splice_delete_one, length_app, length_firstn, length_skipn.
    lia.
  - unfold handleDragEnd in Hdrag.
    destruct a as [start|]; [|inversion Hdrag; subst; exact H].
    destruct b as [end_|]; [|inversion Hdrag; subst; exact H].
    destruct (negb (start =? end_)%nat); [|inversion Hdrag; subst; exact H].
    destruct (nth_error l start) as [item|] eqn:Hitem; [|discriminate].
    inversion Hdrag.
    rewrite <- (Permutation_length
                  (splice_move_permutation l start end_ item Hitem)).
    exact H.
Qed.

(** Starting from two or more waypoints, no sequence of additions, removals
    and drags brings the list below two waypoints, so on a list edited
    through the panel the route service never throws its too-few-waypoints
    error. *)
Theorem edited_waypoints_never_too_few
    (osrm : nat -> Coordinates -> Coordinates -> option OsrmRoute)
    (argumentLimit : nat) (wps wps' : list Waypoint) :
  (2 <= length wps)%nat ->
  waypointEdits wps wps' ->
  (2 <= length wps')%nat
  /\ getMultiStopRoute osrm argumentLimit wps' <> inl TooFewWaypoints.
Proof.
  intros H Hedits.
  assert (Hlen : (2 <= length wps')%nat).
  { induction Hedits as [l | l l' l'' _ IH Hstep]; [exact H|].
    apply (waypointEdit_keeps_two l' l'' Hstep). apply IH. exact H. }
  split; [exact Hlen|].
  unfold getMultiStopRoute.
  replace (length wps' <? 2)%nat with false
    by (symmetry; apply Nat.ltb_ge; exact Hlen).
  destruct (routeSegments osrm 0 wps' ([], 0, 0)) as [[ls td] tdur].
  destruct ((0 <? length (flat_map coordinates ls))%nat
            && (argumentLimit <? length (flat_map coordinates ls))%nat);
    discriminate.
Qed.

Lemma handleDragEnd_reorders_witness :
  exists wps',
    handleDragEnd (Some 0%nat) (Some 2%nat) sampleWaypoints = Some wps'
    /\ Permutation sampleWaypoints wps'
    /\ length wps' = 3%nat
    /\ nth_error wps' 2 = nth_error sampleWaypoints 0.
Proof.
  eexists. split; [reflexivity|].
  destruct (handleDragEnd_reorders (Some 0%nat) (Some 2%nat) sampleWaypoints
              _ eq_refl) as (H1 & H2 & H3 & _).
  split; [exact H1|]. split; [exact H2|].
  apply (H3 0%nat 2%nat eq_refl eq_refl). simpl. lia.
Defined.

Lemma edited_waypoints_never_too_few_witness :
  (2 <= length (removeWaypoint 1 (addWaypoint "x" sampleWaypoints)))%nat
  /\ getMultiStopRoute sampleOsrm 4096
       (removeWaypoint 1 (addWaypoint "x" sampleWaypoints))
     <> inl TooFewWaypoints.
Proof.
  apply (edited_waypoints_never_too_few sampleOsrm 4096 sampleWaypoints).
  - simpl. lia.
  - eapply edits_step; [eapply edits_step; [apply edits_none|]|].
    + apply (edit_add "x").
    + apply (edit_remove 1).
Defined.
